(** * SRT generator (forced-aligner post-processing): shallow embedding

    The Python sources [srt_generator_mfa.py] and [srt_generator_ui.py] share
    four pure stages: [parse_textgrid], [reinject_case_and_characters],
    [group_words_into_sentences] and [seconds_to_timestamp], and the writer
    [create_srt].  This file embeds them and proves properties of the
    embedding.

    Modelling conventions.
    - A Python [str] is the list of its characters, a character being a
      Unicode code point (a number); string literals are written in
      [string_scope] and coerced.  The whitespace class of [str.strip] and
      of the regex class [\S] is written out; what [\W] and [str.lower] do
      beyond ASCII is taken from the Unicode character database through
      the class [Unicode].
    - A Python [float] is an IEEE binary64 value, [spec_float] with
      [prec = 53] and [emax = 1024]; arithmetic is the correctly rounded
      arithmetic of [SpecFloat].
    - A raised exception is the [Raise] branch of [result].
    - An interval [dict] has at most the keys ["xmin"], ["xmax"], ["text"];
      it is a record of three optional fields, [None] meaning the key is
      absent. *)

From Stdlib Require Import ZArith NArith List String Ascii Bool Arith Lia QArith Qabs Qround.
From Stdlib Require Import Floats.SpecFloat Sorting.Sorted.
From Stdlib Require Import Numbers.DecimalString.
Import ListNotations.

Local Close Scope Q_scope.

Local Open Scope string_scope.
Local Open Scope list_scope.

(* ================================================================== *)
(** * Part I.  The embedded program                                    *)
(* ================================================================== *)

(** ** Python strings *)

(** A character is a Unicode code point, and a string the list of its
    characters: [len], indexing, slicing and comparison count code points,
    as Python does. *)
Definition char : Type := N.
Definition str : Type := list char.

(** Literals, which hold ASCII characters only, read as code points. *)
Definition code (a : ascii) : char := N_of_ascii a.
Coercion code : ascii >-> char.

Definition literal (s : string) : list char :=
  map code (list_ascii_of_string s).
Coercion literal : string >-> list.

(** [a == b] on characters and on strings. *)
Definition char_eqb (a b : char) : bool := N.eqb a b.

Fixpoint str_eqb (a b : str) : bool :=
  match a, b with
  | [], [] => true
  | x :: a', y :: b' => char_eqb x y && str_eqb a' b'
  | _, _ => false
  end.

(** [len(s)] *)
Definition len (s : str) : Z := Z.of_nat (List.length s).

(** Truthiness of a string: [if s:]. *)
Definition truthy (s : str) : bool :=
  match s with [] => false | _ :: _ => true end.

(** [c.isspace()], the class that [str.strip()] removes and the complement
    of the regex class [\S]: TAB, LF, VT, FF, CR, FS, GS, RS, US, SPACE,
    and beyond ASCII U+0085, U+00A0, U+1680, U+2000 to U+200A, U+2028,
    U+2029, U+202F, U+205F and U+3000. *)
Definition isspace (c : char) : bool :=
  (((9 <=? c) && (c <=? 13)) || ((28 <=? c) && (c <=? 32))
   || (c =? 133) || (c =? 160) || (c =? 5760)
   || ((8192 <=? c) && (c <=? 8202))
   || (c =? 8232) || (c =? 8233) || (c =? 8239) || (c =? 8287)
   || (c =? 12288))%N.

(** A character of the ASCII range. *)
Definition is_ascii (c : char) : bool := (c <? 128)%N.

(** What the program takes from the Unicode character database beyond
    ASCII.  [unicode_alnum c] is [c.isalnum()] for a character [c] above
    U+007F; [unicode_lower s] is [s.lower()] for a string [s] that holds a
    character above U+007F (lowercasing is not done character by character
    there).  Neither is consulted on ASCII text. *)
Class Unicode : Type := {
  unicode_alnum : char -> bool;
  unicode_lower : str -> str
}.

Section Characters.

Context {U : Unicode}.

(** [c.isalnum()]: the ASCII letters and digits, and beyond ASCII what the
    character database says. *)
Definition isalnum (c : char) : bool :=
  if is_ascii c
  then (((48 <=? c) && (c <=? 57)) || ((65 <=? c) && (c <=? 90))
        || ((97 <=? c) && (c <=? 122)))%N
  else unicode_alnum c.

(** The regex class [\w] of a [str] pattern: the alphanumeric characters
    and the underscore. *)
Definition is_word_char (c : char) : bool :=
  isalnum c || (c =? 95)%N.

Definition lower_ascii (c : char) : char :=
  if ((65 <=? c) && (c <=? 90))%N then (c + 32)%N else c.

(** [s.lower()] *)
Definition lower (s : str) : str :=
  if forallb is_ascii s then map lower_ascii s else unicode_lower s.

End Characters.

Fixpoint dropwhile (p : char -> bool) (s : str) : str :=
  match s with
  | [] => []
  | c :: s' => if p c then dropwhile p s' else s
  end.

(** [s.strip(chars)] with the set of characters given as a predicate. *)
Definition strip_with (p : char -> bool) (s : str) : str :=
  rev (dropwhile p (rev (dropwhile p s))).

(** [s.strip()] *)
Definition strip (s : str) : str := strip_with isspace s.

(** [s.strip(q)] where [q] is the one-character string holding the double
    quote, character 34. *)
Definition dquote : char := 34%N.
Definition strip_quotes (s : str) : str := strip_with (char_eqb dquote) s.

(** [s.startswith(p)] *)
Fixpoint startswith (p s : str) : bool :=
  match p, s with
  | [], _ => true
  | _ :: _, [] => false
  | a :: p', b :: s' => char_eqb a b && startswith p' s'
  end.

(** [s.split(sep)] for a one-character separator: the fields between the
    occurrences of [sep]; the result is never empty. *)
Fixpoint split (sep : char) (s : str) : list str :=
  match s with
  | [] => [[]]
  | c :: s' =>
      if char_eqb c sep then [] :: split sep s'
      else match split sep s' with
           | [] => [[c]]
           | f :: fs => (c :: f) :: fs
           end
  end.

(** [s.split(sep, 1)]: at most one cut, at the first occurrence of [sep]. *)
Fixpoint split1 (sep : char) (s : str) : list str :=
  match s with
  | [] => [[]]
  | c :: s' =>
      if char_eqb c sep then [[]; s']
      else match split1 sep s' with
           | [] => [[c]]
           | f :: fs => (c :: f) :: fs
           end
  end.

(** [re.findall(r"\S+", s)]: the maximal runs of non-space characters, in
    order.  [cur] is the run being read, reversed. *)
Fixpoint findall_nonspace_aux (cur : str) (s : str) : list str :=
  match s with
  | [] => match cur with [] => [] | _ :: _ => [rev cur] end
  | c :: s' =>
      if isspace c
      then match cur with
           | [] => findall_nonspace_aux [] s'
           | _ :: _ => rev cur :: findall_nonspace_aux [] s'
           end
      else findall_nonspace_aux (c :: cur) s'
  end.

Definition findall_nonspace (s : str) : list str := findall_nonspace_aux [] s.

Section Normalization.

Context {U : Unicode}.

(** [re.sub(r'\W+', '', s).lower()]: every run of non-word characters is
    deleted, then the rest is lowercased. *)
Definition clean (s : str) : str := lower (filter is_word_char s).

End Normalization.

(** ** Exceptions *)

(** The exceptions the program meets.  [UnicodeDecodeError] is in Python a
    subclass of [ValueError]; here [ValueError] is the exception raised by
    [float] and [int]. *)
Inductive exn : Type :=
| FileNotFoundError
| IsADirectoryError
| PermissionError
| UnicodeDecodeError
| ValueError
| KeyError (key : string)
| IndexError
| OverflowError
| ZeroDivisionError.

Inductive result (A : Type) : Type :=
| Ok (a : A)
| Raise (e : exn).

Arguments Ok {A} a.
Arguments Raise {A} e.

Definition bind {A B : Type} (r : result A) (k : A -> result B) : result B :=
  match r with
  | Ok a => k a
  | Raise e => Raise e
  end.

Notation "x <- r ;; k" := (bind r (fun x => k))
  (at level 61, r at next level, right associativity).

(** [l[i]] on a list. *)
Definition getitem {A : Type} (l : list A) (i : nat) : result A :=
  match nth_error l i with
  | Some a => Ok a
  | None => Raise IndexError
  end.

(** ** Floats and intervals *)

Definition prec : Z := 53.
Definition emax : Z := 1024.
Definition float : Type := spec_float.

(** The interval dictionaries built by [parse_textgrid]. *)
Record interval : Type := mkInterval {
  xmin : option float;
  xmax : option float;
  text : option str
}.

Definition empty_dict : interval := mkInterval None None None.

(** [d["xmin"] = v], [d["xmax"] = v], [d["text"] = v] *)
Definition set_xmin (v : float) (d : interval) : interval :=
  mkInterval (Some v) (xmax d) (text d).
Definition set_xmax (v : float) (d : interval) : interval :=
  mkInterval (xmin d) (Some v) (text d).
Definition set_text (v : str) (d : interval) : interval :=
  mkInterval (xmin d) (xmax d) (Some v).

(** [d.get("text", "")] *)
Definition get_text (d : interval) : str :=
  match text d with Some t => t | None => [] end.

(** [d["xmin"]] and [d["xmax"]]: a missing key raises [KeyError]. *)
Definition getitem_xmin (d : interval) : result float :=
  match xmin d with Some v => Ok v | None => Raise (KeyError "xmin") end.
Definition getitem_xmax (d : interval) : result float :=
  match xmax d with Some v => Ok v | None => Raise (KeyError "xmax") end.

(** ** [parse_textgrid] *)

(** A file as [open(file_path, "r", encoding="utf-8")] and the iteration
    [for line in f] see it.  Either [open] raises an exception:
    [FileNotFoundError] when the path does not exist, [IsADirectoryError],
    [PermissionError]...  Or the file is opened, the iteration yields the
    lines [lines] in order, and then it ends normally or raises [ending],
    as the decoder does with [UnicodeDecodeError] on bytes that are not
    UTF-8. *)
Inductive file : Type :=
| Unopenable (e : exn)
| Readable (lines : list str) (ending : option exn).

Definition filesystem : Type := str -> file.

Record parse_state : Type := mkParse {
  intervals : list interval;
  current_interval : interval;
  in_words_tier : bool
}.

Section ParseTextgrid.

Context {U : Unicode}.

(** The builtin [float(s)]; [None] stands for its [ValueError]. *)
Variable py_float : str -> option float.

Definition float_of_str (s : str) : result float :=
  match py_float s with
  | Some v => Ok v
  | None => Raise ValueError
  end.

(** One iteration of [for line in f]. *)
Definition parse_line (st : parse_state) (raw : str) : result parse_state :=
  let line := strip raw in
  if startswith "name =" line then
    field <- getitem (split "="%char line) 1 ;;
    let tier_name := strip_quotes (strip field) in
    Ok (mkParse (intervals st) (current_interval st)
                (str_eqb (lower tier_name) "words"))
  else if in_words_tier st && startswith "xmin =" line then
    field <- getitem (split "="%char line) 1 ;;
    v <- float_of_str (strip field) ;;
    Ok (mkParse (intervals st) (set_xmin v (current_interval st))
                (in_words_tier st))
  else if in_words_tier st && startswith "xmax =" line then
    field <- getitem (split "="%char line) 1 ;;
    v <- float_of_str (strip field) ;;
    Ok (mkParse (intervals st) (set_xmax v (current_interval st))
                (in_words_tier st))
  else if in_words_tier st && startswith "text =" line then
    field <- getitem (split1 "="%char line) 1 ;;
    let text_val := strip_quotes (strip field) in
    Ok (mkParse (intervals st ++ [set_text text_val (current_interval st)])
                empty_dict
                (in_words_tier st))
  else Ok st.

Fixpoint parse_lines (lines : list str) (st : parse_state)
  : result parse_state :=
  match lines with
  | [] => Ok st
  | raw :: rest => st' <- parse_line st raw ;; parse_lines rest st'
  end.

Definition parse_textgrid (fs : filesystem) (file_path : str)
  : result (list interval) :=
  match fs file_path with
  | Unopenable e => Raise e
  | Readable lines ending =>
      st <- parse_lines lines (mkParse [] empty_dict false) ;;
      match ending with
      | Some e => Raise e
      | None => Ok (intervals st)
      end
  end.

End ParseTextgrid.

(** ** [reinject_case_and_characters] *)

Section Reinject.

Context {U : Unicode}.

(** The [while script_index < len(words_from_script)] loop for one interval.
    [rest] is [words_from_script[script_index:]].  The result is the value
    of [script_index] when the loop is left and the candidate adopted at the
    [break], if any. *)
Fixpoint scan (rest : list str) (script_index : nat) (word : str)
  : nat * option str :=
  match rest with
  | [] => (script_index, None)
  | candidate :: rest' =>
      let script_index := S script_index in
      let clean_candidate := clean candidate in
      let clean_word := clean word in
      if str_eqb clean_candidate clean_word
      then (script_index, Some candidate)
      else scan rest' script_index word
  end.

(** State of the [for interval in word_intervals] loop.  [matched_at] is a
    ghost log, absent from the source: for every appended interval, the index
    in [words_from_script] of the token it adopted, if it adopted one. *)
Record reinject_state : Type := mkReinject {
  updated_intervals : list interval;
  script_index : nat;
  matched_at : list (option nat)
}.

Definition reinject_step (words_from_script : list str)
    (st : reinject_state) (iv : interval) : reinject_state :=
  let word := get_text iv in
  if negb (truthy (strip word)) then st
  else
    let '(idx, found) :=
      scan (skipn (script_index st) words_from_script) (script_index st) word in
    let iv' := match found with
               | Some candidate => set_text candidate iv
               | None => iv
               end in
    mkReinject (updated_intervals st ++ [iv']) idx
               (matched_at st ++ [match found with
                                  | Some _ => Some (pred idx)
                                  | None => None
                                  end]).

Definition reinject_loop (words_from_script : list str)
    (word_intervals : list interval) (st : reinject_state) : reinject_state :=
  fold_left (reinject_step words_from_script) word_intervals st.

Definition reinject_run (word_intervals : list interval)
    (original_script : str) : reinject_state :=
  reinject_loop (findall_nonspace original_script) word_intervals
                (mkReinject [] 0 []).

Definition reinject_case_and_characters (word_intervals : list interval)
    (original_script : str) : list interval :=
  updated_intervals (reinject_run word_intervals original_script).

End Reinject.

(** ** [group_words_into_sentences] *)

(** A subtitle tuple [(start_time, end_time, sentence_text)]. *)
Definition subtitle : Type := (float * float * str)%type.

(** [word_text[-1] in ".!?"] for a non-empty [word_text]. *)
Definition ends_sentence (word_text : str) : bool :=
  match rev word_text with
  | [] => false
  | c :: _ => char_eqb c "."%char || char_eqb c "!"%char
              || char_eqb c "?"%char
  end.

(** State of the loop: [subtitles], [current_sentence], [sentence_start]
    ([None] is Python's [None]).  The variable [sentence_end] of the command
    line variant is written and never read back after the append; it is
    left out. *)
Record group_state : Type := mkGroup {
  subtitles : list subtitle;
  current_sentence : str;
  sentence_start : option float
}.

(** One iteration of [for word in word_intervals], command line variant
    ([srt_generator_mfa.py]). *)
Definition group_step (max_chars : Z) (st : group_state) (word : interval)
  : result group_state :=
  let word_text := strip (get_text word) in
  if negb (truthy word_text) then Ok st
  else
    start <- match sentence_start st with
             | None => getitem_xmin word
             | Some s => Ok s
             end ;;
    let new_sentence :=
      if truthy (current_sentence st)
      then current_sentence st ++ " " ++ word_text
      else word_text in
    if (max_chars <? len new_sentence)%Z || ends_sentence word_text then
      sentence_end <- getitem_xmax word ;;
      Ok (mkGroup (subtitles st ++ [(start, sentence_end, strip new_sentence)])
                  [] None)
    else Ok (mkGroup (subtitles st) new_sentence (Some start)).

Fixpoint group_loop (max_chars : Z) (words : list interval) (st : group_state)
  : result group_state :=
  match words with
  | [] => Ok st
  | word :: rest =>
      st' <- group_step max_chars st word ;; group_loop max_chars rest st'
  end.

(** [word_intervals[-1]["xmax"]] *)
Definition last_xmax (word_intervals : list interval) : result float :=
  match rev word_intervals with
  | [] => Raise IndexError
  | w :: _ => getitem_xmax w
  end.

Definition group_words_into_sentences (word_intervals : list interval)
    (max_chars : Z) : result (list subtitle) :=
  st <- group_loop max_chars word_intervals (mkGroup [] [] None) ;;
  if truthy (current_sentence st) then
    match sentence_start st with
    | Some start =>
        e <- last_xmax word_intervals ;;
        Ok (subtitles st ++ [(start, e, strip (current_sentence st))])
    | None => Ok (subtitles st)
    end
  else Ok (subtitles st).

(** The same loop in the GUI variant ([srt_generator_ui.py]): the candidate
    line is stripped when it is formed, not when it is appended. *)
Definition group_step_ui (max_chars : Z) (st : group_state) (word : interval)
  : result group_state :=
  let word_text := strip (get_text word) in
  if negb (truthy word_text) then Ok st
  else
    start <- match sentence_start st with
             | None => getitem_xmin word
             | Some s => Ok s
             end ;;
    let new_sentence :=
      if truthy (current_sentence st)
      then strip (current_sentence st ++ " " ++ word_text)
      else word_text in
    if (max_chars <? len new_sentence)%Z || ends_sentence word_text then
      e <- getitem_xmax word ;;
      Ok (mkGroup (subtitles st ++ [(start, e, new_sentence)]) [] None)
    else Ok (mkGroup (subtitles st) new_sentence (Some start)).

Fixpoint group_loop_ui (max_chars : Z) (words : list interval)
    (st : group_state) : result group_state :=
  match words with
  | [] => Ok st
  | word :: rest =>
      st' <- group_step_ui max_chars st word ;; group_loop_ui max_chars rest st'
  end.

Definition group_words_into_sentences_ui (word_intervals : list interval)
    (max_chars : Z) : result (list subtitle) :=
  st <- group_loop_ui max_chars word_intervals (mkGroup [] [] None) ;;
  if truthy (current_sentence st) then
    match sentence_start st with
    | Some start =>
        e <- last_xmax word_intervals ;;
        Ok (subtitles st ++ [(start, e, current_sentence st)])
    | None => Ok (subtitles st)
    end
  else Ok (subtitles st).

(** ** Float arithmetic of the interpreter *)

Definition fadd : float -> float -> float := SFadd prec emax.
Definition fsub : float -> float -> float := SFsub prec emax.
Definition fmul : float -> float -> float := SFmul prec emax.
Definition fdiv : float -> float -> float := SFdiv prec emax.

(** The double nearest to an integer (exact below [2^53]). *)
Definition float_of_Z (n : Z) : float := binary_normalize prec emax n 0 false.

(** The double nearest to [n / 10^k], which is how a decimal literal with
    [k] fractional digits is read, for [n] and [10^k] below [2^53]: both are
    exact doubles and the division is correctly rounded. *)
Definition decimal (n : Z) (k : nat) : float :=
  fdiv (float_of_Z n) (float_of_Z (10 ^ Z.of_nat k)).

Definition fzero : float := S754_zero false.

Definition sign_bit (x : float) : bool :=
  match x with
  | S754_zero s | S754_infinity s | S754_finite s _ _ => s
  | S754_nan => false
  end.

(** C truth value of a double: [if (x)] holds unless [x == 0.0]. *)
Definition c_true (x : float) : bool := negb (SFeqb x fzero).

(** C [x < 0] *)
Definition lt0 (x : float) : bool := SFltb x fzero.

(** C [fmod(x, y)]: the exact remainder of the truncated quotient, with
    the sign of [x]. *)
Definition c_fmod (x y : float) : float :=
  match x, y with
  | S754_nan, _ | _, S754_nan => S754_nan
  | S754_infinity _, _ => S754_nan
  | _, S754_zero _ => S754_nan
  | _, S754_infinity _ => x
  | S754_zero _, _ => x
  | S754_finite sx mx ex, S754_finite _ my ey =>
      let e := Z.min ex ey in
      let X := Z.shiftl (Zpos mx) (ex - e) in
      let Y := Z.shiftl (Zpos my) (ey - e) in
      binary_normalize prec emax (cond_Zopp sx (X mod Y)) e sx
  end%Z.

(** C [floor(x)] *)
Definition c_floor (x : float) : float :=
  match x with
  | S754_finite s m e =>
      if (0 <=? e)%Z then x
      else binary_normalize prec emax
             (Z.shiftl (cond_Zopp s (Zpos m)) e) 0 s
  | _ => x
  end.

(** [float.__mod__] (CPython [float_rem]). *)
Definition py_mod (vx wx : float) : result float :=
  if SFeqb wx fzero then Raise ZeroDivisionError
  else
    let modulo := c_fmod vx wx in
    Ok (if c_true modulo
        then if xorb (lt0 wx) (lt0 modulo) then fadd modulo wx else modulo
        else S754_zero (sign_bit wx)).

(** [float.__floordiv__] (CPython [float_floor_div]). *)
Definition py_floordiv (vx wx : float) : result float :=
  if SFeqb wx fzero then Raise ZeroDivisionError
  else
    let modulo := c_fmod vx wx in
    let div := fdiv (fsub vx modulo) wx in
    let div := if c_true modulo && xorb (lt0 wx) (lt0 modulo)
               then fsub div (float_of_Z 1) else div in
    Ok (if c_true div
        then let floordiv := c_floor div in
             if SFltb (decimal 5 1) (fsub div floordiv)
             then fadd floordiv (float_of_Z 1) else floordiv
        else S754_zero (sign_bit (fdiv vx wx))).

(** [int(x)]: truncation towards zero. *)
Definition py_int (x : float) : result Z :=
  match x with
  | S754_nan => Raise ValueError
  | S754_infinity _ => Raise OverflowError
  | S754_zero _ => Ok 0%Z
  | S754_finite s m e => Ok (cond_Zopp s (Z.shiftl (Zpos m) e))
  end.

(** The conversion of an [int] operand of float arithmetic. *)
Definition py_float_of_int (n : Z) : result float :=
  match float_of_Z n with
  | S754_infinity _ => Raise OverflowError
  | f => Ok f
  end.

(** [round(x)] with one argument.  For [x = m / 2^k] the quotient [m / 2^k]
    is kept when the remainder is below half of [2^k], raised by one when it
    is above, and on a tie made even. *)
Definition py_round (x : float) : result Z :=
  match x with
  | S754_nan => Raise ValueError
  | S754_infinity _ => Raise OverflowError
  | S754_zero _ => Ok 0%Z
  | S754_finite s m e =>
      if (0 <=? e)%Z then Ok (cond_Zopp s (Z.shiftl (Zpos m) e))
      else
        let k := (- e)%Z in
        let q := Z.shiftr (Zpos m) k in
        let r := Z.land (Zpos m) (Z.ones k) in
        let half := Z.shiftl 1 (k - 1) in
        Ok (cond_Zopp s
              (match (r ?= half)%Z with
               | Lt => q
               | Gt => q + 1
               | Eq => if Z.even q then q else q + 1
               end))%Z
  end.

(** ** [seconds_to_timestamp] *)

(** Decimal digits of a non-negative integer. *)
Definition digits (n : Z) : str :=
  literal (NilZero.string_of_uint (N.to_uint (Z.to_N n))).

(** The format specifications [:02] and [:03]: decimal, zero-padded to
    [width] characters, a minus sign counted in the width. *)
Definition format_0 (width : nat) (n : Z) : str :=
  let pad w d := repeat (code "0") (w - List.length d) ++ d in
  if (n <? 0)%Z then code "-" :: pad (pred width) (digits (- n))
  else pad width (digits n).

Record stamp : Type := mkStamp {
  hours : Z;
  minutes : Z;
  secs : Z;
  milliseconds : Z
}.

(** The four assignments of [seconds_to_timestamp]. *)
Definition timestamp_fields (seconds : float) : result stamp :=
  q <- py_floordiv seconds (float_of_Z 3600) ;;
  hours <- py_int q ;;
  r <- py_mod seconds (float_of_Z 3600) ;;
  q' <- py_floordiv r (float_of_Z 60) ;;
  minutes <- py_int q' ;;
  r' <- py_mod seconds (float_of_Z 60) ;;
  secs <- py_int r' ;;
  i <- py_int seconds ;;
  fi <- py_float_of_int i ;;
  milliseconds <- py_round (fmul (fsub seconds fi) (float_of_Z 1000)) ;;
  Ok (mkStamp hours minutes secs milliseconds).

(** The f-string of the [return]. *)
Definition format_stamp (t : stamp) : str :=
  format_0 2 (hours t) ++ ":" ++ format_0 2 (minutes t) ++ ":"
  ++ format_0 2 (secs t) ++ "," ++ format_0 3 (milliseconds t).

Definition seconds_to_timestamp (seconds : float) : result str :=
  t <- timestamp_fields seconds ;;
  Ok (format_stamp t).

(** ** [create_srt] *)

(** The character [\n]. *)
Definition newline : char := 10%N.

(** [str(n)] for an [int], which is what the replacement field [{idx}]
    of an f-string writes. *)
Definition str_of_int (n : Z) : str :=
  if (n <? 0)%Z then code "-" :: digits (- n) else digits n.

(** One iteration of [for idx, (start, end, text) in enumerate(...)], on
    the text written to [f] so far.  The three calls of [f.write] happen in
    order; the arguments of the second are evaluated from left to right,
    and an exception raised by [seconds_to_timestamp] leaves the loop with
    the index line already written. *)
Definition create_srt_step (written : str) (idx : Z) (sub : subtitle)
  : str * result unit :=
  let '(start, stop, text) := sub in
  let written := written ++ str_of_int idx ++ [newline] in
  match seconds_to_timestamp start with
  | Raise e => (written, Raise e)
  | Ok a =>
      match seconds_to_timestamp stop with
      | Raise e => (written, Raise e)
      | Ok b =>
          (written ++ (a ++ " --> " ++ b ++ [newline])
                   ++ (text ++ [newline; newline]), Ok tt)
      end
  end.

Fixpoint create_srt_loop (written : str) (idx : Z) (subtitles : list subtitle)
  : str * result unit :=
  match subtitles with
  | [] => (written, Ok tt)
  | sub :: rest =>
      match create_srt_step written idx sub with
      | (written', Ok _) => create_srt_loop written' (idx + 1) rest
      | (written', Raise e) => (written', Raise e)
      end
  end.

(** The files written by the program: a path holds a text or does not
    exist. *)
Definition disk : Type := str -> option str.

Definition write_file (d : disk) (path content : str) : disk :=
  fun p => if str_eqb p path then Some content else d p.

(** [create_srt(subtitles, output_file)] for an [output_file] that can be
    opened for writing.  Opening with mode ["w"] empties the file; leaving
    the [with] block, normally or by an exception, closes it with the text
    written so far.  The result is the disk after the call and the
    exception that left the block, if any. *)
Definition create_srt (d : disk) (subtitles : list subtitle)
    (output_file : str) : disk * result unit :=
  let '(written, outcome) := create_srt_loop [] 1 subtitles in
  (write_file d output_file written, outcome).

(* ================================================================== *)
(** * Part II.  Specification-level definitions                        *)
(* ================================================================== *)

(** A stand-in for the character database in the examples, whose texts
    are ASCII: the fields are consulted on characters above U+007F only,
    and the examples have none. *)
Definition ascii_unicode : Unicode :=
  {| unicode_alnum := fun _ => false; unicode_lower := fun s => s |}.

Section Specification.

Context {U : Unicode}.

(** ** The interval document, read declaratively

    These definitions describe the result of [parse_textgrid] by position in
    the document, without running the loop: which lines are declarations,
    which tier a position belongs to, and which bound lines an interval's
    text line collects. *)

Definition is_name_line (raw : str) : bool := startswith "name =" (strip raw).
Definition is_xmin_line (raw : str) : bool := startswith "xmin =" (strip raw).
Definition is_xmax_line (raw : str) : bool := startswith "xmax =" (strip raw).
Definition is_text_line (raw : str) : bool := startswith "text =" (strip raw).

(** The text between the first and the second [=] of a line, stripped. *)
Definition second_field (raw : str) : str :=
  strip (nth 1 (split "="%char (strip raw)) []).

(** Whether a tier-name declaration names the tier [words], in any case. *)
Definition names_words (raw : str) : bool :=
  str_eqb (lower (strip_quotes (second_field raw))) "words".

(** The label of a text line: all that follows the first [=], without the
    surrounding blanks and quotes. *)
Definition text_value (raw : str) : str :=
  strip_quotes (strip (nth 1 (split1 "="%char (strip raw)) [])).

(** The current-tier flag after the lines [before]: the most recent
    tier-name declaration decides, and before the first one it is unset. *)
Definition tier_flag (before : list str) : bool :=
  match find is_name_line (rev before) with
  | Some decl => names_words decl
  | None => false
  end.

(** Line [i] lies in the words tier. *)
Definition in_words (lines : list str) (i : nat) : bool :=
  tier_flag (firstn i lines).

(** Line [i] is a text line of the words tier: it emits an interval. *)
Definition emits (lines : list str) (i : nat) : bool :=
  in_words lines i && is_text_line (nth i lines []).

Definition emitting_lines (lines : list str) : list nat :=
  filter (emits lines) (seq 0 (List.length lines)).

(** The first line after the last emitting line before [i]. *)
Definition segment_start (lines : list str) (i : nat) : nat :=
  match rev (filter (emits lines) (seq 0 i)) with
  | k :: _ => S k
  | [] => 0
  end.

(** The words-tier lines of kind [is_bound] between the previous emitting
    line and line [i]. *)
Definition bound_lines (is_bound : str -> bool) (lines : list str) (i : nat)
  : list nat :=
  filter (fun j => in_words lines j && is_bound (nth j lines []))
         (seq (segment_start lines i) (i - segment_start lines i)).

Section DocumentSpec.

Variable py_float : str -> option float.

(** The bound collected at line [i]: the value of the most recent bound
    line of the segment, absent when the segment has none. *)
Definition bound_at (is_bound : str -> bool) (lines : list str) (i : nat)
  : option float :=
  match rev (bound_lines is_bound lines i) with
  | j :: _ => py_float (second_field (nth j lines []))
  | [] => None
  end.

Definition interval_at (lines : list str) (i : nat) : interval :=
  mkInterval (bound_at is_xmin_line lines i)
             (bound_at is_xmax_line lines i)
             (Some (text_value (nth i lines []))).

(** The intervals of the document, in document order. *)
Definition document_intervals (lines : list str) : list interval :=
  map (interval_at lines) (emitting_lines lines).

(** Line [i] is a bound line of the words tier whose number does not
    parse. *)
Definition malformed_at (lines : list str) (i : nat) : bool :=
  in_words lines i
  && (is_xmin_line (nth i lines []) || is_xmax_line (nth i lines []))
  && match py_float (second_field (nth i lines [])) with
     | Some _ => false
     | None => true
     end.

(** What the loop state holds after the lines [p]. *)
Record parse_inv (p : list str) (st : parse_state) : Prop := mkParseInv {
  inv_intervals : intervals st = document_intervals p;
  inv_flag : in_words_tier st = tier_flag p;
  inv_xmin : xmin (current_interval st)
             = bound_at is_xmin_line p (List.length p);
  inv_xmax : xmax (current_interval st)
             = bound_at is_xmax_line p (List.length p);
  inv_text : text (current_interval st) = None
}.

End DocumentSpec.

(** A reader of unsigned decimal numerals such as [12] and [0.75], the
    numerals an aligner writes; it stands for the builtin [float] in the
    examples. *)
Definition digit_value (c : char) : option Z :=
  if ((48 <=? c) && (c <=? 57))%N then Some (Z.of_N (c - 48)) else None.

Fixpoint read_decimal (s : str) (n : Z) (k : option nat) (seen : bool)
  : option float :=
  match s with
  | [] => if seen
          then Some (decimal n (match k with Some k => k | None => 0%nat end))
          else None
  | c :: s' =>
      match digit_value c with
      | Some d => read_decimal s' (10 * n + d)%Z (option_map S k) true
      | None =>
          match k with
          | None => if char_eqb c "."%char
                    then read_decimal s' n (Some 0%nat) seen else None
          | Some _ => None
          end
      end
  end.

Definition decimal_float (s : str) : option float :=
  read_decimal (strip s) 0%Z None false.

(** ** Reinjection, read declaratively *)

(** The normalization as the specification words it: every character that
    is not alphanumeric is deleted, then the rest is lowercased. *)
Definition normalize_alnum (s : str) : str := lower (filter isalnum s).

(** An interval whose text is neither empty nor blank. *)
Definition nonblank (iv : interval) : bool := truthy (strip (get_text iv)).

(** In a log of adopted token indices, later entries are larger. *)
Definition increasing_matches (log : list (option nat)) : Prop :=
  forall i j a b, (i < j)%nat ->
    nth_error log i = Some (Some a) -> nth_error log j = Some (Some b) ->
    (a < b)%nat.

(** ** Cue grouping, read declaratively *)

(** The text a word contributes to a line. *)
Definition word_text (w : interval) : str := strip (get_text w).

(** [sep.join(parts)] *)
Fixpoint join (sep : str) (parts : list str) : str :=
  match parts with
  | [] => []
  | [s] => s
  | s :: rest => s ++ sep ++ join sep rest
  end.

(** The line made of the words [g]. *)
Definition line_of (g : list interval) : str := join " " (map word_text g).

(** The closing condition on the candidate line made of [g], whose last
    word is the current word. *)
Definition closes (max_chars : Z) (g : list interval) : bool :=
  match rev g with
  | [] => false
  | w :: _ => (max_chars <? len (line_of g))%Z || ends_sentence (word_text w)
  end.

Definition is_prefix (p l : list interval) : Prop := exists q, l = p ++ q.

(** A closed group: the closing condition holds on it and on no shorter
    line of it. *)
Definition closed_group (max_chars : Z) (g : list interval) : Prop :=
  closes max_chars g = true
  /\ forall p, is_prefix p g -> p <> g -> closes max_chars p = false.

(** An open line: the closing condition holds on no line of it. *)
Definition open_line (max_chars : Z) (t : list interval) : Prop :=
  forall p, is_prefix p t -> closes max_chars p = false.

(** The words [ws] cut into closed groups followed by an open line. *)
Record segmentation (max_chars : Z) (ws : list interval)
    (gs : list (list interval)) (t : list interval) : Prop := mkSegmentation {
  seg_concat : ws = List.concat gs ++ t;
  seg_closed : Forall (closed_group max_chars) gs;
  seg_open : open_line max_chars t
}.

(** The cue [c] renders the group [g]: it starts with the first word, ends
    with the last word and carries the line of the group. *)
Definition renders (g : list interval) (c : subtitle) : Prop :=
  let '(start, stop, line) := c in
  xmin (hd empty_dict g) = Some start
  /\ xmax (last g empty_dict) = Some stop
  /\ line = line_of g.

Definition has_bounds (w : interval) : Prop :=
  xmin w <> None /\ xmax w <> None.

(** ** Sample inputs for the examples *)

Definition quoted (s : str) : str := dquote :: s ++ [dquote].

(** A plain line, and a line whose value is written between quotes. *)
Definition plain (s : string) : str := s.
Definition with_quoted (key value : string) : str := key ++ quoted value.

(** A document with a words tier of two intervals followed by a phones
    tier of one. *)
Definition sample_document : list str :=
  [ plain "item [1]:";
    with_quoted "    class = " "IntervalTier";
    with_quoted "    name = " "Words";
    plain "    xmin = 0";
    plain "    xmax = 1.5";
    plain "    intervals [1]:";
    plain "        xmin = 0";
    plain "        xmax = 0.5";
    with_quoted "        text = " "hello";
    plain "    intervals [2]:";
    plain "        xmin = 0.5";
    plain "        xmax = 1.5";
    with_quoted "        text = " "world";
    plain "item [2]:";
    with_quoted "    name = " "phones";
    plain "        xmin = 0";
    plain "        xmax = 0.25";
    with_quoted "        text = " "HH" ].

Definition sample_path : str := "sample.TextGrid".

Definition sample_fs : filesystem :=
  fun file_path =>
    if str_eqb file_path sample_path then Readable sample_document None
    else Unopenable FileNotFoundError.

Definition sample_intervals : list interval :=
  [ mkInterval (Some (decimal 0 0)) (Some (decimal 5 1)) (Some ("hello" : str));
    mkInterval (Some (decimal 5 1)) (Some (decimal 15 1))
               (Some ("world" : str)) ].

(** What a returned interval and its log entry say about the input
    interval [iv] they come from: either the token at the logged index was
    adopted, its cleaned form being that of the interval's text, or nothing
    was adopted and the interval is returned as it was. *)
Definition adoption (tokens : list str) (iv : interval)
    (e : interval * option nat) : Prop :=
  match snd e with
  | Some a => exists t, nth_error tokens a = Some t
                        /\ clean t = clean (get_text iv)
                        /\ fst e = set_text t iv
  | None => fst e = iv
  end.

(** The returned interval [iv'] is the input interval [iv], possibly with
    a token of the transcript for text. *)
Definition same_interval (tokens : list str) (iv iv' : interval) : Prop :=
  xmin iv' = xmin iv /\ xmax iv' = xmax iv
  /\ (iv' = iv \/ exists t, In t tokens /\ iv' = set_text t iv).

(** An interval with the given text and the bounds [lo/10], [hi/10]. *)
Definition word_at (lo hi : Z) (t : string) : interval :=
  mkInterval (Some (decimal lo 1)) (Some (decimal hi 1))
             (Some (literal t)).

(** The token [Don't], written with character 39 for the apostrophe. *)
Definition token_dont : str := "Don" ++ [39%N] ++ "t".

(** Four words and a trailing pause.  With twenty characters to a line the
    second word closes a cue and the last two stay on an open line. *)
Definition sample_words : list interval :=
  [ word_at 0 5 "Hello"; word_at 5 10 "there."; word_at 10 14 "How";
    word_at 14 20 "are"; word_at 20 25 "" ].

Definition sample_cues : list subtitle :=
  [ (decimal 0 1, decimal 10 1, "Hello there." : str);
    (decimal 10 1, decimal 25 1, "How are" : str) ].

(** ** Timestamps, read declaratively *)

Local Open Scope Q_scope.

(** The rational number a finite double stands for: [m * 2^e], signed. *)
Definition F2Q (x : float) : Q :=
  match x with
  | S754_finite s m e =>
      match e with
      | Zneg k => Qmake (cond_Zopp s (Zpos m)) (Pos.pow 2 k)
      | _ => inject_Z (cond_Zopp s (Zpos m) * 2 ^ e)
      end
  | _ => 0
  end.

(** Rounding to the nearest integer, a tie going away from zero: the
    rounding the specification names. *)
Definition round_half_away (q : Q) : Z :=
  if Qle_bool 0 q then Qfloor (q + (1 # 2)) else Qceiling (q - (1 # 2)).

(** [r] is an integer nearest to [q], and the even one on a tie: the
    rounding of the builtin [round]. *)
Definition nearest_even (q : Q) (r : Z) : Prop :=
  Qabs (q - inject_Z r) <= 1 # 2
  /\ (Qabs (q - inject_Z r) == 1 # 2 -> Z.even r = true).

(** The floor and modulus formulas of the specification. *)
Definition floor_hours (v : Q) : Z := Qfloor (v / 3600).
Definition Qmodulo (v : Q) (d : Z) : Q :=
  v - inject_Z (d * Qfloor (v / inject_Z d)).
Definition floor_minutes (v : Q) : Z := Qfloor (Qmodulo v 3600 / 60).
Definition floor_secs (v : Q) : Z := Qfloor (Qmodulo v 60).
Definition fractional_part (v : Q) : Q := v - inject_Z (Qfloor v).

Local Close Scope Q_scope.

(** A double in the format of binary64: its mantissa and exponent are the
    canonical ones. *)
Definition valid (x : float) : Prop := valid_binary prec emax x = true.

(** A finite double that is zero or positive. *)
Definition finite_nonneg (x : float) : Prop :=
  match x with
  | S754_zero _ => True
  | S754_finite s _ _ => s = false
  | _ => False
  end.

(** ** Invariants and auxiliary notions of the proofs *)

(** What the ghost log records about a state. *)
Record reinject_inv (tokens : list str) (st : reinject_state) : Prop :=
  mkReinjectInv {
    rinv_cursor : (script_index st <= List.length tokens)%nat;
    rinv_length : List.length (matched_at st)
                  = List.length (updated_intervals st);
    rinv_increasing : increasing_matches (matched_at st);
    rinv_adopted :
      forall k a, nth_error (matched_at st) k = Some (Some a) ->
        (a < script_index st)%nat
        /\ exists t iv, nth_error tokens a = Some t
                        /\ nth_error (updated_intervals st) k = Some iv
                        /\ text iv = Some t
  }.

(** The first character, if any, is not in the class [p]. *)
Definition head_clear (p : char -> bool) (s : str) : Prop :=
  match s with [] => True | c :: _ => p c = false end.

(** Neither end of [s] is a space: [s.strip()] is [s]. *)
Definition tidy (s : str) : Prop :=
  head_clear isspace s /\ head_clear isspace (rev s).

(** The state [st] stands for the closed groups [gs] and the open line
    [p]. *)
Definition group_rep (gs : list (list interval)) (p : list interval)
    (st : group_state) : Prop :=
  Forall2 renders gs (subtitles st)
  /\ current_sentence st = line_of p
  /\ Forall (fun w => nonblank w = true) p
  /\ match p with
     | [] => sentence_start st = None
     | w :: _ => exists s, sentence_start st = Some s /\ xmin w = Some s
     end.

Definition group_inv (max_chars : Z) (done : list interval)
    (st : group_state) : Prop :=
  exists gs p, segmentation max_chars done gs p /\ group_rep gs p st.

Local Open Scope Z_scope.

(** The value of a double in units of the smallest positive double. *)
Definition scaled (x : float) : Z :=
  match x with
  | S754_finite s m e => cond_Zopp s (Zpos m) * 2 ^ (e + 1074)
  | _ => 0
  end.

(** The exponent of the double of scaled value [V]. *)
Definition canon_exp (V : Z) : Z := Z.max (Z.log2 V + 1 - 1074 - 53) (-1074).

(** The non-negative double with scaled value [V]. *)
Definition the_float (V : Z) : float :=
  if V =? 0 then S754_zero false
  else S754_finite false (Z.to_pos (V / 2 ^ (canon_exp V + 1074)))
                   (canon_exp V).

(** [V] is the scaled value of some non-negative double. *)
Definition representable (V : Z) : Prop :=
  0 <= V /\ V mod 2 ^ (canon_exp V + 1074) = 0 /\ canon_exp V <= 971.

(** A double that is neither infinite nor a NaN. *)
Definition finite_or_zero (x : float) : Prop :=
  match x with
  | S754_zero _ | S754_finite _ _ _ => True
  | _ => False
  end.

(** The denominator [2^1074]. *)
Definition unit_den : positive := Pos.pow 2 1074.

Local Close Scope Z_scope.

End Specification.

Section FurtherNotions.

Context {U : Unicode}.

(** ** Notions used by the further properties of Part IV *)

(** A line the parser may act on: one of the four declarations. *)
Definition is_declaration (raw : str) : bool :=
  is_name_line raw || is_xmin_line raw || is_xmax_line raw
  || is_text_line raw.

(** The file with its lines replaced by [f lines]. *)
Definition map_lines (f : list str -> list str) (x : file) : file :=
  match x with
  | Unopenable e => Unopenable e
  | Readable lines ending => Readable (f lines) ending
  end.

(** A string made of blanks only; the empty string is one. *)
Definition blank (s : str) : bool := forallb isspace s.

(** The string has a double quote at neither end. *)
Definition unquoted (s : str) : bool :=
  negb (startswith [dquote] s) && negb (startswith [dquote] (rev s)).

(** A token with at least one word character: its cleaned form is not
    empty. *)
Definition spoken (t : str) : bool := truthy (clean t).

(** [l] is [m] with some elements left out. *)
Inductive subseq {A : Type} : list A -> list A -> Prop :=
| subseq_nil : subseq [] []
| subseq_skip (x : A) (l m : list A) : subseq l m -> subseq l (x :: m)
| subseq_keep (x : A) (l m : list A) : subseq l m -> subseq (x :: l) (x :: m).

Definition opt_list {A : Type} (o : option A) : list A :=
  match o with Some a => [a] | None => [] end.

(** The bounds of the intervals in list order: start, end, start, end... *)
Definition bounds_of (ws : list interval) : list float :=
  flat_map (fun w => opt_list (xmin w) ++ opt_list (xmax w)) ws.

(** The times of the cues in list order. *)
Definition cue_times (cues : list subtitle) : list float :=
  flat_map (fun c => [fst (fst c); snd (fst c)]) cues.

(** The text of a cue. *)
Definition cue_text (c : subtitle) : str := snd c.

(** The groups of a segmentation that are rendered as cues: the closed
    groups and the open line when there is one. *)
Definition rendered_groups (gs : list (list interval)) (t : list interval)
  : list (list interval) :=
  gs ++ match t with [] => [] | _ :: _ => [t] end.

(** A time the formatter handles exactly: a non-negative double below
    [2^53]. *)
Definition in_range (x : float) : Prop :=
  valid x /\ finite_nonneg x /\ (F2Q x < inject_Z (2 ^ 53))%Q.

(** One block of an SRT file: the number, the timing line, the text and
    an empty line. *)
Definition srt_block (k : Z) (a b text : str) : str :=
  (str_of_int k ++ [newline]) ++ (a ++ " --> " ++ b ++ [newline])
  ++ (text ++ [newline; newline]).

(** The blocks of the entries, numbered from [k]. *)
Fixpoint srt_blocks (k : Z) (entries : list (str * str * str)) : str :=
  match entries with
  | [] => []
  | (a, b, text) :: rest => srt_block k a b text ++ srt_blocks (k + 1) rest
  end.

(** The entry of a cue: its two timestamps and its text. *)
Definition formats_as (c : subtitle) (e : str * str * str) : Prop :=
  seconds_to_timestamp (fst (fst c)) = Ok (fst (fst e))
  /\ seconds_to_timestamp (snd (fst c)) = Ok (snd (fst e))
  /\ snd e = snd c.

(** A decimal digit. *)
Definition is_digit (c : char) : bool := ((48 <=? c) && (c <=? 57))%N.

(** A non-empty string without blanks, as [re.findall(r"\S+", s)] returns
    them. *)
Definition solid (t : str) : bool :=
  truthy t && forallb (fun c => negb (isspace c)) t.

(** A log entry that adopted a token. *)
Definition adopted (e : option nat) : bool :=
  match e with Some _ => true | None => false end.

(** The shape [HH:MM:SS,mmm]: twelve characters, digits but for the two
    colons and the comma. *)
Definition stamp_shape (s : str) : bool :=
  match s with
  | [h1; h2; c1; m1; m2; c2; s1; s2; c3; d1; d2; d3] =>
      forallb is_digit [h1; h2; m1; m2; s1; s2; d1; d2; d3]
      && char_eqb c1 ":"%char && char_eqb c2 ":"%char
      && char_eqb c3 ","%char
  | _ => false
  end.

(** A string of exactly [n] decimal digits. *)
Definition digit_string (n : nat) (s : str) : bool :=
  Nat.eqb (List.length s) n && forallb is_digit s.

End FurtherNotions.

Section StringsAndParser.

Context {U : Unicode}.

(* ================================================================== *)
(** * Part III.  Lemmas and theorems                                   *)
(* ================================================================== *)

(** ** Strings *)

Lemma char_eqb_eq (a b : char) : char_eqb a b = true <-> a = b.
Proof. apply N.eqb_eq. Qed.

Lemma char_eqb_refl (a : char) : char_eqb a a = true.
Proof. apply N.eqb_refl. Qed.

Lemma startswith_app (p s : str) :
  startswith p s = true -> exists t, s = p ++ t.
Proof.
  revert s; induction p as [|a p IH]; intros s H.
  - exists s; reflexivity.
  - destruct s as [|b s]; simpl in H; [discriminate|].
    apply andb_prop in H; destruct H as [Hab Hps].
    apply char_eqb_eq in Hab; subst b.
    destruct (IH _ Hps) as [t ->]; exists t; reflexivity.
Qed.

Lemma split_length_In (sep : char) (s : str) :
  In sep s -> (2 <= List.length (split sep s))%nat.
Proof.
  induction s as [|c s IH]; intros Hin; [destruct Hin|].
  simpl; destruct (char_eqb c sep) eqn:E.
  - simpl. destruct (split sep s) eqn:Es; simpl; [|lia].
    destruct s as [|a s0]; simpl in Es; [discriminate|].
    destruct (char_eqb a sep); [discriminate|].
    destruct (split sep s0); discriminate.
  - destruct Hin as [->|Hin]; [rewrite char_eqb_refl in E; discriminate|].
    specialize (IH Hin).
    destruct (split sep s); simpl in *; lia.
Qed.

Lemma split1_length_In (sep : char) (s : str) :
  In sep s -> (2 <= List.length (split1 sep s))%nat.
Proof.
  induction s as [|c s IH]; intros Hin; [destruct Hin|].
  simpl; destruct (char_eqb c sep) eqn:E; [simpl; lia|].
  destruct Hin as [->|Hin]; [rewrite char_eqb_refl in E; discriminate|].
  specialize (IH Hin).
  destruct (split1 sep s); simpl in *; lia.
Qed.

Lemma getitem_nth {A : Type} (l : list A) (i : nat) (d : A) :
  (i < List.length l)%nat -> getitem l i = Ok (nth i l d).
Proof.
  intros H; unfold getitem.
  destruct (nth_error l i) eqn:E.
  - rewrite (nth_error_nth _ _ d E); reflexivity.
  - apply nth_error_None in E; lia.
Qed.

(** A declaration line has a second field: indexing the split cannot fail. *)
Lemma declaration_has_field (kw line : str) :
  In (code "=") kw -> startswith kw line = true ->
  getitem (split "="%char line) 1 = Ok (nth 1 (split "="%char line) [])
  /\ getitem (split1 "="%char line) 1 = Ok (nth 1 (split1 "="%char line) []).
Proof.
  intros Hkw Hsw.
  destruct (startswith_app _ _ Hsw) as [t ->].
  assert (Hin : In (code "=") (kw ++ t)) by (apply in_or_app; left; exact Hkw).
  split; apply getitem_nth.
  - apply split_length_In in Hin; lia.
  - apply split1_length_In in Hin; lia.
Qed.

(** The four declaration keywords exclude one another. *)
Lemma keywords_exclusive (raw : str) :
  (is_name_line raw = true ->
     is_xmin_line raw = false /\ is_xmax_line raw = false
     /\ is_text_line raw = false)
  /\ (is_xmin_line raw = true ->
        is_xmax_line raw = false /\ is_text_line raw = false)
  /\ (is_xmax_line raw = true -> is_text_line raw = false).
Proof.
  unfold is_name_line, is_xmin_line, is_xmax_line, is_text_line.
  split; [|split]; intros H; destruct (startswith_app _ _ H) as [t Ht];
    rewrite Ht; repeat split; reflexivity.
Qed.

(** ** The document read by position: how one more line extends it *)

Lemma tier_flag_snoc (p : list str) (l : str) :
  tier_flag (p ++ [l]) = if is_name_line l then names_words l else tier_flag p.
Proof.
  unfold tier_flag. rewrite rev_app_distr. simpl.
  destruct (is_name_line l); reflexivity.
Qed.

Lemma in_words_app (p q : list str) (i : nat) :
  (i <= List.length p)%nat -> in_words (p ++ q) i = in_words p i.
Proof.
  intros H; unfold in_words.
  rewrite firstn_app.
  replace (i - List.length p)%nat with 0%nat by lia.
  simpl; rewrite app_nil_r; reflexivity.
Qed.

Lemma in_words_end (p : list str) :
  in_words p (List.length p) = tier_flag p.
Proof. unfold in_words; rewrite firstn_all; reflexivity. Qed.

Lemma emits_app (p q : list str) (i : nat) :
  (i < List.length p)%nat -> emits (p ++ q) i = emits p i.
Proof.
  intros H; unfold emits.
  rewrite in_words_app by lia. rewrite app_nth1 by lia. reflexivity.
Qed.

Lemma emits_snoc (p : list str) (l : str) :
  emits (p ++ [l]) (List.length p) = tier_flag p && is_text_line l.
Proof.
  unfold emits. rewrite in_words_app by lia. rewrite in_words_end.
  rewrite app_nth2 by lia. rewrite Nat.sub_diag. reflexivity.
Qed.

Lemma filter_seq_ext (f g : nat -> bool) (a n : nat) :
  (forall i, (a <= i < a + n)%nat -> f i = g i) ->
  filter f (seq a n) = filter g (seq a n).
Proof.
  intros H; apply filter_ext_in; intros i Hi.
  apply in_seq in Hi; apply H; exact Hi.
Qed.

Lemma emitting_prefix_app (p q : list str) (i : nat) :
  (i <= List.length p)%nat ->
  filter (emits (p ++ q)) (seq 0 i) = filter (emits p) (seq 0 i).
Proof.
  intros H; apply filter_seq_ext; intros j Hj; apply emits_app; lia.
Qed.

Lemma emitting_lines_snoc (p : list str) (l : str) :
  emitting_lines (p ++ [l])
  = emitting_lines p
    ++ (if tier_flag p && is_text_line l then [List.length p] else []).
Proof.
  unfold emitting_lines.
  rewrite length_app; simpl. rewrite seq_app, filter_app. simpl.
  rewrite emitting_prefix_app by lia.
  rewrite emits_snoc.
  destruct (tier_flag p && is_text_line l); reflexivity.
Qed.

Lemma segment_start_app (p q : list str) (i : nat) :
  (i <= List.length p)%nat -> segment_start (p ++ q) i = segment_start p i.
Proof.
  intros H; unfold segment_start.
  rewrite emitting_prefix_app by lia; reflexivity.
Qed.

Lemma segment_start_le (lines : list str) (i : nat) :
  (segment_start lines i <= i)%nat.
Proof.
  unfold segment_start.
  destruct (rev (filter (emits lines) (seq 0 i))) as [|k ks] eqn:E; [lia|].
  assert (Hin : In k (filter (emits lines) (seq 0 i))).
  { apply in_rev. rewrite E. left; reflexivity. }
  apply filter_In in Hin; destruct Hin as [Hin _].
  apply in_seq in Hin; lia.
Qed.

Lemma segment_start_snoc (p : list str) (l : str) :
  segment_start (p ++ [l]) (S (List.length p))
  = if tier_flag p && is_text_line l then S (List.length p)
    else segment_start p (List.length p).
Proof.
  unfold segment_start.
  replace (S (List.length p)) with (List.length p + 1)%nat at 1 by lia.
  rewrite seq_app, filter_app; simpl.
  rewrite emitting_prefix_app by lia.
  rewrite emits_snoc.
  destruct (tier_flag p && is_text_line l).
  - rewrite rev_app_distr; reflexivity.
  - rewrite app_nil_r; reflexivity.
Qed.

Lemma bound_lines_app (b : str -> bool) (p q : list str) (i : nat) :
  (i <= List.length p)%nat -> bound_lines b (p ++ q) i = bound_lines b p i.
Proof.
  intros H; unfold bound_lines.
  rewrite segment_start_app by lia.
  pose proof (segment_start_le p i) as Hle.
  apply filter_seq_ext; intros j Hj.
  rewrite in_words_app by lia. rewrite app_nth1 by lia. reflexivity.
Qed.

Lemma bound_lines_lt (b : str -> bool) (lines : list str) (i j : nat) :
  In j (bound_lines b lines i) -> (j < i)%nat.
Proof.
  unfold bound_lines; intros H.
  apply filter_In in H; destruct H as [H _].
  apply in_seq in H. pose proof (segment_start_le lines i). lia.
Qed.

Lemma bound_lines_snoc (b : str -> bool) (p : list str) (l : str) :
  bound_lines b (p ++ [l]) (S (List.length p))
  = if tier_flag p && is_text_line l then []
    else bound_lines b p (List.length p)
         ++ (if tier_flag p && b l then [List.length p] else []).
Proof.
  unfold bound_lines at 1.
  rewrite segment_start_snoc.
  destruct (tier_flag p && is_text_line l) eqn:E.
  - rewrite Nat.sub_diag; reflexivity.
  - pose proof (segment_start_le p (List.length p)) as Hle.
    set (s := segment_start p (List.length p)) in *.
    replace (S (List.length p) - s)%nat
      with ((List.length p - s) + 1)%nat by lia.
    rewrite seq_app, filter_app.
    replace (s + (List.length p - s))%nat with (List.length p) by lia.
    simpl.
    rewrite in_words_app by lia. rewrite in_words_end.
    rewrite app_nth2 by lia. rewrite Nat.sub_diag. simpl.
    f_equal.
    unfold bound_lines. fold s.
    apply filter_seq_ext; intros j Hj.
    rewrite in_words_app by lia. rewrite app_nth1 by lia. reflexivity.
Qed.

Section DocumentFacts.

Variable py_float : str -> option float.

Lemma bound_at_app (b : str -> bool) (p q : list str) (i : nat) :
  (i <= List.length p)%nat ->
  bound_at py_float b (p ++ q) i = bound_at py_float b p i.
Proof.
  intros H; unfold bound_at.
  rewrite bound_lines_app by lia.
  destruct (rev (bound_lines b p i)) as [|j js] eqn:E; [reflexivity|].
  assert (Hj : (j < i)%nat).
  { apply (bound_lines_lt b p). apply in_rev. rewrite E. left; reflexivity. }
  rewrite app_nth1 by lia; reflexivity.
Qed.

Lemma bound_at_snoc (b : str -> bool) (p : list str) (l : str) :
  bound_at py_float b (p ++ [l]) (S (List.length p))
  = if tier_flag p && is_text_line l then None
    else if tier_flag p && b l then py_float (second_field l)
    else bound_at py_float b p (List.length p).
Proof.
  unfold bound_at at 1. rewrite bound_lines_snoc.
  destruct (tier_flag p && is_text_line l); [reflexivity|].
  destruct (tier_flag p && b l).
  - rewrite rev_app_distr; simpl.
    rewrite app_nth2 by lia. rewrite Nat.sub_diag. reflexivity.
  - rewrite app_nil_r.
    unfold bound_at.
    destruct (rev (bound_lines b p (List.length p))) as [|j js] eqn:E;
      [reflexivity|].
    assert (Hj : (j < List.length p)%nat).
    { apply (bound_lines_lt b p). apply in_rev. rewrite E. left; reflexivity. }
    rewrite app_nth1 by lia; reflexivity.
Qed.

Lemma interval_at_app (p q : list str) (i : nat) :
  (i < List.length p)%nat ->
  interval_at py_float (p ++ q) i = interval_at py_float p i.
Proof.
  intros H; unfold interval_at.
  rewrite !bound_at_app by lia. rewrite app_nth1 by lia. reflexivity.
Qed.

Lemma interval_at_snoc (p : list str) (l : str) :
  interval_at py_float (p ++ [l]) (List.length p)
  = mkInterval (bound_at py_float is_xmin_line p (List.length p))
               (bound_at py_float is_xmax_line p (List.length p))
               (Some (text_value l)).
Proof.
  unfold interval_at.
  rewrite !bound_at_app by lia.
  rewrite app_nth2 by lia. rewrite Nat.sub_diag. reflexivity.
Qed.

Lemma emitting_lines_lt (lines : list str) (i : nat) :
  In i (emitting_lines lines) -> (i < List.length lines)%nat.
Proof.
  unfold emitting_lines; intros H.
  apply filter_In in H; destruct H as [H _]; apply in_seq in H; lia.
Qed.

Lemma document_intervals_snoc (p : list str) (l : str) :
  document_intervals py_float (p ++ [l])
  = document_intervals py_float p
    ++ (if tier_flag p && is_text_line l
        then [mkInterval (bound_at py_float is_xmin_line p (List.length p))
                         (bound_at py_float is_xmax_line p (List.length p))
                         (Some (text_value l))]
        else []).
Proof.
  unfold document_intervals.
  rewrite emitting_lines_snoc, map_app.
  f_equal.
  - apply map_ext_in; intros i Hi.
    apply interval_at_app. apply emitting_lines_lt; exact Hi.
  - destruct (tier_flag p && is_text_line l); [|reflexivity].
    simpl; rewrite interval_at_snoc; reflexivity.
Qed.

Lemma malformed_at_app (p q : list str) (i : nat) :
  (i < List.length p)%nat ->
  malformed_at py_float (p ++ q) i = malformed_at py_float p i.
Proof.
  intros H; unfold malformed_at.
  rewrite in_words_app by lia. rewrite app_nth1 by lia. reflexivity.
Qed.

Lemma malformed_at_snoc (p : list str) (l : str) :
  malformed_at py_float (p ++ [l]) (List.length p)
  = tier_flag p && (is_xmin_line l || is_xmax_line l)
    && match py_float (second_field l) with Some _ => false | None => true end.
Proof.
  unfold malformed_at.
  rewrite in_words_app by lia. rewrite in_words_end.
  rewrite app_nth2 by lia. rewrite Nat.sub_diag. reflexivity.
Qed.

End DocumentFacts.

(** ** [parse_textgrid] against the document read by position *)

Section ParserFacts.

Variable py_float : str -> option float.

Lemma parse_inv_init : parse_inv py_float [] (mkParse [] empty_dict false).
Proof. constructor; reflexivity. Qed.

(** One iteration, by kind of line. *)
Lemma parse_line_name (st : parse_state) (raw : str) :
  is_name_line raw = true ->
  parse_line py_float st raw
  = Ok (mkParse (intervals st) (current_interval st) (names_words raw)).
Proof.
  intros H. unfold parse_line. unfold is_name_line in H. rewrite H.
  destruct (declaration_has_field "name =" (strip raw)) as [E _];
    [simpl; tauto | exact H |].
  rewrite E. reflexivity.
Qed.

Lemma parse_line_bound (st : parse_state) (raw : str) :
  is_name_line raw = false -> in_words_tier st = true ->
  is_xmin_line raw || is_xmax_line raw = true ->
  parse_line py_float st raw
  = match py_float (second_field raw) with
    | None => Raise ValueError
    | Some v =>
        Ok (mkParse (intervals st)
                    (if is_xmin_line raw
                     then set_xmin v (current_interval st)
                     else set_xmax v (current_interval st))
                    true)
    end.
Proof.
  intros Hn Hw Hb. unfold parse_line.
  unfold is_name_line in Hn. rewrite Hn, Hw. rewrite !andb_true_l.
  unfold second_field, float_of_str.
  destruct (is_xmin_line raw) eqn:Hx; unfold is_xmin_line in Hx; rewrite Hx.
  - destruct (declaration_has_field "xmin =" (strip raw)) as [E _];
      [simpl; tauto | exact Hx |].
    rewrite E. unfold bind.
    destruct (py_float _); reflexivity.
  - rewrite orb_false_l in Hb. unfold is_xmax_line in Hb. rewrite Hb.
    destruct (declaration_has_field "xmax =" (strip raw)) as [E _];
      [simpl; tauto | exact Hb |].
    rewrite E. unfold bind.
    destruct (py_float _); reflexivity.
Qed.

Lemma parse_line_text (st : parse_state) (raw : str) :
  in_words_tier st = true -> is_text_line raw = true ->
  parse_line py_float st raw
  = Ok (mkParse (intervals st ++ [set_text (text_value raw)
                                            (current_interval st)])
                empty_dict true).
Proof.
  intros Hw Ht. unfold parse_line. rewrite Hw. rewrite !andb_true_l.
  destruct (keywords_exclusive raw) as (Hn & Hx & Hy).
  destruct (is_name_line raw) eqn:En;
    [destruct (Hn eq_refl) as (_ & _ & F); congruence|].
  destruct (is_xmin_line raw) eqn:Ex;
    [destruct (Hx eq_refl) as (_ & F); congruence|].
  destruct (is_xmax_line raw) eqn:Ey; [specialize (Hy eq_refl); congruence|].
  unfold is_name_line in En; unfold is_xmin_line in Ex;
    unfold is_xmax_line in Ey; unfold is_text_line in Ht.
  rewrite En, Ex, Ey, Ht.
  destruct (declaration_has_field "text =" (strip raw)) as [_ E];
    [simpl; tauto | exact Ht |].
  rewrite E. reflexivity.
Qed.

Lemma parse_line_other (st : parse_state) (raw : str) :
  is_name_line raw = false ->
  in_words_tier st
  && (is_xmin_line raw || is_xmax_line raw || is_text_line raw) = false ->
  parse_line py_float st raw = Ok st.
Proof.
  intros Hn H. unfold parse_line.
  unfold is_name_line in Hn. rewrite Hn.
  unfold is_xmin_line, is_xmax_line, is_text_line in H.
  destruct (in_words_tier st); [|reflexivity].
  rewrite andb_true_l in H. rewrite !andb_true_l.
  apply orb_false_iff in H; destruct H as [H Ht].
  apply orb_false_iff in H; destruct H as [Hx Hy].
  rewrite Hx, Hy, Ht. reflexivity.
Qed.

(** The iteration on line [l] after the lines [p]: it raises [ValueError]
    exactly on a malformed bound line, and otherwise carries the invariant
    one line further. *)
Lemma parse_line_inv (p : list str) (st : parse_state) (l : str) :
  parse_inv py_float p st ->
  if malformed_at py_float (p ++ [l]) (List.length p)
  then parse_line py_float st l = Raise ValueError
  else exists st', parse_line py_float st l = Ok st'
                   /\ parse_inv py_float (p ++ [l]) st'.
Proof.
  intros [Hi Hf Hx Hy Ht].
  rewrite malformed_at_snoc.
  destruct (keywords_exclusive l) as (Kn & Kx & Ky).
  destruct (is_name_line l) eqn:En.
  - (* tier-name declaration *)
    destruct (Kn eq_refl) as (Ex & Ey & Et).
    rewrite Ex, Ey. simpl. rewrite andb_false_r. simpl.
    eexists; split; [apply parse_line_name; exact En|].
    constructor; simpl.
    + rewrite document_intervals_snoc, Et, andb_false_r, app_nil_r. exact Hi.
    + rewrite tier_flag_snoc, En. reflexivity.
    + rewrite length_app; simpl. rewrite Nat.add_1_r.
      rewrite bound_at_snoc, Et, Ex, !andb_false_r. exact Hx.
    + rewrite length_app; simpl. rewrite Nat.add_1_r.
      rewrite bound_at_snoc, Et, Ey, !andb_false_r. exact Hy.
    + exact Ht.
  - destruct (tier_flag p) eqn:Ef; simpl.
    2:{ (* outside the words tier *)
      eexists; split.
      - apply parse_line_other; [exact En|]. rewrite Hf. reflexivity.
      - constructor; simpl.
        + rewrite document_intervals_snoc, Ef. simpl.
          rewrite app_nil_r. exact Hi.
        + rewrite tier_flag_snoc, En. congruence.
        + rewrite length_app; simpl. rewrite Nat.add_1_r.
          rewrite bound_at_snoc, Ef. simpl. exact Hx.
        + rewrite length_app; simpl. rewrite Nat.add_1_r.
          rewrite bound_at_snoc, Ef. simpl. exact Hy.
        + exact Ht. }
    destruct (is_xmin_line l || is_xmax_line l) eqn:Eb; simpl.
    + (* a bound line of the words tier *)
      rewrite (parse_line_bound st l En Hf Eb).
      assert (Et : is_text_line l = false).
      { destruct (is_xmin_line l) eqn:Ex.
        - destruct (Kx eq_refl) as [_ E]; exact E.
        - simpl in Eb. exact (Ky Eb). }
      destruct (py_float (second_field l)) as [v|] eqn:Ev; [|reflexivity].
      eexists; split; [reflexivity|].
      constructor; simpl.
      * rewrite document_intervals_snoc, Et, andb_false_r, app_nil_r. exact Hi.
      * rewrite tier_flag_snoc, En. congruence.
      * rewrite length_app; simpl. rewrite Nat.add_1_r.
        rewrite bound_at_snoc, Et, Ef. simpl.
        destruct (is_xmin_line l); simpl; [symmetry; exact Ev | exact Hx].
      * rewrite length_app; simpl. rewrite Nat.add_1_r.
        rewrite bound_at_snoc, Et, Ef. simpl.
        destruct (is_xmin_line l) eqn:Ex; simpl.
        -- destruct (Kx eq_refl) as [E _]; rewrite E. exact Hy.
        -- simpl in Eb. rewrite Eb. symmetry; exact Ev.
      * destruct (is_xmin_line l); simpl; exact Ht.
    + apply orb_false_iff in Eb; destruct Eb as [Ex Ey].
      destruct (is_text_line l) eqn:Et.
      * (* a text line of the words tier *)
        eexists; split; [apply parse_line_text; assumption|].
        constructor; simpl.
        -- rewrite document_intervals_snoc, Et, Ef. simpl.
           rewrite Hi. f_equal. unfold set_text. rewrite Hx, Hy. reflexivity.
        -- rewrite tier_flag_snoc, En. congruence.
        -- rewrite length_app; simpl. rewrite Nat.add_1_r.
           rewrite bound_at_snoc, Et, Ef. reflexivity.
        -- rewrite length_app; simpl. rewrite Nat.add_1_r.
           rewrite bound_at_snoc, Et, Ef. reflexivity.
        -- reflexivity.
      * (* any other line *)
        eexists; split.
        -- apply parse_line_other; [exact En|].
           rewrite Ex, Ey, Et, andb_false_r. reflexivity.
        -- constructor; simpl.
           ++ rewrite document_intervals_snoc, Et, andb_false_r, app_nil_r.
              exact Hi.
           ++ rewrite tier_flag_snoc, En. congruence.
           ++ rewrite length_app; simpl. rewrite Nat.add_1_r.
              rewrite bound_at_snoc, Et, Ex, !andb_false_r. exact Hx.
           ++ rewrite length_app; simpl. rewrite Nat.add_1_r.
              rewrite bound_at_snoc, Et, Ey, !andb_false_r. exact Hy.
           ++ exact Ht.
Qed.

(** The whole loop from the state reached after [p]. *)
Lemma parse_lines_inv (rest p : list str) (st : parse_state) :
  parse_inv py_float p st ->
  (existsb (malformed_at py_float (p ++ rest))
           (seq (List.length p) (List.length rest)) = true
   /\ parse_lines py_float rest st = Raise ValueError)
  \/ (existsb (malformed_at py_float (p ++ rest))
              (seq (List.length p) (List.length rest)) = false
      /\ exists st', parse_lines py_float rest st = Ok st'
                     /\ parse_inv py_float (p ++ rest) st').
Proof.
  revert p st; induction rest as [|l rest IH]; intros p st Hinv.
  - right; split; [reflexivity|].
    exists st; split; [reflexivity|]. rewrite app_nil_r; exact Hinv.
  - pose proof (parse_line_inv p st l Hinv) as Hstep.
    assert (Hloc : malformed_at py_float (p ++ l :: rest) (List.length p)
                   = malformed_at py_float (p ++ [l]) (List.length p)).
    { change (l :: rest) with ([l] ++ rest). rewrite app_assoc.
      apply malformed_at_app. rewrite length_app; simpl; lia. }
    simpl. rewrite Hloc.
    destruct (malformed_at py_float (p ++ [l]) (List.length p)).
    + left; split; [reflexivity|]. rewrite Hstep; reflexivity.
    + destruct Hstep as (st' & Est & Hinv').
      rewrite Est; simpl.
      specialize (IH (p ++ [l]) st' Hinv').
      rewrite <- app_assoc in IH; simpl in IH.
      rewrite length_app in IH; simpl in IH. rewrite Nat.add_1_r in IH.
      exact IH.
Qed.

(** The parser, as a function of the document alone. *)
Lemma parse_textgrid_document (fs : filesystem) (file_path : str) :
  parse_textgrid py_float fs file_path
  = match fs file_path with
    | Unopenable e => Raise e
    | Readable lines ending =>
        if existsb (malformed_at py_float lines) (seq 0 (List.length lines))
        then Raise ValueError
        else match ending with
             | Some e => Raise e
             | None => Ok (document_intervals py_float lines)
             end
    end.
Proof.
  unfold parse_textgrid.
  destruct (fs file_path) as [e|lines ending]; [reflexivity|].
  destruct (parse_lines_inv lines [] _ parse_inv_init)
    as [[E R] | [E (st' & R & Hinv)]]; simpl in E, R; rewrite E, R.
  - reflexivity.
  - simpl. rewrite (inv_intervals py_float _ _ Hinv). reflexivity.
Qed.

End ParserFacts.

End StringsAndParser.

Section ParserResults.

Context {U : Unicode}.

(** ** The tier flag and the emitting lines, spelled out *)

Lemma tier_flag_true_iff (before : list str) :
  tier_flag before = true <->
  exists p decl q,
    before = p ++ decl :: q
    /\ is_name_line decl = true /\ names_words decl = true
    /\ Forall (fun l => is_name_line l = false) q.
Proof.
  induction before as [|l b IH] using rev_ind.
  - split; [discriminate|].
    intros (p & decl & q & E & _). destruct p; discriminate.
  - rewrite tier_flag_snoc. split.
    + destruct (is_name_line l) eqn:En.
      * intros Hw. exists b, l, []. repeat split; auto.
      * intros Hf. apply IH in Hf.
        destruct Hf as (p & decl & q & -> & Hn & Hw & Hq).
        exists p, decl, (q ++ [l]). rewrite <- app_assoc. simpl.
        repeat split; auto.
        apply Forall_app; split; [exact Hq|]. constructor; auto.
    + intros (p & decl & q & E & Hn & Hw & Hq).
      destruct q as [|l' q'] using rev_ind.
      * apply app_inj_tail in E. destruct E as [_ ->]. rewrite Hn; exact Hw.
      * clear IHq'.
        change (p ++ decl :: q' ++ [l']) with (p ++ (decl :: q') ++ [l']) in E.
        rewrite app_assoc in E.
        apply app_inj_tail in E. destruct E as [-> ->].
        apply Forall_app in Hq. destruct Hq as [Hq Hl].
        inversion Hl; subst. rewrite H1.
        apply IH. exists p, decl, q'. repeat split; auto.
Qed.

Lemma sorted_seq (a n : nat) : StronglySorted lt (seq a n).
Proof.
  revert a; induction n as [|n IH]; intros a; simpl; constructor.
  - apply IH.
  - apply Forall_forall; intros x Hx. apply in_seq in Hx; lia.
Qed.

Lemma sorted_filter (f : nat -> bool) (l : list nat) :
  StronglySorted lt l -> StronglySorted lt (filter f l).
Proof.
  induction 1 as [|a l Hs IH Ha]; simpl; [constructor|].
  destruct (f a); [|exact IH].
  constructor; [exact IH|].
  apply Forall_forall; intros x Hx. apply filter_In in Hx.
  rewrite Forall_forall in Ha. apply Ha. tauto.
Qed.

Lemma emitting_lines_sorted (lines : list str) :
  StronglySorted lt (emitting_lines lines).
Proof. apply sorted_filter, sorted_seq. Qed.

Lemma emitting_lines_iff (lines : list str) (i : nat) :
  In i (emitting_lines lines) <->
  (i < List.length lines)%nat
  /\ is_text_line (nth i lines []) = true
  /\ tier_flag (firstn i lines) = true.
Proof.
  unfold emitting_lines, emits, in_words.
  rewrite filter_In, in_seq, andb_true_iff. split.
  - intros [H1 [H2 H3]]. repeat split; auto; lia.
  - intros [H1 [H2 H3]]. repeat split; auto; lia.
Qed.

(** No tier-name declaration names [words]: the flag is never set. *)
Lemma tier_flag_never (lines : list str) (i : nat) :
  Forall (fun l => is_name_line l = true -> names_words l = false) lines ->
  in_words lines i = false.
Proof.
  intros H. unfold in_words.
  destruct (tier_flag (firstn i lines)) eqn:E; [|reflexivity].
  apply tier_flag_true_iff in E.
  destruct E as (p & decl & q & E & Hn & Hw & _).
  rewrite Forall_forall in H.
  assert (Hin : In decl lines).
  { rewrite <- (firstn_skipn i lines), E.
    apply in_or_app; left. apply in_or_app; right. left; reflexivity. }
  rewrite (H decl Hin Hn) in Hw. discriminate.
Qed.

Section ParserTheorems.

Variable py_float : str -> option float.

(** C6.  When [parse_textgrid] returns, its result lists, in document
    order, one interval for every text line that lies in the words tier and
    for no other line: a line lies in the words tier when the most recent
    tier-name declaration before it names [words], in any letter case (so
    the flag is decided anew at every tier-name declaration).  Each interval
    carries the label of its text line and the bounds collected for it. *)
Theorem parse_textgrid_words_tier (fs : filesystem) (file_path : str)
    (ivs : list interval) :
  parse_textgrid py_float fs file_path = Ok ivs ->
  exists lines,
    fs file_path = Readable lines None
    /\ ivs = map (interval_at py_float lines) (emitting_lines lines)
    /\ StronglySorted lt (emitting_lines lines)
    /\ (forall i, In i (emitting_lines lines) <->
          (i < List.length lines)%nat
          /\ is_text_line (nth i lines []) = true
          /\ exists p decl q,
               firstn i lines = p ++ decl :: q
               /\ is_name_line decl = true
               /\ str_eqb (lower (strip_quotes (second_field decl))) "words"
                  = true
               /\ Forall (fun l => is_name_line l = false) q).
Proof.
  rewrite parse_textgrid_document.
  destruct (fs file_path) as [e|lines ending]; [discriminate|].
  destruct (existsb _ _); [discriminate|].
  destruct ending as [e|]; [discriminate|].
  intros H; injection H as <-.
  exists lines. split; [reflexivity|]. split; [reflexivity|].
  split; [apply emitting_lines_sorted|].
  intros i. rewrite emitting_lines_iff, tier_flag_true_iff. reflexivity.
Qed.

(** C7 (amended).  [parse_textgrid] raises the exception of [open] when
    the file cannot be opened, which is [FileNotFoundError] when the path
    does not exist.  On a file that is opened it raises [ValueError] as
    soon as some [xmin] or [xmax] line lying in the words tier carries a
    field that [float] rejects, and for no other line: bound lines outside
    the words tier are not parsed.  When there is no such line, it raises
    what the iteration over the file raises, if anything (a decoding
    error), and otherwise returns the intervals of the document; a document
    in which no tier-name declaration names [words] yields the empty list,
    whatever its bound lines hold.  It fails in no other case. *)
Theorem parse_textgrid_failures (fs : filesystem) (file_path : str) :
  (forall e, fs file_path = Unopenable e ->
     parse_textgrid py_float fs file_path = Raise e)
  /\ (forall lines ending, fs file_path = Readable lines ending ->
        ((exists i, (i < List.length lines)%nat
                    /\ malformed_at py_float lines i = true) ->
         parse_textgrid py_float fs file_path = Raise ValueError)
        /\ ((forall i, (i < List.length lines)%nat ->
                       malformed_at py_float lines i = false) ->
            parse_textgrid py_float fs file_path
            = match ending with
              | Some e => Raise e
              | None => Ok (document_intervals py_float lines)
              end)
        /\ (Forall (fun l => is_name_line l = true -> names_words l = false)
                   lines ->
            (forall i, malformed_at py_float lines i = false)
            /\ document_intervals py_float lines = []))
  /\ (forall e, parse_textgrid py_float fs file_path = Raise e ->
        fs file_path = Unopenable e
        \/ exists lines ending,
             fs file_path = Readable lines ending
             /\ ((e = ValueError
                  /\ exists i, (i < List.length lines)%nat
                               /\ malformed_at py_float lines i = true)
                 \/ ((forall i, (i < List.length lines)%nat ->
                                malformed_at py_float lines i = false)
                     /\ ending = Some e))).
Proof.
  rewrite parse_textgrid_document.
  assert (Hex : forall lines,
            existsb (malformed_at py_float lines) (seq 0 (List.length lines))
            = true
            <-> exists i, (i < List.length lines)%nat
                          /\ malformed_at py_float lines i = true).
  { intros lines. rewrite existsb_exists. split.
    - intros (i & Hi & Hm). apply in_seq in Hi. exists i. split; [lia|exact Hm].
    - intros (i & Hi & Hm). exists i. split; [apply in_seq; lia | exact Hm]. }
  assert (Hnone : forall lines,
            existsb (malformed_at py_float lines) (seq 0 (List.length lines))
            = false
            <-> forall i, (i < List.length lines)%nat ->
                          malformed_at py_float lines i = false).
  { intros lines. split.
    - intros E i Hi.
      destruct (malformed_at py_float lines i) eqn:Hm; [|reflexivity].
      assert (Ht : existsb (malformed_at py_float lines)
                           (seq 0 (List.length lines)) = true)
        by (apply Hex; exists i; auto).
      congruence.
    - intros H.
      destruct (existsb (malformed_at py_float lines)
                        (seq 0 (List.length lines))) eqn:E; [|reflexivity].
      apply Hex in E. destruct E as (i & Hi & Hm).
      rewrite (H i Hi) in Hm. discriminate. }
  destruct (fs file_path) as [e0|lines ending].
  - split; [intros e [= <-]; reflexivity|].
    split; [discriminate|].
    intros e [= <-]. left. reflexivity.
  - split; [discriminate|]. split.
    + intros ? ? [= <- <-]. split; [|split].
      * intros H. apply Hex in H. rewrite H. reflexivity.
      * intros H. apply Hnone in H. rewrite H. reflexivity.
      * intros Hno. split.
        -- intros i. unfold malformed_at.
           rewrite (tier_flag_never lines i Hno). reflexivity.
        -- unfold document_intervals.
           replace (emitting_lines lines) with (@nil nat); [reflexivity|].
           symmetry. unfold emitting_lines.
           destruct (filter (emits lines) (seq 0 (List.length lines)))
             as [|i l] eqn:F; [reflexivity|].
           assert (Hin : In i (filter (emits lines)
                                      (seq 0 (List.length lines))))
             by (rewrite F; left; reflexivity).
           apply filter_In in Hin. destruct Hin as [_ Hin].
           unfold emits in Hin.
           rewrite (tier_flag_never lines i Hno) in Hin. discriminate.
    + intros e He. right. exists lines, ending. split; [reflexivity|].
      destruct (existsb (malformed_at py_float lines)
                        (seq 0 (List.length lines))) eqn:E.
      * injection He as <-. left. split; [reflexivity|].
        apply Hex. exact E.
      * right. split; [apply Hnone; exact E|].
        destruct ending as [e1|]; [|discriminate].
        injection He as <-. reflexivity.
Qed.

End ParserTheorems.

End ParserResults.

Section ParserExamples.

#[local] Existing Instance ascii_unicode.

Lemma parse_textgrid_words_tier_witness :
  parse_textgrid decimal_float sample_fs sample_path = Ok sample_intervals
  /\ emitting_lines sample_document = [8; 12]%nat
  /\ sample_intervals
     = map (interval_at decimal_float sample_document) [8; 12]%nat.
Proof.
  assert (H : parse_textgrid decimal_float sample_fs sample_path
              = Ok sample_intervals) by (vm_compute; reflexivity).
  split; [exact H|].
  destruct (parse_textgrid_words_tier decimal_float sample_fs sample_path
              sample_intervals H) as (lines & E & Hmap & _).
  injection E as <-.
  assert (He : emitting_lines sample_document = [8; 12]%nat)
    by (vm_compute; reflexivity).
  rewrite He in Hmap. split; [exact He | exact Hmap].
Defined.

(** C7 as stated fails twice.  A bound line outside the words tier whose
    field [float] rejects is not parsed, and the parser returns without
    failing; and a file that exists but is not UTF-8 makes the parser fail
    with the decoder's exception, a case the claim does not list. *)
Lemma unparsed_bound_counterexample :
  decimal_float "abc" = None
  /\ parse_textgrid decimal_float
       (fun _ => Readable [with_quoted "name = " "phones"; plain "xmin = abc";
                           with_quoted "text = " "x"] None)
       sample_path
     = Ok []
  /\ parse_textgrid decimal_float
       (fun _ => Readable [with_quoted "name = " "words"]
                          (Some UnicodeDecodeError))
       sample_path
     = Raise UnicodeDecodeError.
Proof. repeat split; vm_compute; reflexivity. Qed.

End ParserExamples.

Section ReinjectFacts.

Context {U : Unicode}.

(** ** [reinject_case_and_characters] *)

Lemma str_eqb_eq (a b : str) : str_eqb a b = true <-> a = b.
Proof.
  revert b; induction a as [|x a IH]; intros [|y b]; simpl;
    try (split; [discriminate | discriminate]); [tauto|].
  rewrite andb_true_iff, char_eqb_eq, IH.
  split; [intros [-> ->]; reflexivity | intros [= -> ->]; auto].
Qed.

Lemma str_eqb_neq (a b : str) : str_eqb a b = false <-> a <> b.
Proof.
  destruct (str_eqb a b) eqn:E.
  - apply str_eqb_eq in E. split; [discriminate | intros H; contradiction].
  - split; [|reflexivity]. intros _ H. apply str_eqb_eq in H. congruence.
Qed.

(** The inner loop either stops just past the first matching candidate or
    runs to the end of the transcript. *)
Lemma scan_spec (rest : list str) (idx : nat) (word : str) :
  (exists pre c post,
     rest = pre ++ c :: post
     /\ Forall (fun u => clean u <> clean word) pre
     /\ clean c = clean word
     /\ scan rest idx word = (S (idx + List.length pre), Some c))
  \/ (Forall (fun u => clean u <> clean word) rest
      /\ scan rest idx word = ((idx + List.length rest)%nat, None)).
Proof.
  revert idx; induction rest as [|c rest IH]; intros idx.
  - right. split; [constructor|]. simpl. f_equal. lia.
  - simpl. destruct (str_eqb (clean c) (clean word)) eqn:E.
    + left. exists [], c, rest. apply str_eqb_eq in E.
      repeat split; auto. simpl. do 2 f_equal. lia.
    + apply str_eqb_neq in E.
      destruct (IH (S idx)) as [(pre & c' & post & -> & Hpre & Hc & Hs)
                               | (Hall & Hs)].
      * left. exists (c :: pre), c', post.
        repeat split; auto. rewrite Hs. simpl. do 2 f_equal. lia.
      * right. split; [constructor; auto|]. rewrite Hs. simpl. f_equal. lia.
Qed.

(** The same, by index in the transcript. *)
Lemma scan_from_cursor (tokens : list str) (idx : nat) (word : str) :
  (idx <= List.length tokens)%nat ->
  (exists i t,
     (idx <= i)%nat /\ nth_error tokens i = Some t
     /\ clean t = clean word
     /\ (forall j u, (idx <= j < i)%nat -> nth_error tokens j = Some u ->
                     clean u <> clean word)
     /\ scan (skipn idx tokens) idx word = (S i, Some t))
  \/ ((forall j u, (idx <= j)%nat -> nth_error tokens j = Some u ->
                   clean u <> clean word)
      /\ scan (skipn idx tokens) idx word = (List.length tokens, None)).
Proof.
  intros Hle.
  destruct (scan_spec (skipn idx tokens) idx word)
    as [(pre & c & post & E & Hpre & Hc & Hs) | (Hall & Hs)].
  - left. exists (idx + List.length pre)%nat, c.
    assert (Hnth : forall k, nth_error tokens (idx + k)
                             = nth_error (pre ++ c :: post) k).
    { intros k. rewrite <- E. symmetry. apply nth_error_skipn. }
    repeat split; auto; [lia | |].
    + rewrite Hnth. rewrite nth_error_app2 by lia.
      rewrite Nat.sub_diag. reflexivity.
    + intros j u Hj Hu.
      replace j with (idx + (j - idx))%nat in Hu by lia.
      rewrite Hnth in Hu. rewrite nth_error_app1 in Hu by lia.
      rewrite Forall_forall in Hpre. apply Hpre.
      apply nth_error_In in Hu. exact Hu.
  - right. split.
    + intros j u Hj Hu.
      replace j with (idx + (j - idx))%nat in Hu by lia.
      rewrite <- nth_error_skipn in Hu.
      rewrite Forall_forall in Hall. apply Hall.
      apply nth_error_In in Hu. exact Hu.
    + rewrite Hs. f_equal. rewrite length_skipn. lia.
Qed.

(** A blank interval leaves the loop state as it is. *)
Lemma reinject_step_blank (tokens : list str) (st : reinject_state)
    (iv : interval) :
  nonblank iv = false -> reinject_step tokens st iv = st.
Proof.
  unfold nonblank, reinject_step. intros ->. reflexivity.
Qed.

(** A non-blank interval is appended, with the outcome of the scan. *)
Lemma reinject_step_nonblank (tokens : list str) (st : reinject_state)
    (iv : interval) :
  nonblank iv = true ->
  reinject_step tokens st iv
  = let r := scan (skipn (script_index st) tokens) (script_index st)
                  (get_text iv) in
    mkReinject
      (updated_intervals st
       ++ [match snd r with Some c => set_text c iv | None => iv end])
      (fst r)
      (matched_at st
       ++ [match snd r with Some _ => Some (pred (fst r)) | None => None end]).
Proof.
  unfold nonblank, reinject_step. intros ->. simpl.
  destruct (scan _ _ _) as [idx found]. reflexivity.
Qed.

(** One iteration on an interval with non-blank text met with the cursor
    within the transcript.  Strings are compared through [clean].  The
    first token at or after the cursor whose cleaned form equals the
    cleaned text is adopted as the new text and the cursor is left just
    past it; when no token from the cursor on qualifies, the interval is
    appended with its text unchanged and the cursor is left at the end of
    the transcript; and from the end of the transcript nothing is adopted
    any more. *)
Lemma reinject_step_matcher (tokens : list str) (st : reinject_state)
    (iv : interval) :
  nonblank iv = true ->
  (script_index st <= List.length tokens)%nat ->
  (forall i t,
     (script_index st <= i)%nat -> nth_error tokens i = Some t ->
     clean t = clean (get_text iv) ->
     (forall j u, (script_index st <= j < i)%nat ->
                  nth_error tokens j = Some u ->
                  clean u <> clean (get_text iv)) ->
     updated_intervals (reinject_step tokens st iv)
     = updated_intervals st ++ [set_text t iv]
     /\ script_index (reinject_step tokens st iv) = S i)
  /\ ((forall j u, (script_index st <= j)%nat ->
                   nth_error tokens j = Some u ->
                   clean u <> clean (get_text iv)) ->
      updated_intervals (reinject_step tokens st iv)
      = updated_intervals st ++ [iv]
      /\ script_index (reinject_step tokens st iv) = List.length tokens)
  /\ (script_index st = List.length tokens ->
      updated_intervals (reinject_step tokens st iv)
      = updated_intervals st ++ [iv]
      /\ script_index (reinject_step tokens st iv) = List.length tokens).
Proof.
  intros Hnb Hle.
  rewrite (reinject_step_nonblank tokens st iv Hnb). cbv zeta.
  destruct (scan_from_cursor tokens (script_index st) (get_text iv) Hle)
    as [(i0 & t0 & Hi0 & Ht0 & Hc0 & Hmin0 & Hs) | (Hnone & Hs)];
    rewrite Hs; simpl.
  - split; [|split].
    + intros i t Hi Ht Hc Hmin.
      assert (i = i0).
      { destruct (Nat.lt_trichotomy i i0) as [Hlt | [Heq | Hgt]]; auto.
        - exfalso. apply (Hmin0 i t); auto.
        - exfalso. apply (Hmin i0 t0); auto. }
      subst i0. rewrite Ht in Ht0. injection Ht0 as <-. auto.
    + intros Hnone. exfalso. apply (Hnone i0 t0); auto.
    + intros Hend. exfalso.
      assert (nth_error tokens i0 <> None) by congruence.
      apply nth_error_Some in H. lia.
  - split; [|split].
    + intros i t Hi Ht Hc _. exfalso. apply (Hnone i t); auto.
    + auto.
    + auto.
Qed.

(** ** The cursor over a whole run *)

Lemma reinject_inv_init (tokens : list str) :
  reinject_inv tokens (mkReinject [] 0 []).
Proof.
  constructor; simpl; [lia | reflexivity | |].
  - intros i j a b _ H. destruct i; discriminate.
  - intros k a H. destruct k; discriminate.
Qed.

Lemma nth_error_snoc_cases {A : Type} (l : list A) (x y : A) (k : nat) :
  nth_error (l ++ [x]) k = Some y ->
  ((k < List.length l)%nat /\ nth_error l k = Some y)
  \/ (k = List.length l /\ y = x).
Proof.
  intros H.
  destruct (Nat.lt_ge_cases k (List.length l)) as [Hlt | Hge].
  - left. rewrite nth_error_app1 in H by lia. auto.
  - right. rewrite nth_error_app2 in H by lia.
    destruct (k - List.length l)%nat eqn:E; simpl in H.
    + injection H as <-. split; [lia | reflexivity].
    + destruct n; discriminate.
Qed.

Lemma reinject_step_inv (tokens : list str) (st : reinject_state)
    (iv : interval) :
  reinject_inv tokens st -> reinject_inv tokens (reinject_step tokens st iv).
Proof.
  intros [Hc Hl Hinc Had].
  destruct (nonblank iv) eqn:Hnb.
  2:{ rewrite reinject_step_blank by exact Hnb. constructor; assumption. }
  rewrite (reinject_step_nonblank tokens st iv Hnb). cbv zeta.
  destruct (scan_from_cursor tokens (script_index st) (get_text iv) Hc)
    as [(i & t & Hi & Ht & _ & _ & Hs) | (_ & Hs)]; rewrite Hs; simpl.
  - assert (Hlt : (i < List.length tokens)%nat).
    { apply nth_error_Some. congruence. }
    constructor; simpl.
    + lia.
    + rewrite !length_app, Hl. reflexivity.
    + intros k1 k2 a b Hk H1 H2.
      apply nth_error_snoc_cases in H1, H2.
      destruct H1 as [[Hk1 H1] | [Hk1 H1]], H2 as [[Hk2 H2] | [Hk2 H2]].
      * exact (Hinc k1 k2 a b Hk H1 H2).
      * injection H2 as ->. destruct (Had k1 a H1) as [Ha _]. lia.
      * lia.
      * lia.
    + intros k a H.
      apply nth_error_snoc_cases in H.
      destruct H as [[Hk H] | [Hk H]].
      * destruct (Had k a H) as [Ha (t' & iv' & Ht' & Hiv' & Hx)].
        split; [lia|]. exists t', iv'. repeat split; auto.
        rewrite nth_error_app1; [exact Hiv'|].
        apply nth_error_Some. congruence.
      * injection H as ->. split; [lia|].
        exists t, (set_text t iv). repeat split; auto.
        rewrite nth_error_app2 by lia.
        rewrite Hk, Hl, Nat.sub_diag. reflexivity.
  - constructor; simpl.
    + lia.
    + rewrite !length_app, Hl. reflexivity.
    + intros k1 k2 a b Hk H1 H2.
      apply nth_error_snoc_cases in H1, H2.
      destruct H1 as [[Hk1 H1] | [Hk1 H1]], H2 as [[Hk2 H2] | [Hk2 H2]];
        try discriminate; try lia.
      exact (Hinc k1 k2 a b Hk H1 H2).
    + intros k a H.
      apply nth_error_snoc_cases in H.
      destruct H as [[Hk H] | [Hk H]]; [|discriminate].
      destruct (Had k a H) as [Ha (t' & iv' & Ht' & Hiv' & Hx)].
      split; [lia|]. exists t', iv'. repeat split; auto.
      rewrite nth_error_app1; [exact Hiv'|].
      apply nth_error_Some. congruence.
Qed.

Lemma reinject_loop_inv (tokens : list str) (ivs : list interval)
    (st : reinject_state) :
  reinject_inv tokens st -> reinject_inv tokens (reinject_loop tokens ivs st).
Proof.
  revert st; induction ivs as [|iv ivs IH]; intros st H; simpl; [exact H|].
  apply IH, reinject_step_inv, H.
Qed.

Lemma combine_snoc {A B : Type} (l : list A) (m : list B) (x : A) (y : B) :
  List.length l = List.length m ->
  combine (l ++ [x]) (m ++ [y]) = combine l m ++ [(x, y)].
Proof.
  revert m; induction l as [|a l IH]; intros [|b m] H; simpl in *;
    try discriminate; [reflexivity|].
  rewrite IH by lia. reflexivity.
Qed.

(** Every non-blank input interval, in order, accounts for one returned
    interval and one log entry. *)
Lemma reinject_loop_adoption (tokens : list str) (ivs : list interval)
    (st : reinject_state) (done : list interval) :
  reinject_inv tokens st ->
  Forall2 (adoption tokens) done
          (combine (updated_intervals st) (matched_at st)) ->
  Forall2 (adoption tokens) (done ++ filter nonblank ivs)
          (combine (updated_intervals (reinject_loop tokens ivs st))
                   (matched_at (reinject_loop tokens ivs st))).
Proof.
  revert st done; induction ivs as [|iv ivs IH]; intros st done Hinv H.
  - simpl. rewrite app_nil_r. exact H.
  - simpl. destruct (nonblank iv) eqn:Hnb.
    + replace (done ++ iv :: filter nonblank ivs)
        with ((done ++ [iv]) ++ filter nonblank ivs)
        by (rewrite <- app_assoc; reflexivity).
      apply IH; [apply reinject_step_inv; exact Hinv|].
      rewrite (reinject_step_nonblank tokens st iv Hnb). cbv zeta. simpl.
      rewrite combine_snoc by (symmetry; apply (rinv_length _ _ Hinv)).
      apply Forall2_app; [exact H|].
      constructor; [|constructor].
      destruct (scan_from_cursor tokens (script_index st) (get_text iv)
                  (rinv_cursor _ _ Hinv))
        as [(i & t & Hi & Ht & Hc & _ & Hs) | (_ & Hs)];
        rewrite Hs; unfold adoption; simpl.
      * exists t. auto.
      * reflexivity.
    + rewrite reinject_step_blank by exact Hnb. apply IH; assumption.
Qed.

Lemma reinject_loop_skips_blank (tokens : list str) (ivs : list interval)
    (st : reinject_state) :
  reinject_loop tokens (filter nonblank ivs) st = reinject_loop tokens ivs st.
Proof.
  revert st; induction ivs as [|iv ivs IH]; intros st; simpl; [reflexivity|].
  destruct (nonblank iv) eqn:Hnb; simpl.
  - apply IH.
  - rewrite reinject_step_blank by exact Hnb. apply IH.
Qed.

Lemma adoption_same_interval (tokens : list str) (iv : interval)
    (e : interval * option nat) :
  adoption tokens iv e -> same_interval tokens iv (fst e).
Proof.
  unfold adoption, same_interval. destruct e as [iv' [a|]]; simpl.
  - intros (t & Ht & _ & ->). repeat split; auto.
    right. exists t. split; [|reflexivity].
    apply nth_error_In in Ht. exact Ht.
  - intros ->. repeat split; auto.
Qed.

Lemma Forall2_combine_fst {A B C : Type} (R : A -> B * C -> Prop)
    (Q : A -> B -> Prop) (l : list A) (m : list B) (n : list C) :
  (forall a e, R a e -> Q a (fst e)) ->
  List.length m = List.length n ->
  Forall2 R l (combine m n) -> Forall2 Q l m.
Proof.
  intros HRQ. revert m n; induction l as [|a l IH]; intros m n Hlen H;
    destruct m as [|b m], n as [|c n]; simpl in *; try discriminate;
    inversion H; subst.
  - constructor.
  - constructor; [exact (HRQ a (b, c) ltac:(assumption))|].
    apply (IH m n); [lia | assumption].
Qed.

(** C8.  The cursor of the reinjection only moves forward.  The log of a
    run has one entry per returned interval; the non-blank input intervals,
    the returned intervals and the log entries correspond one to one, an
    entry [Some a] meaning that the interval matched and adopted the token
    of index [a] of the transcript, an entry [None] that it matched nothing
    and was returned unchanged.  For any two intervals that matched, the
    index of the later one is strictly greater than the index of the
    earlier one. *)
Theorem reinjection_cursor_monotonic (word_intervals : list interval)
    (original_script : str) :
  List.length (matched_at (reinject_run word_intervals original_script))
  = List.length (reinject_case_and_characters word_intervals original_script)
  /\ Forall2 (adoption (findall_nonspace original_script))
       (filter nonblank word_intervals)
       (combine (reinject_case_and_characters word_intervals original_script)
                (matched_at (reinject_run word_intervals original_script)))
  /\ (forall i j a b,
        (i < j)%nat ->
        nth_error (matched_at (reinject_run word_intervals original_script)) i
        = Some (Some a) ->
        nth_error (matched_at (reinject_run word_intervals original_script)) j
        = Some (Some b) ->
        (a < b)%nat).
Proof.
  pose proof (reinject_inv_init (findall_nonspace original_script)) as Hinit.
  pose proof (reinject_loop_inv _ word_intervals _ Hinit) as [Hc Hl Hinc Had].
  pose proof (reinject_loop_adoption _ word_intervals _ [] Hinit
                (Forall2_nil _)) as Hadopt.
  fold (reinject_run word_intervals original_script) in *.
  unfold reinject_case_and_characters.
  split; [exact Hl|]. split; [exact Hadopt | exact Hinc].
Qed.

(** C5.  The reinjector returns exactly the input intervals whose text is
    neither empty nor blank, in input order, each with its bounds and with
    either its own text or a token of the transcript for text; an interval
    with empty or blank text leaves the loop state, hence the cursor, as it
    is, so that the run is the run over the non-blank intervals alone. *)
Theorem reinject_keeps_nonblank (word_intervals : list interval)
    (original_script : str) :
  Forall2 (same_interval (findall_nonspace original_script))
          (filter nonblank word_intervals)
          (reinject_case_and_characters word_intervals original_script)
  /\ (forall st iv, nonblank iv = false ->
        reinject_step (findall_nonspace original_script) st iv = st)
  /\ reinject_run (filter nonblank word_intervals) original_script
     = reinject_run word_intervals original_script.
Proof.
  pose proof (reinject_inv_init (findall_nonspace original_script)) as Hinit.
  pose proof (reinject_loop_inv _ word_intervals _ Hinit) as Hinv.
  pose proof (reinject_loop_adoption _ word_intervals _ [] Hinit
                (Forall2_nil _)) as Hadopt.
  split; [|split].
  - unfold reinject_case_and_characters, reinject_run.
    apply (Forall2_combine_fst _ _ _ _ _
             (adoption_same_interval (findall_nonspace original_script))
             (eq_sym (rinv_length _ _ Hinv)) Hadopt).
  - intros st iv H. apply reinject_step_blank; exact H.
  - apply reinject_loop_skips_blank.
Qed.

(** C4.  The matcher does not strip every non-alphanumeric character:
    the underscore survives its normalization.  The text [a_b] and the
    token [ab] agree once every non-alphanumeric character is deleted and
    the rest lowercased, so that the token should be adopted; the program
    compares [a_b] with [ab], finds no match, returns the interval with its
    text unchanged and leaves the cursor at the end of the transcript. *)
Theorem underscore_is_not_stripped :
  nonblank (word_at 0 5 "a_b") = true
  /\ normalize_alnum "ab" = normalize_alnum (get_text (word_at 0 5 "a_b"))
  /\ clean "ab" <> clean (get_text (word_at 0 5 "a_b"))
  /\ reinject_case_and_characters [word_at 0 5 "a_b"] "ab"
     = [word_at 0 5 "a_b"]
  /\ reinject_case_and_characters [word_at 0 5 "a_b"] "ab"
     <> [set_text "ab" (word_at 0 5 "a_b")]
  /\ script_index (reinject_run [word_at 0 5 "a_b"] "ab") = 1%nat.
Proof.
  repeat split; try reflexivity; discriminate.
Qed.

(** A letter outside ASCII is a word character.  With a character
    database in which U+00EF, the letter i with diaeresis, is alphanumeric
    and the word [naive] written with it is its own lowercase, the token
    written with the diaeresis does not match the text [nave]: the letter
    is not deleted, and the interval keeps its text. *)
Example diaeresis_is_kept :
  unicode_alnum 239%N = true ->
  unicode_lower [110; 97; 239; 118; 101]%N = [110; 97; 239; 118; 101]%N ->
  clean [110; 97; 239; 118; 101]%N = [110; 97; 239; 118; 101]%N
  /\ reinject_case_and_characters [word_at 0 5 "nave"]
       [110; 97; 239; 118; 101]%N
     = [word_at 0 5 "nave"].
Proof.
  intros Halnum Hlower.
  assert (Hw : filter is_word_char [110; 97; 239; 118; 101]%N
               = [110; 97; 239; 118; 101]%N).
  { cbn [filter]. replace (is_word_char 239%N) with true; [reflexivity|].
    symmetry. unfold is_word_char, isalnum.
    change (is_ascii 239%N) with false. cbv iota.
    rewrite Halnum. reflexivity. }
  assert (Hc : clean [110; 97; 239; 118; 101]%N = [110; 97; 239; 118; 101]%N).
  { unfold clean. rewrite Hw. unfold lower.
    change (forallb is_ascii [110; 97; 239; 118; 101]%N) with false.
    exact Hlower. }
  split; [exact Hc|].
  assert (Hn : clean (get_text (word_at 0 5 "nave")) = literal "nave")
    by reflexivity.
  unfold reinject_case_and_characters, reinject_run, reinject_loop.
  change (findall_nonspace [110; 97; 239; 118; 101]%N)
    with [[110; 97; 239; 118; 101]%N].
  cbn [fold_left]. rewrite reinject_step_nonblank by reflexivity.
  cbv zeta. cbn [script_index skipn scan]. rewrite Hc, Hn.
  reflexivity.
Qed.

End ReinjectFacts.

Section ReinjectExamples.

#[local] Existing Instance ascii_unicode.

Example reinject_step_matcher_dont :
  nonblank (word_at 0 5 "dont") = true
  /\ (0 <= 2)%nat
  /\ updated_intervals
       (reinject_step [token_dont; "stop" : str] (mkReinject [] 0 [])
                      (word_at 0 5 "dont"))
     = [set_text token_dont (word_at 0 5 "dont")]
  /\ script_index
       (reinject_step [token_dont; "stop" : str] (mkReinject [] 0 [])
                      (word_at 0 5 "dont"))
     = 1%nat.
Proof.
  assert (Hnb : nonblank (word_at 0 5 "dont") = true) by reflexivity.
  assert (Hle : (0 <= 2)%nat) by lia.
  split; [exact Hnb|]. split; [exact Hle|].
  destruct (reinject_step_matcher [token_dont; "stop" : str]
              (mkReinject [] 0 []) (word_at 0 5 "dont") Hnb Hle)
    as [Hfound _].
  apply (Hfound 0%nat token_dont).
  - simpl; lia.
  - reflexivity.
  - reflexivity.
  - simpl; intros j u Hj; lia.
Defined.

End ReinjectExamples.

Section GrouperFacts.

Context {U : Unicode}.

(** ** Stripped strings *)

Lemma dropwhile_head (p : char -> bool) (s : str) :
  head_clear p (dropwhile p s).
Proof.
  induction s as [|c s IH]; simpl; [exact I|].
  destruct (p c) eqn:E; [exact IH | exact E].
Qed.

Lemma dropwhile_id (p : char -> bool) (s : str) :
  head_clear p s -> dropwhile p s = s.
Proof. destruct s as [|c s]; simpl; [reflexivity | intros ->; reflexivity]. Qed.

Lemma dropwhile_suffix (p : char -> bool) (s : str) :
  exists k, s = k ++ dropwhile p s.
Proof.
  induction s as [|c s [k IH]]; simpl; [exists []; reflexivity|].
  destruct (p c).
  - exists (c :: k). simpl. f_equal. exact IH.
  - exists []. reflexivity.
Qed.

Lemma head_clear_app (p : char -> bool) (a b : str) :
  a <> [] -> head_clear p a -> head_clear p (a ++ b).
Proof. destruct a; [congruence | simpl; auto]. Qed.

Lemma strip_tidy (s : str) : tidy s -> strip s = s.
Proof.
  intros [Hh Ht]. unfold strip, strip_with.
  rewrite (dropwhile_id _ _ Hh), (dropwhile_id _ _ Ht). apply rev_involutive.
Qed.

Lemma strip_is_tidy (s : str) : tidy (strip s).
Proof.
  unfold strip, strip_with, tidy. rewrite rev_involutive.
  split; [|apply dropwhile_head].
  pose proof (dropwhile_head isspace s) as Hd.
  set (d := dropwhile isspace s) in *.
  destruct (dropwhile_suffix isspace (rev d)) as [k Hk].
  set (r := dropwhile isspace (rev d)) in *.
  destruct r as [|c r] using rev_ind; [exact I|]. clear IHr.
  assert (Ed : d = rev (r ++ [c]) ++ rev k).
  { rewrite <- rev_app_distr, <- Hk, rev_involutive. reflexivity. }
  rewrite rev_app_distr in *. simpl in *.
  rewrite Ed in Hd. exact Hd.
Qed.

Lemma strip_strip (s : str) : strip (strip s) = strip s.
Proof. apply strip_tidy, strip_is_tidy. Qed.

Lemma tidy_join (a m b : str) :
  tidy a -> a <> [] -> tidy b -> b <> [] -> tidy (a ++ m ++ b).
Proof.
  intros [Ha _] Hna [_ Hb] Hnb. split.
  - apply head_clear_app; assumption.
  - rewrite !rev_app_distr, <- app_assoc.
    apply head_clear_app; [|exact Hb].
    intros E. apply Hnb. rewrite <- (rev_involutive b), E. reflexivity.
Qed.

Lemma truthy_true (s : str) : truthy s = true <-> s <> [].
Proof. destruct s; simpl; split; congruence. Qed.

Lemma truthy_false (s : str) : truthy s = false <-> s = [].
Proof. destruct s; simpl; split; congruence. Qed.

(** ** Lines of words *)

Lemma join_snoc (sep : str) (l : list str) (s : str) :
  join sep (l ++ [s])
  = match l with [] => s | _ :: _ => join sep l ++ sep ++ s end.
Proof.
  induction l as [|a l IH]; [reflexivity|].
  destruct l as [|b l]; [reflexivity|].
  change ((a :: b :: l) ++ [s]) with (a :: (b :: l) ++ [s]).
  change (join sep (a :: (b :: l) ++ [s]))
    with (a ++ sep ++ join sep ((b :: l) ++ [s])).
  rewrite IH.
  change (join sep (a :: b :: l)) with (a ++ sep ++ join sep (b :: l)).
  rewrite <- !app_assoc. reflexivity.
Qed.

Lemma line_of_snoc (g : list interval) (w : interval) :
  line_of (g ++ [w])
  = match g with
    | [] => word_text w
    | _ :: _ => line_of g ++ " " ++ word_text w
    end.
Proof.
  unfold line_of. rewrite map_app. simpl. rewrite join_snoc.
  destruct g; reflexivity.
Qed.

Lemma word_text_nonblank (w : interval) :
  nonblank w = true -> word_text w <> [] /\ tidy (word_text w).
Proof.
  unfold nonblank, word_text. intros H.
  split; [apply truthy_true; exact H | apply strip_is_tidy].
Qed.

(** A line of non-blank words is stripped, and empty only when there is
    no word. *)
Lemma line_of_tidy (g : list interval) :
  Forall (fun w => nonblank w = true) g ->
  tidy (line_of g) /\ (g <> [] -> line_of g <> []).
Proof.
  induction g as [|w g IH] using rev_ind; intros H.
  - split; [split; exact I | congruence].
  - apply Forall_app in H. destruct H as [Hg Hw].
    inversion Hw as [|? ? Hw' _]; subst.
    destruct (word_text_nonblank w Hw') as [Hne Ht].
    destruct (IH Hg) as [IHt IHn].
    rewrite line_of_snoc. destruct g as [|a g].
    + split; auto.
    + split.
      * apply tidy_join; auto. apply IHn; discriminate.
      * intros _ E. apply app_eq_nil in E. destruct E as [E _].
        apply IHn in E; [exact E | discriminate].
Qed.

Lemma closes_snoc (max_chars : Z) (p : list interval) (w : interval) :
  closes max_chars (p ++ [w])
  = (max_chars <? len (line_of (p ++ [w])))%Z || ends_sentence (word_text w).
Proof. unfold closes. rewrite rev_app_distr. reflexivity. Qed.

Lemma candidate_line (p : list interval) (w : interval) :
  Forall (fun w => nonblank w = true) p ->
  (if truthy (line_of p) then line_of p ++ " " ++ word_text w
   else word_text w)
  = line_of (p ++ [w]).
Proof.
  intros Hp. rewrite line_of_snoc. destruct p as [|a p]; [reflexivity|].
  destruct (line_of_tidy _ Hp) as [_ Hne].
  assert (E : truthy (line_of (a :: p)) = true)
    by (apply truthy_true, Hne; discriminate).
  rewrite E. reflexivity.
Qed.

(** ** One iteration of the grouping loop *)

(** The iteration on a non-blank word [w] when the current line is made of
    the words [p]: the closing condition is evaluated on [p ++ [w]]. *)
Lemma group_step_spec (max_chars : Z) (subs : list subtitle)
    (p : list interval) (start : option float) (w : interval) :
  nonblank w = true -> Forall (fun w => nonblank w = true) p ->
  group_step max_chars (mkGroup subs (line_of p) start) w
  = (s <- match start with
          | None => getitem_xmin w
          | Some s => Ok s
          end ;;
     if closes max_chars (p ++ [w]) then
       e <- getitem_xmax w ;;
       Ok (mkGroup (subs ++ [(s, e, line_of (p ++ [w]))]) [] None)
     else Ok (mkGroup subs (line_of (p ++ [w])) (Some s))).
Proof.
  intros Hw Hp. unfold group_step.
  change (strip (get_text w)) with (word_text w).
  unfold nonblank in Hw. change (strip (get_text w)) with (word_text w) in Hw.
  rewrite Hw. cbn [negb subtitles current_sentence sentence_start].
  rewrite (candidate_line p w Hp), <- closes_snoc.
  assert (Ht : strip (line_of (p ++ [w])) = line_of (p ++ [w])).
  { apply strip_tidy, line_of_tidy. apply Forall_app; split; [exact Hp|].
    constructor; [exact Hw | constructor]. }
  rewrite Ht. reflexivity.
Qed.

(** The GUI variant computes the same iteration. *)
Lemma group_step_ui_spec (max_chars : Z) (subs : list subtitle)
    (p : list interval) (start : option float) (w : interval) :
  Forall (fun w => nonblank w = true) p ->
  group_step_ui max_chars (mkGroup subs (line_of p) start) w
  = group_step max_chars (mkGroup subs (line_of p) start) w.
Proof.
  intros Hp. destruct (nonblank w) eqn:Hw.
  - rewrite (group_step_spec _ _ _ _ _ Hw Hp).
    unfold group_step_ui.
    change (strip (get_text w)) with (word_text w).
    unfold nonblank in Hw.
    change (strip (get_text w)) with (word_text w) in Hw.
    rewrite Hw. cbn [negb subtitles current_sentence sentence_start].
    assert (Ht : strip (line_of (p ++ [w])) = line_of (p ++ [w])).
    { apply strip_tidy, line_of_tidy. apply Forall_app; split; [exact Hp|].
      constructor; [exact Hw | constructor]. }
    assert (E : (if truthy (line_of p)
                 then strip (line_of p ++ " " ++ word_text w)
                 else word_text w) = line_of (p ++ [w])).
    { rewrite <- (candidate_line p w Hp).
      destruct (truthy (line_of p)) eqn:Et; [|reflexivity].
      pose proof (candidate_line p w Hp) as Hc. rewrite Et in Hc.
      rewrite Hc. exact Ht. }
    rewrite E, <- closes_snoc. reflexivity.
  - unfold group_step_ui, group_step. unfold nonblank in Hw. rewrite Hw.
    reflexivity.
Qed.

Lemma group_step_blank (max_chars : Z) (st : group_state) (w : interval) :
  nonblank w = false -> group_step max_chars st w = Ok st.
Proof. unfold nonblank, group_step. intros ->. reflexivity. Qed.

(** ** Prefixes *)

Lemma is_prefix_snoc (q p : list interval) (w : interval) :
  is_prefix q (p ++ [w]) -> q = p ++ [w] \/ is_prefix q p.
Proof.
  intros [r E]. destruct r as [|x r _] using rev_ind.
  - left. rewrite app_nil_r in E. congruence.
  - right. rewrite app_assoc in E. apply app_inj_tail in E.
    destruct E as [E _]. exists r. exact E.
Qed.

Lemma is_prefix_comparable (p q a b : list interval) :
  p ++ a = q ++ b -> is_prefix p q \/ is_prefix q p.
Proof.
  revert q; induction p as [|x p IH]; intros q E.
  - left. exists q. reflexivity.
  - destruct q as [|y q].
    + right. exists (x :: p). reflexivity.
    + simpl in E. injection E as <- E.
      destruct (IH q E) as [[r ->] | [r ->]].
      * left. exists r. reflexivity.
      * right. exists r. reflexivity.
Qed.

Lemma closes_nil (max_chars : Z) : closes max_chars [] = false.
Proof. reflexivity. Qed.

(** ** The loop against the segmentation *)

Lemma group_inv_init (max_chars : Z) :
  group_inv max_chars [] (mkGroup [] [] None).
Proof.
  exists [], []. split.
  - constructor; [reflexivity | constructor |].
    intros q [r E]. symmetry in E. apply app_eq_nil in E.
    destruct E as [-> _]. reflexivity.
  - repeat split; constructor.
Qed.

Lemma group_step_inv (max_chars : Z) (done : list interval)
    (st st' : group_state) (w : interval) :
  nonblank w = true ->
  group_inv max_chars done st ->
  group_step max_chars st w = Ok st' ->
  group_inv max_chars (done ++ [w]) st'.
Proof.
  intros Hw (gs & p & [Hcat Hclosed Hopen] & Hsubs & Hcur & Hp & Hstart) Hstep.
  destruct st as [subs cur start]. simpl in *. subst cur.
  rewrite (group_step_spec _ _ _ _ _ Hw Hp) in Hstep.
  assert (Hs : exists s, match start with
                         | None => getitem_xmin w
                         | Some s => Ok s
                         end = Ok s
                         /\ xmin (hd empty_dict (p ++ [w])) = Some s).
  { destruct p as [|a p]; simpl.
    - rewrite Hstart. unfold getitem_xmin.
      destruct (xmin w) as [s|] eqn:E.
      + exists s. auto.
      + rewrite Hstart in Hstep. unfold getitem_xmin in Hstep.
        rewrite E in Hstep. discriminate.
    - destruct Hstart as (s & -> & Hx). exists s. auto. }
  destruct Hs as (s & Es & Hhd). rewrite Es in Hstep. simpl in Hstep.
  assert (Hpw : Forall (fun w => nonblank w = true) (p ++ [w])).
  { apply Forall_app; split; [exact Hp|]. constructor; [exact Hw|constructor]. }
  destruct (closes max_chars (p ++ [w])) eqn:Ec.
  - (* the word closes the cue *)
    unfold getitem_xmax in Hstep.
    destruct (xmax w) as [e|] eqn:Ee; [|discriminate].
    simpl in Hstep. injection Hstep as <-.
    exists (gs ++ [p ++ [w]]), []. split.
    + constructor.
      * rewrite concat_app. simpl. rewrite !app_nil_r, Hcat.
        rewrite <- app_assoc. reflexivity.
      * apply Forall_app; split; [exact Hclosed|].
        constructor; [|constructor]. split; [exact Ec|].
        intros q Hq Hne. apply is_prefix_snoc in Hq.
        destruct Hq as [-> | Hq]; [congruence | apply Hopen; exact Hq].
      * intros q [r E]. symmetry in E. apply app_eq_nil in E.
        destruct E as [-> _]. reflexivity.
    + split; [|repeat split; constructor].
      simpl. apply Forall2_app; [exact Hsubs|].
      constructor; [|constructor].
      unfold renders. rewrite last_last. auto.
  - (* the word extends the line *)
    injection Hstep as <-.
    exists gs, (p ++ [w]). split.
    + constructor.
      * rewrite Hcat, <- app_assoc. reflexivity.
      * exact Hclosed.
      * intros q Hq. apply is_prefix_snoc in Hq.
        destruct Hq as [-> | Hq]; [exact Ec | apply Hopen; exact Hq].
    + repeat split; simpl; auto.
      destruct p as [|a p]; simpl in *; exists s; auto.
Qed.

Lemma group_loop_inv (max_chars : Z) (ws : list interval)
    (done : list interval) (st st' : group_state) :
  group_inv max_chars done st ->
  group_loop max_chars ws st = Ok st' ->
  group_inv max_chars (done ++ filter nonblank ws) st'.
Proof.
  revert done st; induction ws as [|w ws IH]; intros done st Hinv Hloop.
  - simpl in *. injection Hloop as <-. rewrite app_nil_r. exact Hinv.
  - simpl in Hloop.
    destruct (group_step max_chars st w) as [st1|] eqn:Es; [|discriminate].
    simpl in Hloop. simpl. destruct (nonblank w) eqn:Hw.
    + replace (done ++ w :: filter nonblank ws)
        with ((done ++ [w]) ++ filter nonblank ws)
        by (rewrite <- app_assoc; reflexivity).
      apply (IH _ st1); [|exact Hloop].
      apply (group_step_inv _ _ st _ w); assumption.
    + rewrite (group_step_blank _ _ _ Hw) in Es. injection Es as <-.
      apply (IH _ st); assumption.
Qed.

Lemma is_prefix_cases (p l : list interval) :
  is_prefix p l -> p = l \/ p <> l.
Proof.
  intros [q ->]. destruct q as [|x q].
  - left. rewrite app_nil_r. reflexivity.
  - right. intros E. apply (f_equal (@List.length interval)) in E.
    rewrite length_app in E. simpl in E. lia.
Qed.

(** Two segmentations of the same words coincide. *)
Lemma segmentation_unique (max_chars : Z) (ws : list interval)
    (gs gs' : list (list interval)) (t t' : list interval) :
  segmentation max_chars ws gs t -> segmentation max_chars ws gs' t' ->
  gs = gs' /\ t = t'.
Proof.
  revert ws gs'; induction gs as [|g gs IH]; intros ws gs' [E C O] [E' C' O'].
  - simpl in E. subst t. destruct gs' as [|g' gs'].
    + simpl in E'. auto.
    + exfalso. destruct (Forall_inv C') as [Hc _].
      simpl in E'. rewrite <- app_assoc in E'.
      assert (Hf : closes max_chars g' = false)
        by (apply O; eexists; exact E').
      congruence.
  - destruct (Forall_inv C) as [Hc Hmin].
    pose proof (Forall_inv_tail C) as Hrest.
    simpl in E. rewrite <- app_assoc in E.
    destruct gs' as [|g' gs'].
    + exfalso. simpl in E'. subst t'.
      assert (Hf : closes max_chars g = false)
        by (apply O'; eexists; exact E).
      congruence.
    + destruct (Forall_inv C') as [Hc' Hmin'].
      pose proof (Forall_inv_tail C') as Hrest'.
      simpl in E'. rewrite <- app_assoc in E'.
      assert (EE : g ++ List.concat gs ++ t = g' ++ List.concat gs' ++ t')
        by congruence.
      assert (Hg : g = g').
      { destruct (is_prefix_comparable _ _ _ _ EE) as [Hp | Hp].
        - destruct (is_prefix_cases _ _ Hp) as [Heq | Hne]; [exact Heq|].
          exfalso. rewrite (Hmin' g Hp Hne) in Hc. discriminate.
        - destruct (is_prefix_cases _ _ Hp) as [Heq | Hne];
            [symmetry; exact Heq|].
          exfalso. rewrite (Hmin g' Hp Hne) in Hc'. discriminate. }
      subst g'. apply app_inv_head in EE.
      destruct (IH (List.concat gs ++ t) gs') as [-> ->].
      * constructor; auto.
      * constructor; auto.
      * auto.
Qed.

(** ** Deciding a segmentation *)

Lemma is_prefix_firstn (p l : list interval) :
  is_prefix p l -> p = firstn (List.length p) l /\ (List.length p <= List.length l)%nat.
Proof.
  intros [q ->]. split.
  - rewrite firstn_app, Nat.sub_diag, firstn_all. simpl.
    rewrite app_nil_r. reflexivity.
  - rewrite length_app. lia.
Qed.

Lemma open_line_check (max_chars : Z) (t : list interval) :
  forallb (fun k => negb (closes max_chars (firstn k t)))
          (seq 0 (S (List.length t))) = true ->
  open_line max_chars t.
Proof.
  intros H p Hp. destruct (is_prefix_firstn p t Hp) as [E Hle].
  rewrite forallb_forall in H.
  specialize (H (List.length p)). rewrite <- E in H.
  apply negb_true_iff, H, in_seq. lia.
Qed.

Lemma closed_group_check (max_chars : Z) (g : list interval) :
  closes max_chars g = true ->
  forallb (fun k => negb (closes max_chars (firstn k g)))
          (seq 0 (List.length g)) = true ->
  closed_group max_chars g.
Proof.
  intros Hc H. split; [exact Hc|]. intros p Hp Hne.
  destruct (is_prefix_firstn p g Hp) as [E Hle].
  assert (Hlt : (List.length p < List.length g)%nat).
  { destruct (Nat.eq_dec (List.length p) (List.length g)) as [El|]; [|lia].
    exfalso. apply Hne. rewrite E, El. apply firstn_all. }
  rewrite forallb_forall in H.
  specialize (H (List.length p)). rewrite <- E in H.
  apply negb_true_iff, H, in_seq. lia.
Qed.

(** ** The whole function *)

Lemma group_step_total (max_chars : Z) (st : group_state) (w : interval) :
  has_bounds w -> exists st', group_step max_chars st w = Ok st'.
Proof.
  intros [Hlo Hhi]. unfold group_step, getitem_xmin, getitem_xmax.
  destruct (negb (truthy (strip (get_text w)))); [eexists; reflexivity|].
  destruct (xmin w) as [lo|]; [|congruence].
  destruct (xmax w) as [hi|]; [|congruence].
  destruct (sentence_start st); simpl;
    match goal with |- context [if ?c then _ else _] => destruct c end;
    eexists; reflexivity.
Qed.

Lemma group_loop_total (max_chars : Z) (ws : list interval)
    (st : group_state) :
  Forall has_bounds ws -> exists st', group_loop max_chars ws st = Ok st'.
Proof.
  revert st; induction ws as [|w ws IH]; intros st H.
  - exists st. reflexivity.
  - inversion H as [|? ? Hw Hws]; subst.
    destruct (group_step_total max_chars st w Hw) as [st1 E].
    simpl. rewrite E. simpl. apply IH. exact Hws.
Qed.

Lemma rev_head_last {A : Type} (l r : list A) (x d : A) :
  rev l = x :: r -> last l d = x.
Proof.
  intros E. rewrite <- (rev_involutive l), E. simpl. apply last_last.
Qed.

(** The result of the function, read off the segmentation of its
    non-blank words. *)
Lemma group_words_result (word_intervals : list interval) (max_chars : Z)
    (cues : list subtitle) :
  group_words_into_sentences word_intervals max_chars = Ok cues ->
  exists gs t closed,
    segmentation max_chars (filter nonblank word_intervals) gs t
    /\ Forall2 renders gs closed
    /\ match t with
       | [] => cues = closed
       | w :: _ =>
           exists start stop,
             xmin w = Some start
             /\ xmax (last word_intervals empty_dict) = Some stop
             /\ cues = closed ++ [(start, stop, line_of t)]
       end.
Proof.
  unfold group_words_into_sentences. intros H.
  destruct (group_loop max_chars word_intervals (mkGroup [] [] None))
    as [st|] eqn:Eloop; [|discriminate].
  simpl in H.
  destruct (group_loop_inv _ _ _ _ _ (group_inv_init max_chars) Eloop)
    as (gs & t & Hseg & Hsubs & Hcur & Hnb & Hstart).
  simpl in Hseg. exists gs, t, (subtitles st).
  split; [exact Hseg|]. split; [exact Hsubs|].
  rewrite Hcur in H.
  destruct t as [|w t].
  - simpl in H. injection H as <-. reflexivity.
  - destruct (line_of_tidy _ Hnb) as [Htidy Hne].
    assert (Et : truthy (line_of (w :: t)) = true)
      by (apply truthy_true, Hne; discriminate).
    rewrite Et in H. destruct Hstart as (s & Es & Hx). rewrite Es in H.
    unfold last_xmax in H.
    destruct (rev word_intervals) as [|z r] eqn:Er; [discriminate|].
    unfold getitem_xmax in H.
    destruct (xmax z) as [e|] eqn:Ez; [|discriminate].
    simpl in H. injection H as <-.
    exists s, e. rewrite (rev_head_last _ _ _ empty_dict Er).
    rewrite (strip_tidy _ Htidy). auto.
Qed.

Lemma group_words_total (word_intervals : list interval) (max_chars : Z) :
  Forall has_bounds word_intervals ->
  exists cues, group_words_into_sentences word_intervals max_chars = Ok cues.
Proof.
  intros H. unfold group_words_into_sentences.
  destruct (group_loop_total max_chars word_intervals (mkGroup [] [] None) H)
    as [st E].
  rewrite E. simpl.
  assert (Hlast : exists e, last_xmax word_intervals = Ok e
                            \/ word_intervals = []).
  { unfold last_xmax. destruct (rev word_intervals) as [|z r] eqn:Er.
    - exists fzero. right.
      rewrite <- (rev_involutive word_intervals), Er. reflexivity.
    - assert (Hz : has_bounds z).
      { rewrite Forall_forall in H. apply H. apply in_rev. rewrite Er.
        left; reflexivity. }
      destruct Hz as [_ Hhi]. unfold getitem_xmax.
      destruct (xmax z) as [e|]; [|congruence]. exists e. left; reflexivity. }
  destruct Hlast as [e [He | ->]].
  - rewrite He. simpl.
    destruct (truthy (current_sentence st)); [|eexists; reflexivity].
    destruct (sentence_start st); eexists; reflexivity.
  - simpl in E. injection E as <-. eexists; reflexivity.
Qed.

(** Blank intervals do not count, and the loop runs part after part. *)
Lemma group_loop_skips_blank (max_chars : Z) (ws : list interval)
    (st : group_state) :
  group_loop max_chars (filter nonblank ws) st = group_loop max_chars ws st.
Proof.
  revert st; induction ws as [|w ws IH]; intros st; [reflexivity|].
  simpl. destruct (nonblank w) eqn:Hw.
  - simpl. destruct (group_step max_chars st w); [apply IH | reflexivity].
  - rewrite (group_step_blank _ _ _ Hw). simpl. apply IH.
Qed.



Lemma group_words_total_words (word_intervals : list interval)
    (max_chars : Z) :
  Forall has_bounds (filter nonblank word_intervals) ->
  xmax (last word_intervals empty_dict) <> None ->
  exists cues, group_words_into_sentences word_intervals max_chars = Ok cues.
Proof.
  intros Hb Hlast. unfold group_words_into_sentences.
  destruct (group_loop_total max_chars (filter nonblank word_intervals)
              (mkGroup [] [] None) Hb) as [st E].
  rewrite group_loop_skips_blank in E. rewrite E. simpl.
  destruct (truthy (current_sentence st)); [|eexists; reflexivity].
  destruct (sentence_start st); [|eexists; reflexivity].
  unfold last_xmax.
  destruct (rev word_intervals) as [|z r] eqn:Er.
  - assert (word_intervals = [])
      by (rewrite <- (rev_involutive word_intervals), Er; reflexivity).
    subst. simpl in Hlast. congruence.
  - rewrite (rev_head_last _ _ _ empty_dict Er) in Hlast.
    unfold getitem_xmax. destruct (xmax z); [|congruence].
    eexists. reflexivity.
Qed.

(** The two variants of the function agree. *)
Lemma group_loop_ui_eq (max_chars : Z) (ws : list interval)
    (subs : list subtitle) (p : list interval) (start : option float) :
  Forall (fun w => nonblank w = true) p ->
  group_loop_ui max_chars ws (mkGroup subs (line_of p) start)
  = group_loop max_chars ws (mkGroup subs (line_of p) start).
Proof.
  revert subs p start; induction ws as [|w ws IH]; intros subs p start Hp.
  - reflexivity.
  - simpl. rewrite (group_step_ui_spec _ _ _ _ _ Hp).
    destruct (nonblank w) eqn:Hw.
    + rewrite (group_step_spec _ _ _ _ _ Hw Hp).
      destruct (match start with None => getitem_xmin w | Some s => Ok s end)
        as [s|]; [|reflexivity].
      simpl. destruct (closes max_chars (p ++ [w])).
      * destruct (getitem_xmax w) as [e|]; [|reflexivity].
        simpl. apply (IH _ [] None). constructor.
      * simpl. apply IH. apply Forall_app; split; [exact Hp|].
        constructor; [exact Hw | constructor].
    + rewrite (group_step_blank _ _ _ Hw). simpl. apply IH. exact Hp.
Qed.

Lemma group_words_ui_eq (word_intervals : list interval) (max_chars : Z) :
  group_words_into_sentences_ui word_intervals max_chars
  = group_words_into_sentences word_intervals max_chars.
Proof.
  unfold group_words_into_sentences_ui, group_words_into_sentences.
  pose proof (group_loop_ui_eq max_chars word_intervals [] [] None
                (Forall_nil _)) as Hui.
  change (line_of []) with (@nil char) in Hui. rewrite Hui.
  destruct (group_loop max_chars word_intervals (mkGroup [] [] None))
    as [st|] eqn:Eloop; [|reflexivity].
  simpl.
  destruct (group_loop_inv _ _ _ _ _ (group_inv_init max_chars) Eloop)
    as (gs & t & _ & _ & Hcur & Hnb & _).
  destruct (line_of_tidy _ Hnb) as [Htidy _].
  rewrite Hcur, (strip_tidy _ Htidy). reflexivity.
Qed.

(** C2.  When the cue grouper returns, its cues are the closed cues, one
    per closed group of the non-blank words, possibly followed by one cue
    for the trailing open line.  A group is closed by its last word, and by
    no earlier word: the closing condition (the candidate line is longer
    than [max_chars], or the current word ends in a full stop, an
    exclamation mark or a question mark) holds on the group and on no
    shorter line of it, and it holds on no line of the trailing open line.
    The cue of a closed group carries the whole line of the group, the
    closing word included, and ends at the closing word's end time.  Both
    variants of the function return the same cues. *)
Theorem cue_closed_exactly_on_trigger (word_intervals : list interval)
    (max_chars : Z) (cues : list subtitle) :
  group_words_into_sentences word_intervals max_chars = Ok cues ->
  group_words_into_sentences_ui word_intervals max_chars = Ok cues
  /\ exists gs t closed trailing,
       cues = closed ++ trailing
       /\ filter nonblank word_intervals = List.concat gs ++ t
       /\ Forall (fun g =>
            closes max_chars g = true
            /\ forall p, is_prefix p g -> p <> g ->
                         closes max_chars p = false) gs
       /\ (forall p, is_prefix p t -> closes max_chars p = false)
       /\ Forall2 (fun g c =>
            xmin (hd empty_dict g) = Some (fst (fst c))
            /\ xmax (last g empty_dict) = Some (snd (fst c))
            /\ snd c = line_of g) gs closed
       /\ (t = [] -> trailing = [])
       /\ (List.length trailing <= 1)%nat.
Proof.
  intros H. split; [rewrite group_words_ui_eq; exact H|].
  destruct (group_words_result _ _ _ H)
    as (gs & t & closed & [Hcat Hclosed Hopen] & Hren & Hfinal).
  assert (Hren' : Forall2 (fun g c =>
            xmin (hd empty_dict g) = Some (fst (fst c))
            /\ xmax (last g empty_dict) = Some (snd (fst c))
            /\ snd c = line_of g) gs closed).
  { eapply Forall2_impl; [|exact Hren].
    intros g [[a b] c]. unfold renders. simpl. auto. }
  destruct t as [|w t].
  - exists gs, [], closed, []. rewrite app_nil_r.
    repeat split; auto.
  - destruct Hfinal as (start & stop & _ & _ & ->).
    exists gs, (w :: t), closed, [(start, stop, line_of (w :: t))].
    repeat split; auto. discriminate.
Qed.

Lemma cue_closed_exactly_on_trigger_witness :
  group_words_into_sentences sample_words 20 = Ok sample_cues
  /\ group_words_into_sentences_ui sample_words 20 = Ok sample_cues.
Proof.
  assert (H : group_words_into_sentences sample_words 20 = Ok sample_cues)
    by (vm_compute; reflexivity).
  split; [exact H|].
  exact (proj1 (cue_closed_exactly_on_trigger sample_words 20 sample_cues H)).
Defined.

(** C3 (amended).  When every non-blank interval has its bounds, the very
    last interval of the input has an end time, and the non-blank words end
    in an unclosed partial line [t], that is, they are cut into closed
    groups followed by a non-empty open line, the grouper returns the cues
    of the closed groups followed by exactly one more cue: it starts at the
    start of the first word of [t], carries the line of [t], and ends at
    the end time of the very last interval of the whole input, blank or
    not.  Both variants of the function do so. *)
Theorem trailing_partial_line (word_intervals : list interval)
    (max_chars : Z) (gs : list (list interval)) (t : list interval) :
  Forall has_bounds (filter nonblank word_intervals) ->
  xmax (last word_intervals empty_dict) <> None ->
  segmentation max_chars (filter nonblank word_intervals) gs t ->
  t <> [] ->
  exists closed start stop,
    group_words_into_sentences word_intervals max_chars
    = Ok (closed ++ [(start, stop, line_of t)])
    /\ group_words_into_sentences_ui word_intervals max_chars
       = Ok (closed ++ [(start, stop, line_of t)])
    /\ Forall2 renders gs closed
    /\ xmin (hd empty_dict t) = Some start
    /\ xmax (last word_intervals empty_dict) = Some stop.
Proof.
  intros Hb Hlast Hseg Hne.
  destruct (group_words_total_words word_intervals max_chars Hb Hlast)
    as [cues Hc].
  destruct (group_words_result _ _ _ Hc)
    as (gs' & t' & closed & Hseg' & Hren & Hfinal).
  destruct (segmentation_unique _ _ _ _ _ _ Hseg' Hseg) as [-> ->].
  destruct t as [|w t]; [congruence|].
  destruct Hfinal as (start & stop & Hs & He & ->).
  exists closed, start, stop.
  rewrite group_words_ui_eq. auto.
Qed.

Lemma trailing_partial_line_witness :
  exists closed start stop,
    group_words_into_sentences sample_words 20
    = Ok (closed ++ [(start, stop, "How are" : str)])
    /\ xmax (last sample_words empty_dict) = Some stop.
Proof.
  assert (Hb : Forall has_bounds (filter nonblank sample_words)).
  { repeat constructor; discriminate. }
  assert (Hlast : xmax (last sample_words empty_dict) <> None)
    by discriminate.
  assert (Hseg : segmentation 20 (filter nonblank sample_words)
                   [[word_at 0 5 "Hello"; word_at 5 10 "there."]]
                   [word_at 10 14 "How"; word_at 14 20 "are"]).
  { constructor.
    - reflexivity.
    - constructor; [|constructor].
      apply closed_group_check; vm_compute; reflexivity.
    - apply open_line_check. vm_compute; reflexivity. }
  assert (Hne : [word_at 10 14 "How"; word_at 14 20 "are"] <> [])
    by discriminate.
  destruct (trailing_partial_line sample_words 20 _ _ Hb Hlast Hseg Hne)
    as (closed & start & stop & H & _ & _ & _ & He).
  exists closed, start, stop. split; [exact H | exact He].
Defined.

(** C3 as stated fails when the last interval has no end time.  The
    words [How are] are left on an open line and followed by an interval
    with empty text and no bounds, which the parser returns for a text
    line without bound lines; the claim has one final cue emitted, the
    program raises [KeyError]. *)
Lemma trailing_line_counterexample :
  segmentation 20
    (filter nonblank [word_at 10 14 "How"; word_at 14 20 "are";
                      mkInterval None None (Some (literal EmptyString))])
    [] [word_at 10 14 "How"; word_at 14 20 "are"]
  /\ group_words_into_sentences
       [word_at 10 14 "How"; word_at 14 20 "are";
        mkInterval None None (Some (literal EmptyString))] 20
     = Raise (KeyError "xmax")
  /\ group_words_into_sentences_ui
       [word_at 10 14 "How"; word_at 14 20 "are";
        mkInterval None None (Some (literal EmptyString))] 20
     = Raise (KeyError "xmax").
Proof.
  split; [|split; vm_compute; reflexivity].
  constructor.
  - reflexivity.
  - constructor.
  - apply open_line_check. vm_compute; reflexivity.
Qed.

Section MissingBounds.

Variable py_float : str -> option float.


End MissingBounds.


(** A character outside ASCII counts for one.  With three characters to
    a line, the candidate line made of an emoji (U+1F642), a space and [b]
    has three characters and is not too long; the next word closes the
    cue. *)
Example emoji_is_one_character :
  len ([128578%N] ++ " b") = 3%Z
  /\ group_words_into_sentences
       [mkInterval (Some (decimal 0 1)) (Some (decimal 5 1))
                   (Some [128578%N]);
        word_at 5 10 "b"; word_at 10 15 "c"] 3
     = Ok [(decimal 0 1, decimal 15 1, [128578%N] ++ " b c")].
Proof. split; vm_compute; reflexivity. Qed.

End GrouperFacts.

Section GrouperExamples.

#[local] Existing Instance ascii_unicode.

(** Two text lines in a row in the words tier: the second interval has no
    bounds, and grouping it on its own fails. *)
Example text_lines_in_a_row :
  parse_textgrid decimal_float
    (fun _ => Readable [with_quoted "name = " "words"; plain "xmin = 0";
                        plain "xmax = 1"; with_quoted "text = " "a";
                        with_quoted "text = " "b"] None)
    sample_path
  = Ok [mkInterval (Some (decimal 0 0)) (Some (decimal 1 0)) (Some ("a" : str));
        mkInterval None None (Some ("b" : str))]
  /\ group_words_into_sentences [mkInterval None None (Some ("b" : str))] 50
     = Raise (KeyError "xmin").
Proof. split; vm_compute; reflexivity. Qed.

End GrouperExamples.

(** ** [seconds_to_timestamp] on the inputs of the specification *)

Example timestamp_zero :
  seconds_to_timestamp (decimal 0 1) = Ok ("00:00:00,000" : str).
Proof. vm_compute. reflexivity. Qed.

Example timestamp_125_4 :
  seconds_to_timestamp (decimal 1254 1) = Ok ("00:02:05,400" : str).
Proof. vm_compute. reflexivity. Qed.

(** C1.  The program has no carry: on 3661.9996 the fractional part times
    one thousand rounds to 1000, the seconds field stays at 01 and the
    milliseconds field is printed with four digits. *)
Theorem timestamp_3661_9996_has_no_carry :
  decimal 36619996 4 = S754_finite false 8052822282222122 (-41)
  /\ timestamp_fields (decimal 36619996 4) = Ok (mkStamp 1 1 1 1000)
  /\ seconds_to_timestamp (decimal 36619996 4) = Ok ("01:01:01,1000" : str)
  /\ seconds_to_timestamp (decimal 36619996 4) <> Ok ("01:01:02,000" : str).
Proof.
  assert (E : seconds_to_timestamp (decimal 36619996 4)
              = Ok ("01:01:01,1000" : str)) by (vm_compute; reflexivity).
  repeat split; try (vm_compute; reflexivity).
  rewrite E. discriminate.
Qed.

(** C9 as stated fails on a tie.  For 0.0625 the fractional part times one
    thousand is exactly 62.5; rounding half away from zero gives 63, and the
    program computes 62.  The floor formula for the hours fails on large
    inputs: for [2^100] the quotient by 3600 is not a double, and the hours
    field is the neighbouring double instead of the floor. *)
Lemma round_half_even_counterexample :
  (F2Q (fmul (fsub (decimal 625 4) (float_of_Z 0)) (float_of_Z 1000))
   == 125 # 2)%Q
  /\ round_half_away
       (F2Q (fmul (fsub (decimal 625 4) (float_of_Z 0)) (float_of_Z 1000)))
     = 63%Z
  /\ timestamp_fields (decimal 625 4) = Ok (mkStamp 0 0 0 62)
  /\ seconds_to_timestamp (decimal 625 4) = Ok ("00:00:00,062" : str)
  /\ F2Q (S754_finite false 4503599627370496 48) = inject_Z (2 ^ 100)
  /\ timestamp_fields (S754_finite false 4503599627370496 48)
     = Ok (mkStamp 352125166730063722332553216 36 16 0)
  /\ floor_hours (inject_Z (2 ^ 100)) = 352125166730063722637973112%Z.
Proof. repeat split; vm_compute; reflexivity. Qed.

(** ** The builtin [round] rounds to nearest, ties to even *)

Local Open Scope Z_scope.

(** The unsigned rounding step of [py_round] on [m / 2^k]. *)
Lemma round_step_nearest_even (m k : Z) :
  0 < k -> 0 <= m ->
  forall R,
    R = match m mod 2 ^ k ?= 2 ^ (k - 1) with
        | Lt => m / 2 ^ k
        | Gt => m / 2 ^ k + 1
        | Eq => if Z.even (m / 2 ^ k) then m / 2 ^ k else m / 2 ^ k + 1
        end ->
    2 * Z.abs (m - R * 2 ^ k) <= 2 ^ k
    /\ (2 * Z.abs (m - R * 2 ^ k) = 2 ^ k -> Z.even R = true).
Proof.
  intros Hk Hm R ->.
  assert (Hpow : 2 ^ k = 2 * 2 ^ (k - 1)).
  { replace k with (1 + (k - 1)) at 1 by lia.
    rewrite Z.pow_add_r by lia. reflexivity. }
  assert (Hpos : 0 < 2 ^ (k - 1)) by (apply Z.pow_pos_nonneg; lia).
  pose proof (Z.div_mod m (2 ^ k) ltac:(lia)) as Hdm.
  pose proof (Z.mod_pos_bound m (2 ^ k) ltac:(lia)) as Hb.
  set (q := m / 2 ^ k) in *. set (r := m mod 2 ^ k) in *.
  set (h := 2 ^ (k - 1)) in *.
  destruct (r ?= h) eqn:E.
  - apply Z.compare_eq in E.
    destruct (Z.even q) eqn:Ev.
    + split; [lia | intros _; exact Ev].
    + split; [lia|]. intros _. rewrite Z.even_add, Ev. reflexivity.
  - rewrite Z.compare_lt_iff in E. split; lia.
  - rewrite Z.compare_gt_iff in E. split; lia.
Qed.

Local Close Scope Z_scope.

Lemma Qabs_diff_frac (a b : Z) (d : positive) :
  (Qabs (Qmake a d - inject_Z b)
   == Qmake (Z.abs (a - b * Zpos d)) d)%Q.
Proof.
  unfold Qminus, Qplus, Qopp, inject_Z, Qabs, Qeq. simpl.
  rewrite Pos.mul_1_r.
  replace (a * 1 + - b * Zpos d)%Z with (a - b * Zpos d)%Z by lia.
  reflexivity.
Qed.

Lemma cond_Zopp_abs_diff (s : bool) (m R d : Z) :
  Z.abs (cond_Zopp s m - cond_Zopp s R * d) = Z.abs (m - R * d).
Proof. destruct s; simpl; lia. Qed.

Lemma even_cond_Zopp (s : bool) (R : Z) :
  Z.even (cond_Zopp s R) = Z.even R.
Proof. destruct s; simpl; [apply Z.even_opp | reflexivity]. Qed.

Lemma Ok_inj {A : Type} (a b : A) : Ok a = Ok b -> a = b.
Proof. intros H. injection H as H. exact H. Qed.

(** An integer is its own nearest integer. *)
Lemma nearest_even_exact (q : Q) (r : Z) :
  (q == inject_Z r)%Q -> nearest_even q r.
Proof.
  intros E. unfold nearest_even.
  assert (E0 : (q - inject_Z r == 0)%Q) by (rewrite E; ring).
  rewrite E0. split; [discriminate | intros H; discriminate H].
Qed.

(** Whatever [round] returns is a nearest integer, the even one on a
    tie. *)
Lemma py_round_nearest_even (x : float) (r : Z) :
  py_round x = Ok r -> nearest_even (F2Q x) r.
Proof.
  destruct x as [s | s | | s m e]; unfold py_round; try discriminate.
  - intros [= <-]. apply nearest_even_exact. reflexivity.
  - destruct (0 <=? e)%Z eqn:He.
    + intros [= <-]. apply nearest_even_exact.
      rewrite Z.shiftl_mul_pow2 by lia.
      replace (cond_Zopp s (Zpos m * 2 ^ e))
        with (cond_Zopp s (Zpos m) * 2 ^ e)%Z
        by (destruct s; cbn [cond_Zopp];
            [apply Z.mul_opp_l | reflexivity]).
      unfold F2Q. destruct e as [|e|k]; [reflexivity | reflexivity | discriminate].
    + assert (Hneg : (e < 0)%Z) by (apply Z.leb_gt; exact He).
      rewrite (Z.shiftr_div_pow2 (Zpos m) (- e)) by lia.
      rewrite (Z.land_ones (Zpos m) (- e)) by lia.
      rewrite (Z.shiftl_mul_pow2 1 (- e - 1)) by lia.
      rewrite Z.mul_1_l.
      intros H. apply Ok_inj in H. subst r.
      destruct e as [|e|k]; try lia.
      change (- Z.neg k)%Z with (Z.pos k).
      destruct (round_step_nearest_even (Zpos m) (Zpos k) ltac:(lia)
                  ltac:(lia) _ eq_refl) as [Hle Htie].
      set (R := match (Zpos m mod 2 ^ Zpos k ?= 2 ^ (Zpos k - 1))%Z with
                | Eq => _ | Lt => _ | Gt => _ end) in *.
      assert (Ed : Zpos (2 ^ k) = (2 ^ Zpos k)%Z) by apply Pos2Z.inj_pow.
      unfold nearest_even, F2Q.
      rewrite Qabs_diff_frac, Ed, cond_Zopp_abs_diff.
      split.
      * unfold Qle. cbn [Qnum Qden]. rewrite Ed. lia.
      * unfold Qeq. cbn [Qnum Qden]. rewrite Ed, even_cond_Zopp.
        intros H. apply Htie. lia.
Qed.

(** ** Binary64 arithmetic: exact results are returned exactly *)

Local Open Scope Z_scope.

Lemma fexp_eq (z : Z) : fexp prec emax z = Z.max (z - 53) (-1074).
Proof. reflexivity. Qed.

Lemma digits2_size (m : positive) : digits2_pos m = Pos.size m.
Proof. induction m as [m IH | m IH |]; simpl; congruence. Qed.

(** The number of binary digits of a positive integer. *)
Lemma Zdigits2_log2 (M : Z) : 0 < M -> Zdigits2 M = Z.log2 M + 1.
Proof.
  destruct M as [|m|m]; try lia. intros _. simpl.
  rewrite digits2_size.
  destruct m as [m | m |]; simpl; try reflexivity; lia.
Qed.

Lemma digits_bounds (M : Z) :
  0 < M -> 2 ^ (Zdigits2 M - 1) <= M < 2 ^ Zdigits2 M.
Proof.
  intros H. rewrite (Zdigits2_log2 M H).
  pose proof (Z.log2_spec M H) as Hs.
  replace (Z.log2 M + 1 - 1) with (Z.log2 M) by lia.
  replace (Z.log2 M + 1) with (Z.succ (Z.log2 M)) by lia. exact Hs.
Qed.

Lemma digits_mul_pow2 (M a : Z) :
  0 < M -> 0 <= a -> Zdigits2 (M * 2 ^ a) = Zdigits2 M + a.
Proof.
  intros HM Ha.
  assert (0 < 2 ^ a) by (apply Z.pow_pos_nonneg; lia).
  rewrite !Zdigits2_log2 by nia.
  rewrite Z.log2_mul_pow2 by lia. lia.
Qed.

Lemma digits_lt_pow2 (M d : Z) :
  0 < M -> M < 2 ^ d -> Zdigits2 M <= d.
Proof.
  intros HM H. rewrite (Zdigits2_log2 M HM).
  apply Z.log2_lt_pow2 in H; lia.
Qed.

Lemma digits_ge_pow2 (M d : Z) :
  0 < M -> 2 ^ d <= M -> d + 1 <= Zdigits2 M.
Proof.
  intros HM H. rewrite (Zdigits2_log2 M HM).
  apply Z.log2_le_pow2 in H; lia.
Qed.

(** *** Shifting right *)

Lemma iter_pos_eq {A : Type} (f : A -> A) (p : positive) (x : A) :
  iter_pos f p x = Pos.iter f x p.
Proof.
  revert x; induction p as [p IH | p IH |]; intros x; simpl.
  - rewrite !IH. rewrite <- !Pos.iter_swap. reflexivity.
  - rewrite !IH. reflexivity.
  - reflexivity.
Qed.

Lemma shr_1_even (h : Z) :
  0 <= h ->
  shr_1 (Build_shr_record (2 * h) false false)
  = Build_shr_record h false false.
Proof. destruct h as [|p|p]; try lia; intros _; reflexivity. Qed.

(** Shifting out zero bits is exact: nothing is recorded as lost. *)
Lemma shr_exact (p : positive) (h : Z) :
  0 <= h ->
  iter_pos shr_1 p (Build_shr_record (h * 2 ^ Zpos p) false false)
  = Build_shr_record h false false.
Proof.
  intros Hh. rewrite iter_pos_eq. revert h Hh.
  induction p as [|p IH] using Pos.peano_ind; intros h Hh.
  - cbn [Pos.iter]. replace (h * 2 ^ 1) with (2 * h) by lia.
    apply shr_1_even, Hh.
  - rewrite Pos.iter_succ.
    replace (h * 2 ^ Zpos (Pos.succ p)) with ((2 * h) * 2 ^ Zpos p).
    + rewrite IH by lia. apply shr_1_even, Hh.
    + rewrite Pos2Z.inj_succ, Z.pow_succ_r by lia. ring.
Qed.

(** The mantissa after any right shift is the quotient. *)
Lemma shr_1_m (r : shr_record) :
  0 <= shr_m r -> shr_m (shr_1 r) = shr_m r / 2.
Proof.
  destruct r as [m b s]. simpl. intros H.
  destruct m as [|[p|p|]|p]; try lia; simpl.
  - reflexivity.
  - rewrite Pos2Z.inj_xI. apply (Z.div_unique _ _ _ 1); lia.
  - rewrite Pos2Z.inj_xO. apply (Z.div_unique _ _ _ 0); lia.
  - reflexivity.
Qed.

Lemma shr_m_iter (p : positive) (r : shr_record) :
  0 <= shr_m r ->
  shr_m (iter_pos shr_1 p r) = shr_m r / 2 ^ Zpos p.
Proof.
  intros Hr. rewrite iter_pos_eq. revert r Hr.
  induction p as [|p IH] using Pos.peano_ind; intros r Hr.
  - cbn [Pos.iter]. rewrite shr_1_m by exact Hr. reflexivity.
  - rewrite Pos.iter_succ.
    assert (H0 : 0 <= shr_m (Pos.iter shr_1 r p)).
    { rewrite IH by exact Hr. apply Z.div_pos; [exact Hr|].
      apply Z.pow_pos_nonneg; lia. }
    rewrite shr_1_m by exact H0. rewrite IH by exact Hr.
    rewrite Pos2Z.inj_succ, Z.pow_succ_r by lia.
    rewrite Z.div_div by (try apply Z.pow_pos_nonneg; lia).
    f_equal. ring.
Qed.

(** *** Rounding a value that needs no rounding *)

Lemma shr_fexp_none (M e : Z) :
  fexp prec emax (Zdigits2 M + e) <= e ->
  shr_fexp prec emax M e loc_Exact = (Build_shr_record M false false, e).
Proof.
  intros H. unfold shr_fexp, shr. simpl shr_record_of_loc.
  destruct (fexp prec emax (Zdigits2 M + e) - e) eqn:E; try reflexivity. lia.
Qed.

Lemma shr_fexp_exact (h a e : Z) :
  0 < h -> 0 < a ->
  fexp prec emax (Zdigits2 (h * 2 ^ a) + e) = e + a ->
  shr_fexp prec emax (h * 2 ^ a) e loc_Exact
  = (Build_shr_record h false false, e + a).
Proof.
  intros Hh Ha H. unfold shr_fexp, shr. simpl shr_record_of_loc.
  rewrite H. replace (e + a - e) with a by lia.
  destruct a as [|p|p]; try lia.
  rewrite shr_exact by lia. reflexivity.
Qed.

(** [binary_round_aux] on a mantissa [h * 2^a] whose low [a] bits are the
    ones to drop. *)
Lemma binary_round_aux_exact (s : bool) (h a e : Z) :
  0 < h -> 0 <= a ->
  fexp prec emax (Zdigits2 h + (e + a)) <= e + a ->
  (a = 0 \/ fexp prec emax (Zdigits2 h + (e + a)) = e + a) ->
  e + a <= 971 ->
  binary_round_aux prec emax s (h * 2 ^ a) e loc_Exact
  = S754_finite s (Z.to_pos h) (e + a).
Proof.
  intros Hh Ha Hle Hcase Hmax. unfold binary_round_aux.
  assert (Hd : Zdigits2 (h * 2 ^ a) + e = Zdigits2 h + (e + a)).
  { rewrite digits_mul_pow2 by lia. lia. }
  assert (E1 : shr_fexp prec emax (h * 2 ^ a) e loc_Exact
               = (Build_shr_record h false false, e + a)).
  { destruct (Z.eq_dec a 0) as [-> | Hne].
    - rewrite Z.pow_0_r, Z.mul_1_r, Z.add_0_r in *.
      apply shr_fexp_none. exact Hle.
    - apply shr_fexp_exact; try lia. rewrite Hd. destruct Hcase; lia. }
  rewrite E1. cbn [shr_m loc_of_shr_record round_nearest_even].
  rewrite (shr_fexp_none h (e + a) Hle). cbn [shr_m].
  destruct h as [|p|p]; try lia.
  assert (E2 : (e + a <=? emax - prec) = true) by (apply Z.leb_le; exact Hmax).
  rewrite E2. reflexivity.
Qed.

Lemma pos_iter_xO (m d : positive) :
  Zpos (Pos.iter xO m d) = Zpos m * 2 ^ Zpos d.
Proof.
  induction d as [|d IH] using Pos.peano_ind.
  - simpl. lia.
  - rewrite Pos.iter_succ, Pos2Z.inj_xO, IH.
    rewrite Pos2Z.inj_succ, Z.pow_succ_r by lia. ring.
Qed.

Lemma shl_align_spec (m : positive) (e e' : Z) :
  shl_align m e e'
  = if e' <? e then (Z.to_pos (Zpos m * 2 ^ (e - e')), e') else (m, e).
Proof.
  unfold shl_align. destruct (e' - e) as [|d|d] eqn:E.
  - replace (e' <? e) with false by (symmetry; apply Z.ltb_ge; lia).
    reflexivity.
  - replace (e' <? e) with false by (symmetry; apply Z.ltb_ge; lia).
    reflexivity.
  - replace (e' <? e) with true by (symmetry; apply Z.ltb_lt; lia).
    replace (e - e') with (Zpos d) by lia.
    rewrite <- pos_iter_xO. reflexivity.
Qed.

(** *** Doubles by their value in units of [2^-1074] *)

Lemma canon_exp_ge (V : Z) : -1074 <= canon_exp V.
Proof. unfold canon_exp. lia. Qed.

Lemma canon_exp_scaled (M e : Z) :
  0 < M -> -1074 <= e ->
  canon_exp (M * 2 ^ (e + 1074)) = fexp prec emax (Zdigits2 M + e).
Proof.
  intros HM He. unfold canon_exp. rewrite fexp_eq.
  rewrite Z.log2_mul_pow2 by lia. rewrite (Zdigits2_log2 M HM). lia.
Qed.

Lemma pow2_pos (a : Z) : 0 <= a -> 0 < 2 ^ a.
Proof. intros H. apply Z.pow_pos_nonneg; lia. Qed.

Lemma pow2_split (a b : Z) : 0 <= b <= a -> 2 ^ a = 2 ^ (a - b) * 2 ^ b.
Proof.
  intros H. rewrite <- Z.pow_add_r by lia. f_equal. lia.
Qed.

(** A multiple of [2^(e+1074)] below [2^(e+1074+53)] is representable. *)
Lemma representable_multiple (V e : Z) :
  0 <= V -> -1074 <= e <= 971 ->
  V mod 2 ^ (e + 1074) = 0 -> V < 2 ^ (e + 1074 + 53) ->
  representable V.
Proof.
  intros HV He Hmod Hlt.
  assert (Hc : canon_exp V <= e).
  { unfold canon_exp. destruct (Z.eq_dec V 0) as [-> | Hne].
    - simpl. lia.
    - apply Z.log2_lt_pow2 in Hlt; lia. }
  pose proof (canon_exp_ge V) as Hge.
  split; [exact HV|]. split; [|lia].
  apply Z.mod_divide in Hmod; [|pose proof (pow2_pos (e + 1074)); lia].
  apply Z.mod_divide; [pose proof (pow2_pos (canon_exp V + 1074)); lia|].
  destruct Hmod as [k Hk].
  set (c := canon_exp V) in *.
  exists (k * 2 ^ (e - c)).
  transitivity (k * 2 ^ (e + 1074)); [exact Hk|].
  rewrite (pow2_split (e + 1074) (c + 1074)) by lia.
  replace (e + 1074 - (c + 1074)) with (e - c) by lia.
  ring.
Qed.

(** Rounding a mantissa that carries a representable value, when the
    exponent is at most the one of its double. *)
Lemma round_aux_exact_value (Q e V : Z) :
  representable V -> 0 < Q -> -1074 <= e ->
  Q * 2 ^ (e + 1074) = V -> e <= canon_exp V ->
  binary_round_aux prec emax false Q e loc_Exact = the_float V.
Proof.
  intros (HV & Hmod & Hmax) HQ He HQV Hef.
  assert (Hpos : 0 < V).
  { rewrite <- HQV. pose proof (pow2_pos (e + 1074)). nia. }
  pose proof (canon_exp_scaled Q e HQ He) as Hc. rewrite HQV in Hc.
  unfold the_float.
  replace (V =? 0) with false by (symmetry; apply Z.eqb_neq; lia).
  set (f := canon_exp V) in *.
  set (h := V / 2 ^ (f + 1074)).
  assert (HVh : V = h * 2 ^ (f + 1074)).
  { unfold h. pose proof (Z.div_mod V (2 ^ (f + 1074))
                            ltac:(pose proof (pow2_pos (f + 1074)); lia)).
    lia. }
  assert (Hm : Q = h * 2 ^ (f - e)).
  { apply (Z.mul_cancel_r _ _ (2 ^ (e + 1074)));
      [pose proof (pow2_pos (e + 1074)); lia|].
    rewrite HQV, HVh at 1.
    rewrite (pow2_split (f + 1074) (e + 1074)) by lia.
    replace (f + 1074 - (e + 1074)) with (f - e) by lia. ring. }
  assert (Hh : 0 < h).
  { pose proof (pow2_pos (f - e)). nia. }
  assert (Hdh : Zdigits2 h + (e + (f - e)) = Zdigits2 Q + e).
  { rewrite Hm. rewrite digits_mul_pow2 by lia. lia. }
  rewrite Hm. rewrite binary_round_aux_exact; try lia.
  - replace (e + (f - e)) with f by lia. reflexivity.
  - rewrite Hdh, Hc. lia.
  - right. rewrite Hdh, Hc. lia.
Qed.

(** Normalizing a representable value returns its double. *)
Lemma normalize_exact (M e V : Z) :
  representable V -> 0 <= M -> -1074 <= e ->
  M * 2 ^ (e + 1074) = V ->
  binary_normalize prec emax M e false = the_float V.
Proof.
  intros HR HM He HMV.
  destruct M as [|m|m]; try lia.
  - simpl in HMV. subst V. reflexivity.
  - assert (Hpos : 0 < V).
    { rewrite <- HMV. pose proof (pow2_pos (e + 1074)). nia. }
    pose proof (canon_exp_scaled (Zpos m) e ltac:(lia) He) as Hc.
    rewrite HMV in Hc.
    set (f := canon_exp V) in *.
    assert (Hf : -1074 <= f) by apply canon_exp_ge.
    unfold binary_normalize, binary_round.
    change (Zpos (digits2_pos m)) with (Zdigits2 (Zpos m)).
    rewrite <- Hc. rewrite shl_align_spec.
    destruct (f <? e) eqn:Efe.
    + apply Z.ltb_lt in Efe.
      set (h := Zpos m * 2 ^ (e - f)).
      assert (Hh : 0 < h) by (unfold h; pose proof (pow2_pos (e - f)); nia).
      rewrite Z2Pos.id by exact Hh.
      apply round_aux_exact_value; try assumption; try (fold f; lia).
      unfold h. rewrite <- HMV, (pow2_split (e + 1074) (f + 1074)) by lia.
      replace (e + 1074 - (f + 1074)) with (e - f) by lia. ring.
    + apply Z.ltb_ge in Efe.
      apply round_aux_exact_value; try assumption; try (fold f; lia).
Qed.

Lemma scaled_the_float (V : Z) :
  representable V -> scaled (the_float V) = V.
Proof.
  intros (HV & Hmod & Hmax). unfold the_float.
  destruct (V =? 0) eqn:E; [apply Z.eqb_eq in E; subst; reflexivity|].
  apply Z.eqb_neq in E. cbn [scaled cond_Zopp].
  pose proof (canon_exp_ge V) as Hge.
  pose proof (pow2_pos (canon_exp V + 1074) ltac:(lia)) as Hp.
  pose proof (Z.div_mod V (2 ^ (canon_exp V + 1074)) ltac:(lia)) as Hdm.
  rewrite Z2Pos.id; [lia|].
  assert (0 <= V / 2 ^ (canon_exp V + 1074)) by (apply Z.div_pos; lia).
  nia.
Qed.

Lemma valid_the_float (V : Z) : representable V -> valid (the_float V).
Proof.
  intros (HV & Hmod & Hmax). unfold the_float, valid.
  destruct (V =? 0) eqn:E; [reflexivity|].
  apply Z.eqb_neq in E. cbn [valid_binary].
  pose proof (canon_exp_ge V) as Hge.
  set (f := canon_exp V) in *.
  pose proof (pow2_pos (f + 1074) ltac:(lia)) as Hp.
  pose proof (Z.div_mod V (2 ^ (f + 1074)) ltac:(lia)) as Hdm.
  set (h := V / 2 ^ (f + 1074)) in *.
  assert (Hh : 0 < h) by nia.
  unfold bounded, canonical_mantissa.
  change (Zpos (digits2_pos (Z.to_pos h))) with (Zdigits2 (Zpos (Z.to_pos h))).
  rewrite Z2Pos.id by exact Hh.
  assert (Hc : canon_exp (h * 2 ^ (f + 1074))
               = fexp prec emax (Zdigits2 h + f))
    by (apply canon_exp_scaled; lia).
  replace (h * 2 ^ (f + 1074)) with V in Hc by lia.
  fold f in Hc. rewrite <- Hc.
  rewrite Z.eqb_refl. cbn [andb]. apply Z.leb_le. exact Hmax.
Qed.

(** A valid non-negative double is the double of its scaled value. *)
Lemma valid_is_the_float (m : positive) (e : Z) :
  valid (S754_finite false m e) ->
  -1074 <= e <= 971
  /\ representable (scaled (S754_finite false m e))
  /\ S754_finite false m e = the_float (scaled (S754_finite false m e)).
Proof.
  unfold valid. cbn [valid_binary scaled cond_Zopp].
  unfold bounded, canonical_mantissa.
  intros H. apply andb_prop in H. destruct H as [Hc Hb].
  apply Z.eqb_eq in Hc. apply Z.leb_le in Hb.
  change (Zpos (digits2_pos m)) with (Zdigits2 (Zpos m)) in Hc.
  assert (He : -1074 <= e) by (rewrite fexp_eq in Hc; lia).
  change (emax - prec) with 971 in Hb.
  pose proof (canon_exp_scaled (Zpos m) e ltac:(lia) He) as Hce.
  rewrite Hc in Hce.
  pose proof (pow2_pos (e + 1074) ltac:(lia)) as Hp.
  split; [lia|]. split.
  - split; [nia|]. split; [|lia].
    rewrite Hce. apply Z.mod_mul. lia.
  - unfold the_float.
    replace (Zpos m * 2 ^ (e + 1074) =? 0) with false
      by (symmetry; apply Z.eqb_neq; nia).
    rewrite Hce, Z.div_mul by lia. reflexivity.
Qed.

Lemma valid_bounds (s : bool) (m : positive) (e : Z) :
  valid (S754_finite s m e) -> Zpos m < 2 ^ 53 /\ -1074 <= e <= 971.
Proof.
  unfold valid. cbn [valid_binary]. unfold bounded, canonical_mantissa.
  intros H. apply andb_prop in H. destruct H as [Hc Hb].
  apply Z.eqb_eq in Hc. apply Z.leb_le in Hb.
  change (Zpos (digits2_pos m)) with (Zdigits2 (Zpos m)) in Hc.
  change (emax - prec) with 971 in Hb. rewrite fexp_eq in Hc.
  split; [|lia].
  pose proof (digits_bounds (Zpos m) ltac:(lia)) as [_ Hlt].
  eapply Z.lt_le_trans; [exact Hlt|].
  apply Z.pow_le_mono_r; lia.
Qed.

Lemma scaled_lt (m : positive) (e : Z) :
  valid (S754_finite false m e) ->
  0 < scaled (S754_finite false m e) < 2 ^ (e + 1074 + 53).
Proof.
  intros H. destruct (valid_bounds _ _ _ H) as [Hm He].
  cbn [scaled cond_Zopp].
  pose proof (pow2_pos (e + 1074) ltac:(lia)) as Hp.
  split; [nia|].
  rewrite (Z.pow_add_r 2 (e + 1074) 53) by lia. nia.
Qed.

(** *** The remainder *)

Lemma c_fmod_exact (mx my : positive) (ex ey : Z) :
  valid (S754_finite false mx ex) -> valid (S754_finite false my ey) ->
  representable (scaled (S754_finite false mx ex)
                 mod scaled (S754_finite false my ey))
  /\ c_fmod (S754_finite false mx ex) (S754_finite false my ey)
     = the_float (scaled (S754_finite false mx ex)
                  mod scaled (S754_finite false my ey)).
Proof.
  intros Hx Hy.
  destruct (valid_bounds _ _ _ Hx) as [Hmx Hex].
  destruct (valid_bounds _ _ _ Hy) as [Hmy Hey].
  pose proof (scaled_lt _ _ Hx) as Hsx. pose proof (scaled_lt _ _ Hy) as Hsy.
  cbn [scaled cond_Zopp] in *. cbn [c_fmod].
  remember (Z.min ex ey) as e eqn:Ee.
  assert (He : -1074 <= e <= 971) by lia.
  assert (Hee : e <= ex /\ e <= ey) by lia.
  pose proof (pow2_pos (e + 1074) ltac:(lia)) as Hp.
  rewrite !Z.shiftl_mul_pow2 by lia.
  set (X := Zpos mx * 2 ^ (ex - e)). set (Y := Zpos my * 2 ^ (ey - e)).
  assert (HX : X * 2 ^ (e + 1074) = Zpos mx * 2 ^ (ex + 1074)).
  { unfold X. rewrite (pow2_split (ex + 1074) (e + 1074)) by lia.
    replace (ex + 1074 - (e + 1074)) with (ex - e) by lia. ring. }
  assert (HY : Y * 2 ^ (e + 1074) = Zpos my * 2 ^ (ey + 1074)).
  { unfold Y. rewrite (pow2_split (ey + 1074) (e + 1074)) by lia.
    replace (ey + 1074 - (e + 1074)) with (ey - e) by lia. ring. }
  assert (HYpos : 0 < Y).
  { unfold Y. pose proof (pow2_pos (ey - e) ltac:(lia)). nia. }
  assert (HV : (X mod Y) * 2 ^ (e + 1074)
               = (Zpos mx * 2 ^ (ex + 1074)) mod (Zpos my * 2 ^ (ey + 1074))).
  { rewrite <- HX, <- HY. rewrite Z.mul_mod_distr_r by lia. reflexivity. }
  pose proof (Z.mod_pos_bound X Y HYpos) as Hb.
  assert (HR : representable ((Zpos mx * 2 ^ (ex + 1074))
                              mod (Zpos my * 2 ^ (ey + 1074)))).
  { rewrite <- HV. apply (representable_multiple _ e).
    - nia.
    - exact He.
    - apply Z.mod_mul. lia.
    - destruct (Z.le_ge_cases ex ey) as [Hle | Hge].
      + (* the remainder is at most the dividend *)
        assert (Eex : e = ex) by lia.
        assert (X mod Y <= X).
        { apply Z.mod_le; [|exact HYpos].
          unfold X. pose proof (pow2_pos (ex - e) ltac:(lia)). nia. }
        apply (Z.le_lt_trans _ (X * 2 ^ (e + 1074))); [nia|].
        rewrite HX, Eex. exact (proj2 Hsx).
      + (* the remainder is below the divisor *)
        assert (Eey : e = ey) by lia.
        apply (Z.lt_trans _ (Y * 2 ^ (e + 1074))); [nia|].
        rewrite HY, Eey. exact (proj2 Hsy). }
  split; [exact HR|].
  cbn [cond_Zopp].
  apply normalize_exact; [exact HR | lia | lia | exact HV].
Qed.

(** *** The difference *)

Lemma shl_align_value (m : positive) (e ez : Z) :
  ez <= e ->
  Zpos (fst (shl_align m e ez)) = Zpos m * 2 ^ (e - ez).
Proof.
  intros H. rewrite shl_align_spec. destruct (ez <? e) eqn:E; cbn [fst].
  - apply Z.ltb_lt in E. rewrite Z2Pos.id; [reflexivity|].
    pose proof (pow2_pos (e - ez) ltac:(lia)). nia.
  - apply Z.ltb_ge in E. replace (e - ez) with 0 by lia.
    rewrite Z.pow_0_r. lia.
Qed.

Lemma fsub_exact (mx my : positive) (ex ey : Z) :
  valid (S754_finite false mx ex) -> valid (S754_finite false my ey) ->
  scaled (S754_finite false my ey) <= scaled (S754_finite false mx ex) ->
  representable (scaled (S754_finite false mx ex)
                 - scaled (S754_finite false my ey)) ->
  fsub (S754_finite false mx ex) (S754_finite false my ey)
  = the_float (scaled (S754_finite false mx ex)
               - scaled (S754_finite false my ey)).
Proof.
  intros Hx Hy Hle HR.
  destruct (valid_bounds _ _ _ Hx) as [Hmx Hex].
  destruct (valid_bounds _ _ _ Hy) as [Hmy Hey].
  cbn [scaled cond_Zopp] in *. unfold fsub. cbn [SFsub cond_Zopp].
  remember (Z.min ex ey) as e eqn:Ee.
  assert (He : -1074 <= e <= 971) by lia.
  assert (Hee : e <= ex /\ e <= ey) by lia.
  pose proof (pow2_pos (e + 1074) ltac:(lia)) as Hp.
  rewrite !shl_align_value by lia.
  assert (HX : Zpos mx * 2 ^ (ex - e) * 2 ^ (e + 1074)
               = Zpos mx * 2 ^ (ex + 1074)).
  { rewrite (pow2_split (ex + 1074) (e + 1074)) by lia.
    replace (ex + 1074 - (e + 1074)) with (ex - e) by lia. ring. }
  assert (HY : Zpos my * 2 ^ (ey - e) * 2 ^ (e + 1074)
               = Zpos my * 2 ^ (ey + 1074)).
  { rewrite (pow2_split (ey + 1074) (e + 1074)) by lia.
    replace (ey + 1074 - (e + 1074)) with (ey - e) by lia. ring. }
  apply normalize_exact; [exact HR | nia | lia | nia].
Qed.

(** *** The quotient *)

Lemma normal_digits (m : positive) :
  2 ^ 52 <= Zpos m < 2 ^ 53 -> Zdigits2 (Zpos m) = 53.
Proof.
  intros [Hlo Hhi].
  pose proof (digits_ge_pow2 (Zpos m) 52 ltac:(lia) Hlo).
  pose proof (digits_lt_pow2 (Zpos m) 53 ltac:(lia) Hhi). lia.
Qed.

Lemma div_eucl_pair (a b : Z) : Z.div_eucl a b = (a / b, a mod b).
Proof. unfold Z.div, Z.modulo. destruct (Z.div_eucl a b). reflexivity. Qed.

Lemma new_location_zero (nb : Z) : new_location nb 0 = loc_Exact.
Proof.
  unfold new_location, new_location_even, new_location_odd.
  destruct (Z.even nb); reflexivity.
Qed.

(** The exponents of two normal doubles whose quotient is an integer
    below [2^53]. *)
Lemma quotient_exponents (mt my et ey n : Z) :
  2 ^ 52 <= mt < 2 ^ 53 -> 2 ^ 52 <= my < 2 ^ 53 -> 0 < n < 2 ^ 53 ->
  -1074 <= et -> -1074 <= ey ->
  mt * 2 ^ (et + 1074) = n * (my * 2 ^ (ey + 1074)) ->
  0 <= et - ey <= 53 /\ mt * 2 ^ (et - ey) = n * my.
Proof.
  intros Hmt Hmy Hn Het Hey H.
  assert (Hk : 0 <= et - ey).
  { destruct (Z.le_gt_cases ey et) as [|Hlt]; [lia|]. exfalso.
    rewrite (pow2_split (ey + 1074) (et + 1074)) in H by lia.
    replace (ey + 1074 - (et + 1074)) with (ey - et) in H by lia.
    pose proof (pow2_pos (et + 1074) ltac:(lia)).
    assert (E : mt = n * my * 2 ^ (ey - et)).
    { apply (Z.mul_cancel_r _ _ (2 ^ (et + 1074))); lia. }
    assert (H2 : 2 ^ 1 <= 2 ^ (ey - et)) by (apply Z.pow_le_mono_r; lia).
    change (2 ^ 1) with 2 in H2.
    assert (H3 : my <= n * my) by nia.
    assert (H4 : 2 * (n * my) <= n * my * 2 ^ (ey - et)) by nia.
    change (2 ^ 53) with (2 * 2 ^ 52) in Hmt. lia. }
  rewrite (pow2_split (et + 1074) (ey + 1074)) in H by lia.
  replace (et + 1074 - (ey + 1074)) with (et - ey) in H by lia.
  pose proof (pow2_pos (ey + 1074) ltac:(lia)).
  assert (E : mt * 2 ^ (et - ey) = n * my).
  { apply (Z.mul_cancel_r _ _ (2 ^ (ey + 1074))); lia. }
  split; [|exact E]. split; [exact Hk|].
  destruct (Z.le_gt_cases (et - ey) 53) as [|Hgt]; [lia|]. exfalso.
  assert (2 ^ 54 <= 2 ^ (et - ey)) by (apply Z.pow_le_mono_r; lia).
  assert (n * my < 2 ^ 53 * 2 ^ 53) by nia.
  assert (2 ^ 52 * 2 ^ 54 <= mt * 2 ^ (et - ey)) by nia.
  change (2 ^ 52 * 2 ^ 54) with (2 ^ 53 * 2 ^ 53) in *. lia.
Qed.

Lemma representable_integer (n : Z) :
  0 <= n < 2 ^ 53 -> representable (n * 2 ^ 1074).
Proof.
  intros Hn. pose proof (pow2_pos 1074 ltac:(lia)) as Hp.
  apply (representable_multiple _ 0).
  - apply Z.mul_nonneg_nonneg; lia.
  - lia.
  - apply Z.mod_mul. change (0 + 1074) with 1074. lia.
  - change (0 + 1074 + 53) with (53 + 1074).
    rewrite (Z.pow_add_r 2 53 1074) by lia.
    apply Z.mul_lt_mono_pos_r; lia.
Qed.

Lemma fdiv_exact (mt my : positive) (et ey n : Z) :
  valid (S754_finite false mt et) -> valid (S754_finite false my ey) ->
  2 ^ 52 <= Zpos mt -> 2 ^ 52 <= Zpos my -> 0 < n < 2 ^ 53 ->
  scaled (S754_finite false mt et) = n * scaled (S754_finite false my ey) ->
  fdiv (S754_finite false mt et) (S754_finite false my ey)
  = the_float (n * 2 ^ 1074).
Proof.
  intros Ht Hy Hmt Hmy Hn Hs.
  destruct (valid_bounds _ _ _ Ht) as [Hmt' Het].
  destruct (valid_bounds _ _ _ Hy) as [Hmy' Hey].
  cbn [scaled cond_Zopp] in Hs.
  destruct (quotient_exponents (Zpos mt) (Zpos my) et ey n) as [Hk E];
    try lia.
  unfold fdiv. cbn [SFdiv xorb]. unfold SFdiv_core_binary.
  rewrite (normal_digits mt) by lia. rewrite (normal_digits my) by lia.
  replace (53 + et - (53 + ey)) with (et - ey) by lia.
  rewrite fexp_eq.
  replace (Z.min (Z.max (et - ey - 53) (-1074)) (et - ey))
    with (et - ey - 53) by lia.
  replace (et - ey - (et - ey - 53)) with 53 by lia.
  cbv iota. rewrite Z.shiftl_mul_pow2 by lia.
  rewrite div_eucl_pair.
  set (k := et - ey) in *.
  assert (Hm' : Zpos mt * 2 ^ 53 = n * 2 ^ (53 - k) * Zpos my).
  { rewrite (pow2_split 53 k) by lia.
    transitivity (Zpos mt * 2 ^ k * 2 ^ (53 - k)); [ring|].
    rewrite E. ring. }
  rewrite Hm'. rewrite Z.div_mul, Z.mod_mul by lia.
  rewrite new_location_zero.
  pose proof (pow2_pos (53 - k) ltac:(lia)) as Hp.
  apply round_aux_exact_value.
  - apply representable_integer. lia.
  - nia.
  - lia.
  - rewrite <- Z.mul_assoc, <- Z.pow_add_r by lia.
    do 2 f_equal. lia.
  - (* the quotient has at least 53 digits *)
    pose proof (canon_exp_scaled n 0 ltac:(lia) ltac:(lia)) as Hc.
    change (0 + 1074) with 1074 in Hc. rewrite Hc, fexp_eq.
    assert (Hdn : k <= Zdigits2 n).
    { destruct (Z.eq_dec k 0) as [-> | Hk0].
      - pose proof (digits_ge_pow2 n 0 ltac:(lia) ltac:(simpl; lia)). lia.
      - pose proof (digits_ge_pow2 n (k - 1) ltac:(lia)) as Hd.
        assert (2 ^ (k - 1) <= n); [|lia].
        pose proof (pow2_pos (k - 1) ltac:(lia)) as Hp1.
        rewrite (pow2_split k (k - 1)) in E by lia.
        replace (k - (k - 1)) with 1 in E by lia.
        change (2 ^ 1) with 2 in E.
        destruct (Z.le_gt_cases (2 ^ (k - 1)) n) as [|Hlt]; [assumption|].
        exfalso.
        assert (n * Zpos my < 2 ^ (k - 1) * 2 ^ 53) by nia.
        assert (2 ^ 52 * (2 * 2 ^ (k - 1)) <= Zpos mt * (2 * 2 ^ (k - 1)))
          by nia.
        change (2 ^ 53) with (2 ^ 52 * 2) in *. nia. }
    lia.
Qed.

(** *** Integers *)

Lemma representable_zero : representable 0.
Proof. apply (representable_integer 0). lia. Qed.

(** The shape of the double of a positive value. *)
Lemma the_float_finite (V : Z) :
  representable V -> 0 < V ->
  exists m, the_float V = S754_finite false m (canon_exp V)
            /\ Zpos m * 2 ^ (canon_exp V + 1074) = V
            /\ (2 ^ 52 <= V -> 2 ^ 52 <= Zpos m).
Proof.
  intros (HV & Hmod & Hmax) Hpos.
  pose proof (canon_exp_ge V) as Hge.
  pose proof (pow2_pos (canon_exp V + 1074) ltac:(lia)) as Hp.
  pose proof (Z.div_mod V (2 ^ (canon_exp V + 1074)) ltac:(lia)) as Hdm.
  assert (Hh : 0 < V / 2 ^ (canon_exp V + 1074)).
  { assert (0 <= V / 2 ^ (canon_exp V + 1074)) by (apply Z.div_pos; lia).
    nia. }
  exists (Z.to_pos (V / 2 ^ (canon_exp V + 1074))).
  rewrite Z2Pos.id by exact Hh.
  split; [|split].
  - unfold the_float.
    replace (V =? 0) with false by (symmetry; apply Z.eqb_neq; lia).
    reflexivity.
  - lia.
  - intros H52.
    assert (Hl : 52 <= Z.log2 V) by (apply Z.log2_le_pow2; lia).
    assert (Ec : canon_exp V = Z.log2 V - 1126) by (unfold canon_exp; lia).
    pose proof (Z.log2_spec V Hpos) as [Hlo _].
    rewrite Ec in *.
    replace (Z.log2 V - 1126 + 1074) with (Z.log2 V - 52) in * by lia.
    rewrite (pow2_split (Z.log2 V) (Z.log2 V - 52)) in Hlo by lia.
    replace (Z.log2 V - (Z.log2 V - 52)) with 52 in Hlo by lia.
    apply Z.div_le_lower_bound; lia.
Qed.

Lemma shiftl_negative (m f : Z) : f < 0 -> Z.shiftl m f = m / 2 ^ (- f).
Proof.
  intros H. rewrite <- Z.shiftr_opp_r. apply Z.shiftr_div_pow2. lia.
Qed.

(** Truncating the double of [V] gives [V / 2^1074]. *)
Lemma py_int_the_float (V : Z) :
  representable V -> py_int (the_float V) = Ok (V / 2 ^ 1074).
Proof.
  intros HR. destruct (Z.eq_dec V 0) as [-> | Hne]; [reflexivity|].
  assert (Hpos : 0 < V) by (destruct HR; lia).
  destruct (the_float_finite V HR Hpos) as (m & -> & HmV & _).
  pose proof (canon_exp_ge V) as Hge. set (f := canon_exp V) in *.
  cbn [py_int cond_Zopp]. f_equal.
  pose proof (pow2_pos 1074 ltac:(lia)) as HU.
  destruct (Z.le_gt_cases 0 f) as [Hf | Hf].
  - rewrite Z.shiftl_mul_pow2 by lia.
    rewrite <- HmV, Z.pow_add_r, Z.mul_assoc, Z.div_mul by lia. reflexivity.
  - rewrite shiftl_negative by lia.
    rewrite <- HmV.
    rewrite (pow2_split 1074 (f + 1074)) by lia.
    replace (1074 - (f + 1074)) with (- f) by lia.
    rewrite Z.div_mul_cancel_r;
      [reflexivity | pose proof (pow2_pos (- f) ltac:(lia)); lia
       | pose proof (pow2_pos (f + 1074) ltac:(lia)); lia].
Qed.

(** The floor of an integer-valued double is the double itself. *)
Lemma c_floor_integer (n : Z) :
  0 <= n < 2 ^ 53 -> c_floor (the_float (n * 2 ^ 1074)) = the_float (n * 2 ^ 1074).
Proof.
  intros Hn. pose proof (representable_integer n Hn) as HR.
  pose proof (pow2_pos 1074 ltac:(lia)) as HU.
  destruct (Z.eq_dec n 0) as [-> | Hne]; [reflexivity|].
  assert (Hpos : 0 < n * 2 ^ 1074) by (apply Z.mul_pos_pos; lia).
  pose proof (py_int_the_float _ HR) as Hint.
  destruct (the_float_finite _ HR Hpos) as (m & E & HmV & _).
  rewrite E in *. cbn [py_int cond_Zopp] in Hint.
  apply Ok_inj in Hint. rewrite Z.div_mul in Hint by lia.
  cbn [c_floor cond_Zopp].
  destruct (0 <=? canon_exp (n * 2 ^ 1074)); [reflexivity|].
  rewrite Hint. rewrite <- E.
  apply normalize_exact; try lia. exact HR.
Qed.

Lemma fsub_self (m : positive) (e : Z) :
  valid (S754_finite false m e) ->
  fsub (S754_finite false m e) (S754_finite false m e) = S754_zero false.
Proof.
  intros H. rewrite fsub_exact; try assumption; try lia.
  - rewrite Z.sub_diag. reflexivity.
  - rewrite Z.sub_diag. exact representable_zero.
Qed.

(** *** [%] and [//] on non-negative doubles *)

Lemma lt0_the_float (V : Z) : lt0 (the_float V) = false.
Proof. unfold the_float. destruct (V =? 0); reflexivity. Qed.

Lemma c_true_the_float (V : Z) : c_true (the_float V) = negb (V =? 0).
Proof. unfold the_float. destruct (V =? 0); reflexivity. Qed.

Lemma scaled_nonneg (x : float) : finite_nonneg x -> 0 <= scaled x.
Proof.
  destruct x as [s | s | | s m e]; simpl; try lia; try contradiction.
  intros ->. cbn [cond_Zopp]. apply Z.mul_nonneg_nonneg; [lia|].
  apply Z.pow_nonneg. lia.
Qed.

Lemma py_mod_exact (x : float) (my : positive) (ey : Z) :
  finite_nonneg x -> valid x -> valid (S754_finite false my ey) ->
  representable (scaled x mod scaled (S754_finite false my ey))
  /\ py_mod x (S754_finite false my ey)
     = Ok (the_float (scaled x mod scaled (S754_finite false my ey))).
Proof.
  intros Hx Hvx Hy.
  destruct x as [s | s | | s mx ex]; try contradiction.
  - cbn [scaled]. rewrite Zmod_0_l. split; [exact representable_zero|].
    reflexivity.
  - cbn [finite_nonneg] in Hx. subst s.
    destruct (c_fmod_exact mx my ex ey Hvx Hy) as [HR E].
    split; [exact HR|].
    unfold py_mod. rewrite E.
    change (SFeqb (S754_finite false my ey) fzero) with false. cbv iota.
    rewrite c_true_the_float, lt0_the_float.
    change (lt0 (S754_finite false my ey)) with false. cbn [xorb].
    set (R := scaled (S754_finite false mx ex)
              mod scaled (S754_finite false my ey)).
    destruct (R =? 0) eqn:ER; cbn [negb]; [|reflexivity].
    apply Z.eqb_eq in ER. rewrite ER. reflexivity.
Qed.

Lemma py_floordiv_exact (x : float) (my : positive) (ey Y : Z) :
  finite_nonneg x -> valid x -> valid (S754_finite false my ey) ->
  2 ^ 52 <= Zpos my ->
  scaled (S754_finite false my ey) = Y * 2 ^ 1074 -> 0 < Y ->
  scaled x < 2 ^ 53 * 2 ^ 1074 ->
  exists F, py_floordiv x (S754_finite false my ey) = Ok F
            /\ py_int F = Ok (scaled x / scaled (S754_finite false my ey)).
Proof.
  intros Hx Hvx Hy Hmy HY HYpos Hlt.
  pose proof (pow2_pos 1074 ltac:(lia)) as HU.
  destruct x as [s | s | | s mx ex]; try contradiction.
  - (* zero *)
    exists (S754_zero (sign_bit (fdiv (S754_zero s) (S754_finite false my ey)))).
    split; [destruct s; reflexivity | reflexivity].
  - cbn [finite_nonneg] in Hx. subst s.
    set (x := S754_finite false mx ex) in *.
    set (y := S754_finite false my ey) in *.
    assert (Hsy : 0 < scaled y) by (rewrite HY; apply Z.mul_pos_pos; lia).
    pose proof (scaled_lt mx ex Hvx) as [Hsx _]. fold x in Hsx.
    destruct (c_fmod_exact mx my ex ey Hvx Hy) as [HR E]. fold x y in HR, E.
    set (R := scaled x mod scaled y) in *.
    set (n := scaled x / scaled y).
    pose proof (Z.div_mod (scaled x) (scaled y) ltac:(lia)) as Hdm.
    fold n R in Hdm.
    pose proof (Z.mod_pos_bound (scaled x) (scaled y) Hsy) as HRb. fold R in HRb.
    assert (Hn0 : 0 <= n) by (apply Z.div_pos; lia).
    assert (HnY : 0 <= n * Y < 2 ^ 53).
    { split; [apply Z.mul_nonneg_nonneg; lia|].
      apply (Z.mul_lt_mono_pos_r (2 ^ 1074)); [lia|].
      rewrite <- Z.mul_assoc, <- HY. lia. }
    assert (Hn : n < 2 ^ 53) by nia.
    assert (Hq : scaled x - R = n * Y * 2 ^ 1074)
      by (rewrite <- Z.mul_assoc, <- HY; lia).
    assert (HRq : representable (scaled x - R))
      by (rewrite Hq; apply representable_integer; exact HnY).
    (* the dividend minus the remainder *)
    assert (Et : fsub x (the_float R) = the_float (n * Y * 2 ^ 1074)).
    { rewrite <- Hq. destruct (Z.eq_dec R 0) as [ER | ER].
      - rewrite ER, Z.sub_0_r.
        destruct (valid_is_the_float mx ex Hvx) as (_ & _ & Ex).
        fold x in Ex. rewrite <- Ex. reflexivity.
      - destruct (the_float_finite R HR ltac:(lia)) as (mr & Er & HmR & _).
        pose proof (valid_the_float R HR) as Hvr.
        pose proof (scaled_the_float R HR) as Hsr.
        rewrite Er in Hvr, Hsr. rewrite Er.
        pose proof (fsub_exact mx mr ex (canon_exp R) Hvx Hvr) as Hsub.
        rewrite Hsr in Hsub. fold x in Hsub.
        apply Hsub; [lia | exact HRq]. }
    unfold py_floordiv.
    change (SFeqb y fzero) with false. cbv iota. cbv zeta.
    rewrite E, Et. rewrite lt0_the_float.
    change (lt0 y) with false. cbn [xorb]. rewrite andb_false_r.
    destruct (Z.eq_dec n 0) as [En | En].
    + (* the quotient is zero *)
      rewrite En. cbn [Z.mul].
      change (the_float 0) with (S754_zero false).
      change (fdiv (S754_zero false) y) with (S754_zero false).
      change (c_true (S754_zero false)) with false. cbv iota.
      eexists. split; reflexivity.
    + assert (Hn1 : 0 < n < 2 ^ 53) by lia.
      assert (HV : 0 < n * Y * 2 ^ 1074)
        by (apply Z.mul_pos_pos; [apply Z.mul_pos_pos|]; lia).
      pose proof (representable_integer (n * Y) HnY) as HRt.
      destruct (the_float_finite _ HRt HV) as (mt & Emt & _ & Hnorm).
      pose proof (valid_the_float _ HRt) as Hvt.
      pose proof (scaled_the_float _ HRt) as Hst.
      rewrite Emt in *.
      assert (Ediv : fdiv (S754_finite false mt (canon_exp (n * Y * 2 ^ 1074))) y
                     = the_float (n * 2 ^ 1074)).
      { apply fdiv_exact; try assumption.
        - apply Hnorm.
          apply (Z.le_trans _ (1 * 2 ^ 1074)).
          + rewrite Z.mul_1_l. apply Z.pow_le_mono_r; lia.
          + apply Z.mul_le_mono_nonneg_r; nia.
        - fold y. rewrite Hst, HY. ring. }
      rewrite Ediv.
      pose proof (representable_integer n ltac:(lia)) as HRn.
      assert (HVn : 0 < n * 2 ^ 1074) by (apply Z.mul_pos_pos; lia).
      rewrite c_true_the_float.
      replace (n * 2 ^ 1074 =? 0) with false
        by (symmetry; apply Z.eqb_neq; lia).
      cbn [negb]. cbv iota.
      rewrite c_floor_integer by lia.
      destruct (the_float_finite _ HRn HVn) as (mn & Emn & _ & _).
      pose proof (valid_the_float _ HRn) as Hvn.
      rewrite Emn in Hvn.
      assert (Eself : fsub (the_float (n * 2 ^ 1074))
                           (the_float (n * 2 ^ 1074)) = S754_zero false)
        by (rewrite Emn; apply fsub_self; exact Hvn).
      rewrite Eself.
      change (SFltb (decimal 5 1) (S754_zero false)) with false. cbv iota.
      eexists. split; [reflexivity|].
      rewrite py_int_the_float by exact HRn.
      rewrite Z.div_mul by lia. reflexivity.
Qed.

(** *** A product that does not overflow *)

Lemma round_nearest_even_bounds (m : Z) (l : location) :
  m <= round_nearest_even m l <= m + 1.
Proof.
  destruct l as [|[| |]]; simpl; try lia. destruct (Z.even m); lia.
Qed.

Lemma round_result_finite (s : bool) (m e : Z) :
  0 <= m -> e <= 971 ->
  finite_or_zero
    match m with
    | 0 => S754_zero s
    | Zpos p => if e <=? emax - prec then S754_finite s p e
                else S754_infinity s
    | Zneg _ => S754_nan
    end.
Proof.
  intros Hm He. destruct m as [|p|p]; try lia; [exact I|].
  replace (e <=? emax - prec) with true; [exact I|].
  symmetry. apply Z.leb_le. exact He.
Qed.

Lemma shr_fexp_bounds (M e : Z) (l : location) :
  0 <= M ->
  0 <= shr_m (fst (shr_fexp prec emax M e l))
  /\ snd (shr_fexp prec emax M e l)
     = Z.max e (fexp prec emax (Zdigits2 M + e))
  /\ (0 < M -> shr_m (fst (shr_fexp prec emax M e l)) < 2 ^ 53
               \/ fexp prec emax (Zdigits2 M + e) <= e).
Proof.
  intros HM. unfold shr_fexp, shr.
  assert (Hrec : shr_m (shr_record_of_loc M l) = M)
    by (destruct l as [|[| |]]; reflexivity).
  destruct (fexp prec emax (Zdigits2 M + e) - e) as [|p|p] eqn:E;
    cbn [fst snd].
  - rewrite Hrec. split; [lia|]. split; [lia|]. intros _. right. lia.
  - rewrite shr_m_iter by (rewrite Hrec; lia). rewrite Hrec.
    pose proof (pow2_pos (Zpos p) ltac:(lia)) as Hp.
    split; [apply Z.div_pos; lia|]. split; [lia|].
    intros HMpos. left.
    apply Z.div_lt_upper_bound; [lia|].
    pose proof (digits_bounds M HMpos) as [_ Hlt].
    eapply Z.lt_le_trans; [exact Hlt|].
    rewrite <- Z.pow_add_r by lia.
    apply Z.pow_le_mono_r; [lia|]. rewrite fexp_eq in E. lia.
  - rewrite Hrec. split; [lia|]. split; [lia|]. intros _. right. lia.
Qed.

(** Rounding a positive mantissa of moderate size yields a finite
    double. *)
Lemma binary_round_aux_no_overflow (s : bool) (M e : Z) :
  0 < M -> e <= 970 -> Zdigits2 M + e <= 1023 ->
  finite_or_zero (binary_round_aux prec emax s M e loc_Exact).
Proof.
  intros HM He Hd. unfold binary_round_aux.
  pose proof (shr_fexp_bounds M e loc_Exact ltac:(lia)) as (H0 & He' & Hsz).
  destruct (shr_fexp prec emax M e loc_Exact) as [mrs' e'] eqn:E1.
  cbn [fst snd] in *.
  set (M1 := round_nearest_even (shr_m mrs') (loc_of_shr_record mrs')).
  pose proof (round_nearest_even_bounds (shr_m mrs')
                (loc_of_shr_record mrs')) as HM1. fold M1 in HM1.
  pose proof (shr_fexp_bounds M1 e' loc_Exact ltac:(lia)) as (H1 & He'' & _).
  destruct (shr_fexp prec emax M1 e' loc_Exact) as [mrs'' e''] eqn:E2.
  cbn [fst snd] in *.
  apply round_result_finite; [exact H1|].
  rewrite He''. rewrite fexp_eq in *.
  assert (Hd1 : Zdigits2 M1 + e' - 53 <= 971).
  { destruct (Z.eq_dec M1 0) as [-> | Hne]; [simpl; lia|].
    destruct (Hsz HM) as [Hlt | Hle].
    - assert (M1 < 2 ^ 54).
      { change (2 ^ 54) with (2 ^ 53 + 2 ^ 53). lia. }
      pose proof (digits_lt_pow2 M1 54 ltac:(lia) ltac:(assumption)). lia.
    - (* no shift: the mantissa is unchanged *)
      assert (Emrs : mrs' = Build_shr_record M false false /\ e' = e).
      { rewrite shr_fexp_none in E1 by (rewrite fexp_eq; exact Hle).
        injection E1 as <- <-. auto. }
      destruct Emrs as [-> ->]. unfold M1. simpl. lia. }
  lia.
Qed.

Lemma py_round_total (x : float) :
  finite_or_zero x -> exists r, py_round x = Ok r.
Proof.
  destruct x as [s | s | | s m e]; try contradiction; intros _.
  - exists 0. reflexivity.
  - unfold py_round. destruct (0 <=? e); eexists; reflexivity.
Qed.

Lemma fmul_finite (m1 m2 : positive) (e1 e2 : Z) :
  Zpos m1 < 2 ^ 53 -> Zpos m2 < 2 ^ 53 -> e1 + e2 <= 900 ->
  finite_or_zero (fmul (S754_finite false m1 e1) (S754_finite false m2 e2)).
Proof.
  intros H1 H2 He. unfold fmul. cbn [SFmul xorb].
  apply binary_round_aux_no_overflow; try lia.
  rewrite Pos2Z.inj_mul.
  assert (Zpos m1 * Zpos m2 < 2 ^ 106).
  { change (2 ^ 106) with (2 ^ 53 * 2 ^ 53). nia. }
  pose proof (digits_lt_pow2 (Zpos m1 * Zpos m2) 106 ltac:(lia)
                ltac:(assumption)).
  lia.
Qed.

(** ** The fields of a timestamp, in units of [2^-1074] *)

Local Open Scope Z_scope.

Lemma float_3600 :
  float_of_Z 3600 = S754_finite false 7916483719987200 (-41).
Proof. vm_compute. reflexivity. Qed.

Lemma float_60 : float_of_Z 60 = S754_finite false 8444249301319680 (-47).
Proof. vm_compute. reflexivity. Qed.

Lemma float_1000 :
  float_of_Z 1000 = S754_finite false 8796093022208000 (-43).
Proof. vm_compute. reflexivity. Qed.

Lemma float_1 : float_of_Z 1 = S754_finite false 4503599627370496 (-52).
Proof. vm_compute. reflexivity. Qed.

Lemma valid_constants :
  valid (S754_finite false 7916483719987200 (-41))
  /\ valid (S754_finite false 8444249301319680 (-47))
  /\ valid (S754_finite false 4503599627370496 (-52)).
Proof. repeat split; vm_compute; reflexivity. Qed.

Lemma scaled_constant (m : positive) (e Y : Z) :
  -1074 <= e -> Zpos m = Y * 2 ^ (- e) -> e <= 0 ->
  scaled (S754_finite false m e) = Y * 2 ^ 1074.
Proof.
  intros He Hm Hle. cbn [scaled cond_Zopp]. rewrite Hm.
  rewrite <- Z.mul_assoc, <- Z.pow_add_r by lia.
  do 2 f_equal. lia.
Qed.

Lemma scaled_3600 :
  scaled (S754_finite false 7916483719987200 (-41)) = 3600 * 2 ^ 1074.
Proof. apply scaled_constant; lia. Qed.

Lemma scaled_60 :
  scaled (S754_finite false 8444249301319680 (-47)) = 60 * 2 ^ 1074.
Proof. apply scaled_constant; lia. Qed.

Lemma scaled_1 :
  scaled (S754_finite false 4503599627370496 (-52)) = 1 * 2 ^ 1074.
Proof. apply scaled_constant; lia. Qed.

Lemma finite_nonneg_the_float (V : Z) : finite_nonneg (the_float V).
Proof. unfold the_float. destruct (V =? 0); simpl; auto. Qed.

(** The double of the integer part, and the fractional part. *)
Lemma fractional_part_exact (x : float) :
  finite_nonneg x -> valid x -> scaled x < 2 ^ 53 * 2 ^ 1074 ->
  x <> S754_zero true ->
  py_int x = Ok (scaled x / 2 ^ 1074)
  /\ py_float_of_int (scaled x / 2 ^ 1074)
     = Ok (float_of_Z (scaled x / 2 ^ 1074))
  /\ representable (scaled x mod 2 ^ 1074)
  /\ fsub x (float_of_Z (scaled x / 2 ^ 1074))
     = the_float (scaled x mod 2 ^ 1074).
Proof.
  intros Hx Hvx Hlt Hnz.
  pose proof (pow2_pos 1074 ltac:(lia)) as HU.
  destruct x as [s | s | | s mx ex]; try contradiction.
  - destruct s; [congruence|].
    split; [reflexivity|]. split; [reflexivity|].
    split; [exact representable_zero | reflexivity].
  - cbn [finite_nonneg] in Hx. subst s.
    set (x := S754_finite false mx ex) in *.
    destruct (valid_is_the_float mx ex Hvx) as (Hex & HRx & Ex). fold x in HRx, Ex.
    pose proof (scaled_lt mx ex Hvx) as [Hsx _]. fold x in Hsx.
    set (I := scaled x / 2 ^ 1074).
    assert (HI : 0 <= I < 2 ^ 53).
    { split; [apply Z.div_pos; lia|].
      apply Z.div_lt_upper_bound; lia. }
    pose proof (Z.div_mod (scaled x) (2 ^ 1074) ltac:(lia)) as Hdm. fold I in Hdm.
    pose proof (Z.mod_pos_bound (scaled x) (2 ^ 1074) HU) as Hmb.
    pose proof (representable_integer I HI) as HRI.
    assert (EI : float_of_Z I = the_float (I * 2 ^ 1074)).
    { unfold float_of_Z. apply normalize_exact; try lia. exact HRI. }
    destruct valid_constants as (_ & _ & Hv1).
    destruct (c_fmod_exact mx 4503599627370496 ex (-52) Hvx Hv1) as [HRW _].
    fold x in HRW. rewrite scaled_1, Z.mul_1_l in HRW.
    split; [|split; [|split]].
    + rewrite Ex at 1. apply py_int_the_float. exact HRx.
    + unfold py_float_of_int. rewrite EI.
      unfold the_float. destruct (I * 2 ^ 1074 =? 0); reflexivity.
    + exact HRW.
    + rewrite EI.
      replace (scaled x mod 2 ^ 1074) with (scaled x - I * 2 ^ 1074) in * by lia.
      destruct (Z.eq_dec I 0) as [E0 | E0].
      * rewrite E0. cbn [Z.mul]. rewrite Z.sub_0_r.
        change (the_float 0) with (S754_zero false). exact Ex.
      * assert (HVI : 0 < I * 2 ^ 1074) by (apply Z.mul_pos_pos; lia).
        destruct (the_float_finite _ HRI HVI) as (mi & Emi & _ & _).
        pose proof (valid_the_float _ HRI) as Hvi.
        pose proof (scaled_the_float _ HRI) as Hsi.
        rewrite Emi in Hvi, Hsi. rewrite Emi.
        pose proof (fsub_exact mx mi ex _ Hvx Hvi) as Hsub.
        rewrite Hsi in Hsub. fold x in Hsub.
        apply Hsub; [lia | exact HRW].
Qed.

(** The four fields for every non-negative double below [2^53]. *)
Lemma timestamp_fields_scaled (x : float) :
  finite_nonneg x -> valid x -> scaled x < 2 ^ 53 * 2 ^ 1074 ->
  exists ms,
    py_round (fmul (fsub x (float_of_Z (scaled x / 2 ^ 1074)))
                   (float_of_Z 1000)) = Ok ms
    /\ timestamp_fields x
       = Ok (mkStamp (scaled x / (3600 * 2 ^ 1074))
                     ((scaled x mod (3600 * 2 ^ 1074)) / (60 * 2 ^ 1074))
                     ((scaled x mod (60 * 2 ^ 1074)) / 2 ^ 1074)
                     ms).
Proof.
  intros Hx Hvx Hlt.
  destruct x as [s | s | | s mx ex]; try contradiction.
  { (* zero, of either sign *)
    exists 0. destruct s; split; vm_compute; reflexivity. }
  assert (Es : s = false) by exact Hx. subst s.
  set (x := S754_finite false mx ex) in *.
  assert (Hnz : x <> S754_zero true) by discriminate.
  pose proof (pow2_pos 1074 ltac:(lia)) as HU.
  destruct valid_constants as (Hv3600 & Hv60 & Hv1).
  (* hours *)
  destruct (py_floordiv_exact x 7916483719987200 (-41) 3600 Hx Hvx Hv3600
              ltac:(vm_compute; discriminate) scaled_3600 ltac:(lia) Hlt)
    as (q & Eq & Eqi).
  rewrite scaled_3600 in Eqi.
  (* the remainder of the hours *)
  destruct (py_mod_exact x 7916483719987200 (-41) Hx Hvx Hv3600) as [HRr Er].
  rewrite scaled_3600 in HRr, Er.
  set (R := scaled x mod (3600 * 2 ^ 1074)) in *.
  assert (HRb : 0 <= R < 3600 * 2 ^ 1074) by (apply Z.mod_pos_bound; lia).
  (* minutes *)
  destruct (py_floordiv_exact (the_float R) 8444249301319680 (-47) 60
              (finite_nonneg_the_float R) (valid_the_float R HRr) Hv60
              ltac:(vm_compute; discriminate) scaled_60 ltac:(lia))
    as (q' & Eq' & Eqi').
  { rewrite (scaled_the_float R HRr).
    apply (Z.lt_trans _ (3600 * 2 ^ 1074)); [lia|].
    apply Z.mul_lt_mono_pos_r; [lia | vm_compute; reflexivity]. }
  rewrite (scaled_the_float R HRr), scaled_60 in Eqi'.
  (* seconds *)
  destruct (py_mod_exact x 8444249301319680 (-47) Hx Hvx Hv60) as [HRs Es].
  rewrite scaled_60 in HRs, Es.
  (* the fractional part *)
  destruct (fractional_part_exact x Hx Hvx Hlt Hnz) as (Ei & Efi & HRw & Ew).
  (* milliseconds *)
  assert (Hfin : finite_or_zero
                   (fmul (fsub x (float_of_Z (scaled x / 2 ^ 1074)))
                         (float_of_Z 1000))).
  { rewrite Ew, float_1000.
    set (W := scaled x mod 2 ^ 1074) in *.
    assert (HWb : 0 <= W < 2 ^ 1074) by (apply Z.mod_pos_bound; lia).
    destruct (Z.eq_dec W 0) as [-> | HW0]; [exact I|].
    destruct (the_float_finite W HRw ltac:(lia)) as (mw & Emw & _ & _).
    pose proof (valid_the_float W HRw) as Hvw. rewrite Emw in Hvw |- *.
    destruct (valid_bounds _ _ _ Hvw) as [Hmw _].
    apply fmul_finite; [exact Hmw | vm_compute; reflexivity|].
    assert (Z.log2 W < 1074) by (apply Z.log2_lt_pow2; lia).
    unfold canon_exp. lia. }
  destruct (py_round_total _ Hfin) as [ms Ems].
  exists ms. split; [exact Ems|].
  unfold timestamp_fields.
  rewrite float_3600, float_60.
  rewrite Eq. cbn [bind]. rewrite Eqi. cbn [bind].
  rewrite Er. cbn [bind]. rewrite Eq'. cbn [bind]. rewrite Eqi'. cbn [bind].
  rewrite Es. cbn [bind].
  rewrite (py_int_the_float _ HRs). cbn [bind].
  rewrite Ei. cbn [bind]. rewrite Efi. cbn [bind].
  rewrite Ems. cbn [bind]. reflexivity.
Qed.

(** ** From units of [2^-1074] to rational numbers *)

Lemma unit_den_eq : Zpos unit_den = 2 ^ 1074.
Proof. unfold unit_den. apply Pos2Z.inj_pow. Qed.

Lemma F2Q_scaled (x : float) :
  finite_nonneg x -> valid x -> (F2Q x == scaled x # unit_den)%Q.
Proof.
  intros Hx Hv. destruct x as [s | s | | s m e]; try contradiction.
  - reflexivity.
  - cbn [finite_nonneg] in Hx. subst s.
    destruct (valid_bounds _ _ _ Hv) as [_ He].
    unfold F2Q, scaled, Qeq. cbn [cond_Zopp].
    destruct e as [|e|k]; cbn [Qnum Qden inject_Z]; rewrite unit_den_eq.
    + change (0 + 1074) with 1074. ring.
    + rewrite Z.pow_add_r by lia. ring.
    + rewrite Pos2Z.inj_pow.
      rewrite (pow2_split 1074 (Zpos k)) by lia.
      replace (Zneg k + 1074) with (1074 - Zpos k) by lia. ring.
Qed.

Lemma Qfloor_div (V : Z) (D Y : positive) :
  Qfloor ((V # D) / inject_Z (Zpos Y)) = V / (Zpos Y * Zpos D).
Proof.
  unfold Qdiv, Qinv, Qmult, inject_Z, Qfloor. cbn [Qnum Qden].
  rewrite Z.mul_1_r, Pos2Z.inj_mul. f_equal. ring.
Qed.

Lemma Qmodulo_frac (V : Z) (D Y : positive) :
  (Qmodulo (V # D) (Zpos Y) == (V mod (Zpos Y * Zpos D)) # D)%Q.
Proof.
  unfold Qmodulo. rewrite Qfloor_div.
  pose proof (Z.div_mod V (Zpos Y * Zpos D) ltac:(lia)) as Hdm.
  set (q := V / (Zpos Y * Zpos D)) in *.
  set (r := V mod (Zpos Y * Zpos D)) in *.
  unfold Qminus, Qplus, Qopp, inject_Z, Qeq. cbn [Qnum Qden].
  rewrite Pos2Z.inj_mul. nia.
Qed.

Lemma Qfloor_frac (V : Z) (D : positive) : Qfloor (V # D) = V / Zpos D.
Proof. reflexivity. Qed.

Lemma fractional_part_frac (V : Z) (D : positive) :
  (fractional_part (V # D) == (V mod Zpos D) # D)%Q.
Proof.
  unfold fractional_part. rewrite Qfloor_frac.
  pose proof (Z.div_mod V (Zpos D) ltac:(lia)) as Hdm.
  set (q := V / Zpos D) in *. set (r := V mod Zpos D) in *.
  unfold Qminus, Qplus, Qopp, inject_Z, Qeq. cbn [Qnum Qden].
  rewrite Pos2Z.inj_mul. nia.
Qed.

Lemma Qfloor_div_comp (q q' d : Q) :
  (q == q')%Q -> Qfloor (q / d) = Qfloor (q' / d).
Proof.
  intros E. apply Qfloor_comp. apply Qdiv_comp; [exact E | reflexivity].
Qed.

Lemma Qmodulo_comp (q q' : Q) (d : Z) :
  (q == q')%Q -> (Qmodulo q d == Qmodulo q' d)%Q.
Proof.
  intros E. unfold Qmodulo. rewrite (Qfloor_div_comp q q' _ E).
  unfold Qminus. apply Qplus_comp; [exact E | reflexivity].
Qed.

(** The floor and modulus formulas on a fraction [V / D]. *)
Lemma floor_formulas_frac (q : Q) (V : Z) (D : positive) :
  (q == V # D)%Q ->
  floor_hours q = V / (3600 * Zpos D)
  /\ floor_minutes q = (V mod (3600 * Zpos D)) / (60 * Zpos D)
  /\ floor_secs q = (V mod (60 * Zpos D)) / Zpos D
  /\ Qfloor q = V / Zpos D
  /\ (fractional_part q == (V mod Zpos D) # D)%Q.
Proof.
  intros E. unfold floor_hours, floor_minutes, floor_secs.
  split; [|split; [|split; [|split]]].
  - rewrite (Qfloor_div_comp _ _ _ E). apply (Qfloor_div V D 3600).
  - assert (Em : (Qmodulo q 3600 == (V mod (3600 * Zpos D)) # D)%Q).
    { eapply Qeq_trans; [apply (Qmodulo_comp _ _ _ E)|].
      apply (Qmodulo_frac V D 3600). }
    rewrite (Qfloor_div_comp _ _ _ Em). apply (Qfloor_div _ D 60).
  - assert (Em : (Qmodulo q 60 == (V mod (60 * Zpos D)) # D)%Q).
    { eapply Qeq_trans; [apply (Qmodulo_comp _ _ _ E)|].
      apply (Qmodulo_frac V D 60). }
    rewrite (Qfloor_comp _ _ Em). reflexivity.
  - rewrite (Qfloor_comp _ _ E). reflexivity.
  - eapply Qeq_trans; [|apply fractional_part_frac].
    unfold fractional_part. rewrite (Qfloor_comp _ _ E).
    unfold Qminus. apply Qplus_comp; [exact E | reflexivity].
Qed.

(** C9 (amended).  For every non-negative double [seconds] below [2^53]
    the formatter computes its four fields without failing.  The hours,
    minutes and seconds fields are the integers [floor(seconds / 3600)],
    [floor((seconds mod 3600) / 60)] and [floor(seconds mod 60)] of the
    exact value of [seconds].  The difference [seconds - int(seconds)] is
    computed exactly, it is the fractional part; the milliseconds field is
    [round] of the double product of that difference and 1000, and [round]
    rounds to a nearest integer, the even one on a tie (not away from
    zero). *)
Theorem timestamp_fields_formulas (seconds : float) :
  valid seconds -> finite_nonneg seconds ->
  (F2Q seconds < inject_Z (2 ^ 53))%Q ->
  exists ms,
    timestamp_fields seconds
    = Ok (mkStamp (floor_hours (F2Q seconds)) (floor_minutes (F2Q seconds))
                  (floor_secs (F2Q seconds)) ms)
    /\ (F2Q (fsub seconds (float_of_Z (Qfloor (F2Q seconds))))
        == fractional_part (F2Q seconds))%Q
    /\ nearest_even
         (F2Q (fmul (fsub seconds (float_of_Z (Qfloor (F2Q seconds))))
                    (float_of_Z 1000)))
         ms.
Proof.
  intros Hv Hx Hlt.
  destruct seconds as [s | s | | s mx ex]; try contradiction.
  { (* zero, of either sign *)
    exists 0. destruct s.
    - split; [vm_compute; reflexivity|]. split; [vm_compute; reflexivity|].
      apply py_round_nearest_even. vm_compute. reflexivity.
    - split; [vm_compute; reflexivity|]. split; [vm_compute; reflexivity|].
      apply py_round_nearest_even. vm_compute. reflexivity. }
  assert (Es : s = false) by exact Hx. subst s.
  set (x := S754_finite false mx ex) in *.
  pose proof (F2Q_scaled x Hx Hv) as E.
  destruct (floor_formulas_frac _ _ _ E) as (Hh & Hm & Hs & Hf & Hfr).
  rewrite unit_den_eq in Hh, Hm, Hs, Hf, Hfr.
  assert (HltV : scaled x < 2 ^ 53 * 2 ^ 1074).
  { assert (H : (scaled x # unit_den < inject_Z (2 ^ 53))%Q).
    { eapply Qle_lt_trans; [|exact Hlt].
      apply Qle_lteq. right. symmetry. exact E. }
    unfold Qlt in H. cbn [Qnum Qden inject_Z] in H.
    rewrite unit_den_eq in H. lia. }
  destruct (timestamp_fields_scaled x Hx Hv HltV) as (ms & Ems & Et).
  destruct (fractional_part_exact x Hx Hv HltV ltac:(discriminate))
    as (_ & _ & HRw & Ew).
  exists ms. rewrite Hh, Hm, Hs, Hf.
  split; [exact Et|]. split.
  - rewrite Ew.
    eapply Qeq_trans; [|symmetry; exact Hfr].
    pose proof (F2Q_scaled _ (finite_nonneg_the_float _)
                  (valid_the_float _ HRw)) as Ef.
    rewrite (scaled_the_float _ HRw) in Ef. exact Ef.
  - apply py_round_nearest_even. exact Ems.
Qed.

Lemma timestamp_fields_formulas_witness :
  exists ms,
    timestamp_fields (decimal 1254 1)
    = Ok (mkStamp (floor_hours (F2Q (decimal 1254 1)))
                  (floor_minutes (F2Q (decimal 1254 1)))
                  (floor_secs (F2Q (decimal 1254 1))) ms)
    /\ nearest_even
         (F2Q (fmul (fsub (decimal 1254 1)
                          (float_of_Z (Qfloor (F2Q (decimal 1254 1)))))
                    (float_of_Z 1000)))
         ms.
Proof.
  assert (Hv : valid (decimal 1254 1)) by (vm_compute; reflexivity).
  assert (Hx : finite_nonneg (decimal 1254 1)) by (vm_compute; reflexivity).
  assert (Hlt : (F2Q (decimal 1254 1) < inject_Z (2 ^ 53))%Q)
    by (vm_compute; reflexivity).
  destruct (timestamp_fields_formulas (decimal 1254 1) Hv Hx Hlt)
    as (ms & Et & _ & Hms).
  exists ms. split; [exact Et | exact Hms].
Defined.

(* ================================================================== *)
(** * Part IV.  Further properties of the program                      *)
(* ================================================================== *)

(** ** More on stripped strings *)

Lemma forallb_rev {A : Type} (p : A -> bool) (l : list A) :
  forallb p (rev l) = forallb p l.
Proof.
  induction l as [|a l IH]; [reflexivity|].
  simpl. rewrite forallb_app, IH. simpl. rewrite andb_true_r.
  apply andb_comm.
Qed.

Lemma dropwhile_all (p : char -> bool) (a s : str) :
  forallb p a = true -> dropwhile p (a ++ s) = dropwhile p s.
Proof.
  induction a as [|c a IH]; [reflexivity|].
  simpl. intros H. apply andb_prop in H. destruct H as [Hc Ha].
  rewrite Hc. apply IH. exact Ha.
Qed.

(** Stripping removes a padding of characters of the class and nothing
    else, when the padded string has none at either end. *)
Lemma strip_with_padded (p : char -> bool) (a b c : str) :
  forallb p a = true -> forallb p c = true ->
  head_clear p b -> head_clear p (rev b) ->
  strip_with p (a ++ b ++ c) = b.
Proof.
  intros Ha Hc Hb Hrb. unfold strip_with.
  rewrite (dropwhile_all p a _ Ha).
  destruct b as [|x b].
  - simpl. rewrite <- (app_nil_r c), (dropwhile_all p c [] Hc). reflexivity.
  - rewrite (dropwhile_id p ((x :: b) ++ c))
      by (apply head_clear_app; [discriminate | exact Hb]).
    rewrite rev_app_distr.
    rewrite (dropwhile_all p (rev c)) by (rewrite forallb_rev; exact Hc).
    rewrite (dropwhile_id p _ Hrb). apply rev_involutive.
Qed.

Lemma strip_with_clear (p : char -> bool) (s : str) :
  head_clear p (strip_with p s) /\ head_clear p (rev (strip_with p s)).
Proof.
  unfold strip_with. rewrite rev_involutive.
  split; [|apply dropwhile_head].
  pose proof (dropwhile_head p s) as Hd.
  set (d := dropwhile p s) in *.
  destruct (dropwhile_suffix p (rev d)) as [k Hk].
  set (r := dropwhile p (rev d)) in *.
  destruct r as [|c r] using rev_ind; [exact I|]. clear IHr.
  assert (Ed : d = rev (r ++ [c]) ++ rev k).
  { rewrite <- rev_app_distr, <- Hk, rev_involutive. reflexivity. }
  rewrite rev_app_distr in *. simpl in *.
  rewrite Ed in Hd. exact Hd.
Qed.

Lemma unquoted_head_clear (s : str) :
  unquoted s = true <->
  head_clear (char_eqb dquote) s /\ head_clear (char_eqb dquote) (rev s).
Proof.
  unfold unquoted. rewrite andb_true_iff, !negb_true_iff.
  assert (H : forall t, startswith [dquote] t = false
                        <-> head_clear (char_eqb dquote) t).
  { intros [|c t]; simpl; [split; auto|]. rewrite andb_true_r. tauto. }
  rewrite !H. tauto.
Qed.

Lemma strip_quotes_quoted (label : str) :
  unquoted label = true -> strip_quotes (quoted label) = label.
Proof.
  intros H. apply unquoted_head_clear in H. destruct H as [Hh Ht].
  unfold strip_quotes, quoted.
  change (dquote :: label ++ [dquote]) with ([dquote] ++ label ++ [dquote]).
  apply strip_with_padded; auto.
Qed.

(** ** [parse_textgrid]: what a line contributes *)

Section ParserProperties.

Context {U : Unicode}.

Variable py_float : str -> option float.

(** X1.  Round trip of a label.  In the words tier, a line that reads
    [text = ] followed by a label between double quotes, with any blank
    indentation before and any blanks (such as the line end) after,
    appends an interval whose text is exactly the label, whenever the
    label has a double quote at neither of its ends.  The label may hold
    equals signs, blanks and inner quotes: the line is cut at its first
    equals sign only. *)
Theorem text_line_round_trip (st : parse_state) (indent label trail : str) :
  in_words_tier st = true ->
  blank indent = true -> blank trail = true -> unquoted label = true ->
  parse_line py_float st (indent ++ ("text = " ++ quoted label) ++ trail)
  = Ok (mkParse (intervals st ++ [set_text label (current_interval st)])
                empty_dict true).
Proof.
  intros Hw Hi Ht Hl.
  set (body := "text = " ++ quoted label).
  assert (Es : strip (indent ++ body ++ trail) = body).
  { apply strip_with_padded; auto.
    - reflexivity.
    - unfold body, quoted.
      change ("text = " ++ dquote :: label ++ [dquote])
        with (("text = " ++ dquote :: label) ++ [dquote]).
      rewrite rev_app_distr. reflexivity. }
  rewrite parse_line_text.
  - unfold text_value. rewrite Es.
    change (nth 1 (split1 "="%char body) [])
      with ([code " "] ++ quoted label).
    rewrite <- (app_nil_r (quoted label)) at 1.
    unfold strip. rewrite strip_with_padded.
    + rewrite (strip_quotes_quoted label Hl). reflexivity.
    + reflexivity.
    + reflexivity.
    + reflexivity.
    + unfold quoted.
      change (dquote :: label ++ [dquote]) with ((dquote :: label) ++ [dquote]).
      rewrite rev_app_distr. reflexivity.
  - exact Hw.
  - unfold is_text_line. rewrite Es. reflexivity.
Qed.

Lemma parse_line_strip (st : parse_state) (raw : str) :
  parse_line py_float st (strip raw) = parse_line py_float st raw.
Proof. unfold parse_line. rewrite strip_strip. reflexivity. Qed.

Lemma parse_line_not_declaration (st : parse_state) (raw : str) :
  is_declaration raw = false -> parse_line py_float st raw = Ok st.
Proof.
  unfold is_declaration. intros H.
  apply orb_false_iff in H. destruct H as [H Ht].
  apply orb_false_iff in H. destruct H as [H Hy].
  apply orb_false_iff in H. destruct H as [Hn Hx].
  apply parse_line_other; [exact Hn|].
  rewrite Hx, Hy, Ht. apply andb_false_r.
Qed.

Lemma parse_lines_declarations (lines : list str) (st : parse_state) :
  parse_lines py_float (map strip (filter is_declaration lines)) st
  = parse_lines py_float lines st.
Proof.
  revert st; induction lines as [|l lines IH]; intros st; [reflexivity|].
  simpl. destruct (is_declaration l) eqn:E.
  - simpl. rewrite parse_line_strip.
    destruct (parse_line py_float st l) as [st'|e]; [|reflexivity].
    simpl. apply IH.
  - rewrite (parse_line_not_declaration st l E). simpl. apply IH.
Qed.

(** X2.  Only declaration lines count, and not their indentation.  The
    parser returns the same result, or raises the same exception, on a
    file and on the file reduced to its declaration lines (the lines that
    start, after stripping, with [name =], [xmin =], [xmax =] or
    [text =]), each of them stripped: headers, [intervals [k]:] lines,
    empty lines and indentation have no effect. *)
Theorem parse_textgrid_declarations_only (fs : filesystem) (file_path : str) :
  parse_textgrid py_float
    (fun p => map_lines (fun lines => map strip (filter is_declaration lines))
                        (fs p))
    file_path
  = parse_textgrid py_float fs file_path.
Proof.
  unfold parse_textgrid.
  destruct (fs file_path) as [e|lines ending]; [reflexivity|].
  simpl. rewrite parse_lines_declarations. reflexivity.
Qed.

(** X3.  Every interval the parser returns has a ["text"] key, and its
    text has a double quote at neither end; there are at most as many
    intervals as the file has lines. *)
Theorem parsed_intervals_have_text (fs : filesystem) (file_path : str)
    (ivs : list interval) :
  parse_textgrid py_float fs file_path = Ok ivs ->
  Forall (fun iv => exists t, text iv = Some t /\ unquoted t = true) ivs
  /\ exists lines, fs file_path = Readable lines None
                   /\ (List.length ivs <= List.length lines)%nat.
Proof.
  intros H. rewrite parse_textgrid_document in H.
  destruct (fs file_path) as [e|lines ending]; [discriminate|].
  destruct (existsb _ _); [discriminate|].
  destruct ending as [e|]; [discriminate|]. injection H as <-.
  split.
  - unfold document_intervals. apply Forall_map, Forall_forall.
    intros i _. exists (text_value (nth i lines [])).
    split; [reflexivity|].
    apply unquoted_head_clear. apply strip_with_clear.
  - exists lines. split; [reflexivity|].
    unfold document_intervals, emitting_lines. rewrite length_map.
    etransitivity; [apply filter_length_le|]. rewrite length_seq. lia.
Qed.

End ParserProperties.

Section ParserPropertiesExamples.

#[local] Existing Instance ascii_unicode.

Lemma text_line_round_trip_witness :
  parse_line decimal_float (mkParse [] empty_dict true)
             ("    " ++ ("text = " ++ quoted "a = b") ++ [newline])
  = Ok (mkParse [set_text "a = b" empty_dict] empty_dict true).
Proof.
  apply (text_line_round_trip decimal_float (mkParse [] empty_dict true)
           "    " "a = b" [newline]); reflexivity.
Defined.

Lemma parsed_intervals_have_text_witness :
  Forall (fun iv => exists t, text iv = Some t /\ unquoted t = true)
         sample_intervals.
Proof.
  assert (H : parse_textgrid decimal_float sample_fs sample_path
              = Ok sample_intervals) by (vm_compute; reflexivity).
  exact (proj1 (parsed_intervals_have_text decimal_float sample_fs sample_path
                  sample_intervals H)).
Defined.

End ParserPropertiesExamples.

Section ReinjectRuns.

Context {U : Unicode}.

(** ** [reinject_case_and_characters]: whole runs *)

(** The tokens of a transcript are non-empty and hold no blank. *)
Lemma findall_aux_solid (s cur : str) :
  forallb (fun c => negb (isspace c)) cur = true ->
  Forall (fun t => solid t = true) (findall_nonspace_aux cur s).
Proof.
  assert (Hrev : forall cur c,
            forallb (fun c => negb (isspace c)) (c :: cur) = true ->
            solid (rev (c :: cur)) = true).
  { intros k c H. unfold solid. rewrite forallb_rev, H, andb_true_r.
    simpl. destruct (rev k); reflexivity. }
  revert cur; induction s as [|c s IH]; intros cur Hc; simpl.
  - destruct cur as [|x cur]; [constructor|].
    constructor; [apply Hrev; exact Hc | constructor].
  - destruct (isspace c) eqn:Es.
    + destruct cur as [|x cur]; [apply IH; reflexivity|].
      constructor; [apply Hrev; exact Hc | apply IH; reflexivity].
    + apply IH. simpl. rewrite Es. exact Hc.
Qed.

Lemma findall_solid (s : str) :
  Forall (fun t => solid t = true) (findall_nonspace s).
Proof. apply findall_aux_solid. reflexivity. Qed.

Lemma solid_strip (t : str) : solid t = true -> strip t = t /\ t <> [].
Proof.
  unfold solid. intros H. apply andb_prop in H. destruct H as [Hne Hall].
  split; [|apply truthy_true; exact Hne].
  apply strip_tidy. split.
  - destruct t as [|c t]; [exact I|]. simpl in Hall.
    apply andb_prop in Hall. destruct Hall as [Hc _].
    apply negb_true_iff in Hc. exact Hc.
  - rewrite <- forallb_rev in Hall.
    destruct (rev t) as [|c r]; [exact I|]. simpl in Hall.
    apply andb_prop in Hall. destruct Hall as [Hc _].
    apply negb_true_iff in Hc. exact Hc.
Qed.

Lemma solid_nonblank (t : str) (iv : interval) :
  solid t = true -> nonblank (set_text t iv) = true.
Proof.
  intros H. destruct (solid_strip t H) as [Es Hne].
  unfold nonblank, get_text. simpl. rewrite Es. apply truthy_true. exact Hne.
Qed.

Lemma findall_blank (s : str) : blank s = true -> findall_nonspace s = [].
Proof.
  unfold findall_nonspace, blank.
  induction s as [|c s IH]; [reflexivity|].
  simpl. intros H. apply andb_prop in H. destruct H as [Hc Hs].
  rewrite Hc. apply IH. exact Hs.
Qed.

(** The returned intervals against the non-blank input intervals. *)
Lemma reinject_same_interval (word_intervals : list interval)
    (original_script : str) :
  Forall2 (same_interval (findall_nonspace original_script))
          (filter nonblank word_intervals)
          (reinject_case_and_characters word_intervals original_script).
Proof.
  pose proof (reinject_inv_init (findall_nonspace original_script)) as Hinit.
  pose proof (reinject_loop_inv _ word_intervals _ Hinit) as Hinv.
  pose proof (reinject_loop_adoption _ word_intervals _ [] Hinit
                (Forall2_nil _)) as Hadopt.
  unfold reinject_case_and_characters, reinject_run.
  apply (Forall2_combine_fst _ _ _ _ _
           (adoption_same_interval (findall_nonspace original_script))
           (eq_sym (rinv_length _ _ Hinv)) Hadopt).
Qed.

Lemma Forall2_right {A B : Type} (R : A -> B -> Prop) (P : B -> Prop)
    (l : list A) (m : list B) :
  (forall a b, In a l -> R a b -> P b) -> Forall2 R l m -> Forall P m.
Proof.
  intros H F. induction F as [|a b l m Hab F IH]; constructor.
  - apply (H a b); [left; reflexivity | exact Hab].
  - apply IH. intros a' b' Hin. apply H. right. exact Hin.
Qed.

Lemma reinject_all_nonblank (word_intervals : list interval)
    (original_script : str) :
  Forall (fun iv => nonblank iv = true)
         (reinject_case_and_characters word_intervals original_script).
Proof.
  eapply Forall2_right; [|apply reinject_same_interval].
  intros iv iv' Hin (_ & _ & [-> | (t & Ht & ->)]).
  - apply filter_In in Hin. apply Hin.
  - apply solid_nonblank.
    pose proof (findall_solid original_script) as Hs.
    rewrite Forall_forall in Hs. apply Hs. exact Ht.
Qed.

Lemma filter_all {A : Type} (f : A -> bool) (l : list A) :
  Forall (fun x => f x = true) l -> filter f l = l.
Proof.
  intros H. induction H as [|x l Hx _ IH]; [reflexivity|].
  simpl. rewrite Hx, IH. reflexivity.
Qed.

(** X4.  No returned interval is blank: every interval the reinjector
    returns has a text that is neither empty nor made of blanks only,
    whether it kept its text or adopted a token; a later pass that skips
    blank intervals therefore skips none of them. *)
Theorem reinjected_intervals_nonblank (word_intervals : list interval)
    (original_script : str) :
  Forall (fun iv => nonblank iv = true)
         (reinject_case_and_characters word_intervals original_script)
  /\ filter nonblank
       (reinject_case_and_characters word_intervals original_script)
     = reinject_case_and_characters word_intervals original_script.
Proof.
  split; [apply reinject_all_nonblank|].
  apply filter_all, reinject_all_nonblank.
Qed.

(** *** A transcript without tokens, and a transcript used up *)

Lemma skipn_length_nil {A : Type} (l : list A) (n : nat) :
  (List.length l <= n)%nat -> skipn n l = [].
Proof. intros H. apply skipn_all2. exact H. Qed.

(** From the end of the transcript every non-blank interval is appended
    unchanged, with a miss in the log, and the cursor stays. *)
Lemma reinject_loop_exhausted (tokens : list str) (ivs : list interval)
    (st : reinject_state) :
  (List.length tokens <= script_index st)%nat ->
  reinject_loop tokens ivs st
  = mkReinject (updated_intervals st ++ filter nonblank ivs)
               (script_index st)
               (matched_at st
                ++ repeat None (List.length (filter nonblank ivs))).
Proof.
  revert st; induction ivs as [|iv ivs IH]; intros st Hc.
  - simpl. rewrite !app_nil_r. destruct st; reflexivity.
  - simpl. destruct (nonblank iv) eqn:Hnb.
    + rewrite (reinject_step_nonblank tokens st iv Hnb).
      rewrite (skipn_length_nil tokens _ Hc). cbv zeta. simpl.
      rewrite IH by (simpl; exact Hc). simpl.
      rewrite <- !app_assoc. reflexivity.
    + rewrite (reinject_step_blank tokens st iv Hnb). apply IH. exact Hc.
Qed.

(** X5.  A transcript without tokens changes nothing.  When the script is
    empty or made of blanks only, the reinjector returns the non-blank
    input intervals as they are. *)
Theorem reinject_blank_script (word_intervals : list interval)
    (original_script : str) :
  blank original_script = true ->
  reinject_case_and_characters word_intervals original_script
  = filter nonblank word_intervals.
Proof.
  intros H. unfold reinject_case_and_characters, reinject_run.
  rewrite (findall_blank _ H).
  rewrite reinject_loop_exhausted by (simpl; lia). reflexivity.
Qed.

Lemma forallb_adopted_snoc (hits : list (option nat)) (a : nat) :
  forallb adopted hits = true -> forallb adopted (hits ++ [Some a]) = true.
Proof. intros H. rewrite forallb_app, H. reflexivity. Qed.

(** The log is made of hits followed by misses, and after a miss the
    cursor is at the end of the transcript. *)
Lemma reinject_loop_misses (tokens : list str) (ivs : list interval)
    (st : reinject_state) (hits : list (option nat)) (k : nat) :
  (script_index st <= List.length tokens)%nat ->
  matched_at st = hits ++ repeat None k ->
  forallb adopted hits = true ->
  (k <> 0%nat -> script_index st = List.length tokens) ->
  exists hits' k',
    matched_at (reinject_loop tokens ivs st) = hits' ++ repeat None k'
    /\ forallb adopted hits' = true
    /\ (k' <> 0%nat ->
        script_index (reinject_loop tokens ivs st) = List.length tokens).
Proof.
  revert st hits k; induction ivs as [|iv ivs IH]; intros st hits k Hc Hlog Hh Hk.
  - exists hits, k. auto.
  - simpl. destruct (nonblank iv) eqn:Hnb.
    2:{ rewrite (reinject_step_blank tokens st iv Hnb).
        apply (IH st hits k); assumption. }
    rewrite (reinject_step_nonblank tokens st iv Hnb). cbv zeta.
    destruct (scan_from_cursor tokens (script_index st) (get_text iv) Hc)
      as [(i & t & Hi & Ht & _ & _ & Hs) | (_ & Hs)]; rewrite Hs; simpl.
    + assert (Hlt : (i < List.length tokens)%nat)
        by (apply nth_error_Some; congruence).
      assert (k = 0%nat) as ->.
      { destruct k; [reflexivity|]. specialize (Hk ltac:(discriminate)). lia. }
      simpl in Hlog. rewrite app_nil_r in Hlog.
      apply (IH _ (hits ++ [Some i]) 0%nat); simpl.
      * lia.
      * rewrite Hlog, app_nil_r. reflexivity.
      * apply forallb_adopted_snoc. exact Hh.
      * congruence.
    + apply (IH _ hits (S k)); simpl.
      * lia.
      * rewrite Hlog, <- app_assoc. f_equal.
        symmetry. apply repeat_cons.
      * exact Hh.
      * reflexivity.
Qed.

Lemma nth_error_hits (hits : list (option nat)) (k i : nat) :
  forallb adopted hits = true ->
  nth_error (hits ++ repeat None k) i = Some None ->
  (List.length hits <= i < List.length hits + k)%nat.
Proof.
  intros Hh Hi.
  destruct (Nat.lt_ge_cases i (List.length hits)) as [Hlt | Hge].
  - rewrite nth_error_app1 in Hi by exact Hlt.
    rewrite forallb_forall in Hh.
    apply nth_error_In in Hi. apply Hh in Hi. discriminate.
  - split; [exact Hge|].
    assert (Hs : nth_error (hits ++ repeat (@None nat) k) i <> None)
      by congruence.
    apply nth_error_Some in Hs. rewrite length_app, repeat_length in Hs.
    exact Hs.
Qed.

Lemma Forall2_nth_error {A B : Type} (R : A -> B -> Prop) (l : list A)
    (m : list B) (j : nat) (b : B) :
  Forall2 R l m -> nth_error m j = Some b ->
  exists a, nth_error l j = Some a /\ R a b.
Proof.
  intros F. revert j; induction F as [|a0 b0 l m Hab F IH]; intros j Hj.
  - destruct j; discriminate.
  - destruct j as [|j]; simpl in *.
    + injection Hj as <-. exists a0. auto.
    + apply IH. exact Hj.
Qed.

Lemma nth_error_combine {A B : Type} (l : list A) (m : list B) (j : nat)
    (a : A) (b : B) :
  nth_error l j = Some a -> nth_error m j = Some b ->
  nth_error (combine l m) j = Some (a, b).
Proof.
  revert m j; induction l as [|x l IH]; intros [|y m] [|j] Ha Hb;
    simpl in *; try discriminate.
  - congruence.
  - apply IH; assumption.
Qed.

(** X6.  One miss uses up the transcript.  When an interval matches no
    token, the cursor is left at the end of the transcript, so that every
    later interval is a miss too and is returned unchanged, whatever the
    transcript holds before the cursor. *)
Theorem miss_exhausts_transcript (word_intervals : list interval)
    (original_script : str) (i : nat) :
  nth_error (matched_at (reinject_run word_intervals original_script)) i
  = Some None ->
  script_index (reinject_run word_intervals original_script)
  = List.length (findall_nonspace original_script)
  /\ forall j,
       (i <= j)%nat ->
       (j < List.length
              (reinject_case_and_characters word_intervals original_script))%nat ->
       nth_error (matched_at (reinject_run word_intervals original_script)) j
       = Some None
       /\ nth_error
            (reinject_case_and_characters word_intervals original_script) j
          = nth_error (filter nonblank word_intervals) j.
Proof.
  intros Hi.
  unfold reinject_case_and_characters.
  set (run := reinject_run word_intervals original_script) in *.
  set (tokens := findall_nonspace original_script) in *.
  pose proof (reinject_inv_init tokens) as Hinit.
  assert (Hinv : reinject_inv tokens run)
    by (apply reinject_loop_inv; exact Hinit).
  assert (Hadopt : Forall2 (adoption tokens) (filter nonblank word_intervals)
                     (combine (updated_intervals run) (matched_at run)))
    by (apply (reinject_loop_adoption _ word_intervals _ [] Hinit
                 (Forall2_nil _))).
  assert (Hm : exists hits k,
             matched_at run = hits ++ repeat None k
             /\ forallb adopted hits = true
             /\ (k <> 0%nat -> script_index run = List.length tokens)).
  { apply (reinject_loop_misses tokens word_intervals (mkReinject [] 0 [])
             [] 0%nat); try reflexivity; [simpl; lia | congruence]. }
  destruct Hm as (hits & k & Hlog & Hh & Hk).
  pose proof (rinv_length _ _ Hinv) as Hlen.
  rewrite Hlog in Hi.
  pose proof (nth_error_hits hits k i Hh Hi) as Hrange.
  split; [apply Hk; lia|].
  intros j Hij Hj.
  assert (Ej : nth_error (matched_at run) j = Some None).
  { rewrite Hlog. rewrite nth_error_app2 by lia.
    apply nth_error_repeat.
    rewrite <- Hlen, Hlog, length_app, repeat_length in Hj. lia. }
  split; [exact Ej|].
  destruct (nth_error (updated_intervals run) j) as [iv'|] eqn:Eo.
  2:{ apply nth_error_None in Eo. lia. }
  assert (Ec : nth_error (combine (updated_intervals run) (matched_at run)) j
               = Some (iv', None))
    by (apply nth_error_combine; assumption).
  destruct (Forall2_nth_error _ _ _ _ _ Hadopt Ec) as (iv & Eiv & Had).
  simpl in Eiv. unfold adoption in Had. simpl in Had. subst iv'.
  symmetry. exact Eiv.
Qed.

(** *** Running the reinjector twice *)

(** The scan looks at the text of the interval through [clean] only. *)
Lemma scan_clean (rest : list str) (idx : nat) (w1 w2 : str) :
  clean w1 = clean w2 -> scan rest idx w1 = scan rest idx w2.
Proof.
  intros E. revert idx; induction rest as [|c rest IH]; intros idx;
    [reflexivity|].
  simpl. rewrite E. destruct (str_eqb (clean c) (clean w2)); [reflexivity|].
  apply IH.
Qed.

Lemma scan_found (rest : list str) (idx idx' : nat) (word c : str) :
  scan rest idx word = (idx', Some c) ->
  clean c = clean word /\ In c rest.
Proof.
  intros H.
  destruct (scan_spec rest idx word)
    as [(pre & c' & post & E & _ & Hc & Hs) | (_ & Hs)];
    rewrite Hs in H; [|discriminate].
  injection H as _ <-. split; [exact Hc|].
  rewrite E. apply in_or_app. right. left. reflexivity.
Qed.

Lemma In_skipn {A : Type} (n : nat) (l : list A) (x : A) :
  In x (skipn n l) -> In x l.
Proof.
  intros H. rewrite <- (firstn_skipn n l). apply in_or_app. right. exact H.
Qed.

(** Running the loop again on what a run appended, from the same cursor,
    appends the same intervals and moves the cursor in the same way. *)
Lemma reinject_loop_again (tokens : list str) (ivs : list interval)
    (st st2 : reinject_state) :
  Forall (fun t => solid t = true) tokens ->
  script_index st2 = script_index st ->
  exists suffix,
    updated_intervals (reinject_loop tokens ivs st)
    = updated_intervals st ++ suffix
    /\ updated_intervals (reinject_loop tokens suffix st2)
       = updated_intervals st2 ++ suffix.
Proof.
  intros Hsolid. revert st st2; induction ivs as [|iv ivs IH];
    intros st st2 Hc.
  - exists []. simpl. rewrite !app_nil_r. auto.
  - simpl. destruct (nonblank iv) eqn:Hnb.
    2:{ rewrite (reinject_step_blank tokens st iv Hnb).
        apply IH. exact Hc. }
    rewrite (reinject_step_nonblank tokens st iv Hnb). cbv zeta.
    set (r := scan (skipn (script_index st) tokens) (script_index st)
                   (get_text iv)).
    set (iv' := match snd r with Some c => set_text c iv | None => iv end).
    assert (Hiv' : nonblank iv' = true
                   /\ clean (get_text iv') = clean (get_text iv)
                   /\ match snd r with
                      | Some c => set_text c iv'
                      | None => iv'
                      end = iv').
    { unfold iv'. destruct r as [idx [c|]] eqn:Er; simpl.
      - destruct (scan_found _ _ _ _ _ Er) as [Hcl Hin].
        apply In_skipn in Hin. rewrite Forall_forall in Hsolid.
        split; [apply solid_nonblank, Hsolid, Hin|].
        split; [exact Hcl | reflexivity].
      - auto. }
    destruct Hiv' as (Hnb' & Hcl & Hfix).
    assert (Estep : reinject_step tokens st2 iv'
                    = mkReinject (updated_intervals st2 ++ [iv']) (fst r)
                        (matched_at st2
                         ++ [match snd r with
                             | Some _ => Some (pred (fst r))
                             | None => None
                             end])).
    { rewrite (reinject_step_nonblank tokens st2 iv' Hnb'). cbv zeta.
      rewrite Hc. rewrite (scan_clean _ _ _ _ Hcl). fold r.
      rewrite Hfix. reflexivity. }
    destruct (IH (mkReinject (updated_intervals st ++ [iv']) (fst r)
                    (matched_at st
                     ++ [match snd r with
                         | Some _ => Some (pred (fst r))
                         | None => None
                         end]))
                 (reinject_step tokens st2 iv'))
      as (suffix & E1 & E2).
    { rewrite Estep. reflexivity. }
    exists (iv' :: suffix). simpl in E1. rewrite E1.
    split; [rewrite <- app_assoc; reflexivity|].
    simpl. rewrite E2, Estep. simpl. rewrite <- app_assoc. reflexivity.
Qed.

(** X7.  The reinjector is idempotent: run again on its own result, with
    the same script, it returns that result. *)
Theorem reinject_idempotent (word_intervals : list interval)
    (original_script : str) :
  reinject_case_and_characters
    (reinject_case_and_characters word_intervals original_script)
    original_script
  = reinject_case_and_characters word_intervals original_script.
Proof.
  unfold reinject_case_and_characters, reinject_run.
  destruct (reinject_loop_again (findall_nonspace original_script)
              word_intervals (mkReinject [] 0 []) (mkReinject [] 0 [])
              (findall_solid original_script) eq_refl)
    as (suffix & E1 & E2).
  simpl in E1, E2. rewrite E1. exact E2.
Qed.

(** *** A transcript aligned with the intervals *)

Lemma scan_skips_unspoken (rest : list str) (idx : nat) (word t : str)
    (ts : list str) :
  filter spoken rest = t :: ts -> clean word = clean t ->
  exists pre post,
    rest = pre ++ t :: post
    /\ filter spoken post = ts
    /\ scan rest idx word = (S (idx + List.length pre), Some t).
Proof.
  intros Hf Hw.
  assert (Ht : spoken t = true).
  { assert (Hin : In t (filter spoken rest)) by (rewrite Hf; left; reflexivity).
    apply filter_In in Hin. apply Hin. }
  revert idx Hf; induction rest as [|c rest IH]; intros idx Hf;
    [discriminate|].
  simpl in Hf. simpl. destruct (spoken c) eqn:Ec.
  - injection Hf as -> Hts. exists [], rest.
    rewrite Hw.
    assert (E : str_eqb (clean t) (clean t) = true)
      by (apply str_eqb_eq; reflexivity).
    rewrite E. simpl. rewrite Nat.add_0_r. auto.
  - destruct (IH (S idx) Hf) as (pre & post & -> & Hp & Hs).
    exists (c :: pre), post.
    assert (E : str_eqb (clean c) (clean word) = false).
    { apply str_eqb_neq. intros E. unfold spoken in Ec, Ht.
      rewrite E, Hw, Ht in Ec. discriminate. }
    rewrite E, Hs. simpl. rewrite Nat.add_succ_r. auto.
Qed.

Lemma skipn_past {A : Type} (l pre post : list A) (x : A) (c : nat) :
  skipn c l = pre ++ x :: post ->
  skipn (S (c + List.length pre)) l = post.
Proof.
  intros E.
  replace (S (c + List.length pre)) with (S (List.length pre) + c)%nat by lia.
  rewrite <- skipn_skipn, E.
  change (S (List.length pre)) with (1 + List.length pre)%nat.
  rewrite <- skipn_skipn.
  rewrite skipn_app, skipn_all, Nat.sub_diag. reflexivity.
Qed.

Lemma reinject_loop_aligned (tokens : list str) (ivs : list interval)
    (st : reinject_state) (ts : list str) :
  Forall2 (fun iv t => clean (get_text iv) = clean t)
          (filter nonblank ivs) ts ->
  filter spoken (skipn (script_index st) tokens) = ts ->
  updated_intervals (reinject_loop tokens ivs st)
  = updated_intervals st
    ++ map (fun p => set_text (snd p) (fst p))
           (combine (filter nonblank ivs) ts).
Proof.
  revert st ts; induction ivs as [|iv ivs IH]; intros st ts HF Hts.
  - simpl. rewrite app_nil_r. reflexivity.
  - simpl in *. destruct (nonblank iv) eqn:Hnb.
    2:{ rewrite (reinject_step_blank tokens st iv Hnb). apply IH; assumption. }
    destruct ts as [|t ts']; [inversion HF|].
    assert (Hcl : clean (get_text iv) = clean t) by (inversion HF; assumption).
    assert (HF' : Forall2 (fun iv t => clean (get_text iv) = clean t)
                          (filter nonblank ivs) ts')
      by (inversion HF; assumption).
    destruct (scan_skips_unspoken _ (script_index st) (get_text iv) t ts'
                Hts Hcl) as (pre & post & Esk & Hpost & Hs).
    rewrite (reinject_step_nonblank tokens st iv Hnb). cbv zeta.
    rewrite Hs. cbn [fst snd].
    rewrite (IH _ ts' HF').
    + simpl. rewrite <- app_assoc. reflexivity.
    + cbn [script_index]. rewrite (skipn_past _ _ _ _ _ Esk). exact Hpost.
Qed.

(** X8.  Round trip through the aligner's normalization.  When the
    non-blank intervals are, in order and one for one, the tokens of the
    script that hold a word character, each up to the normalization of the
    matcher, every interval adopts its own token: the returned texts are
    exactly those tokens, with their case and punctuation. *)
Theorem aligned_script_round_trip (word_intervals : list interval)
    (original_script : str) :
  Forall2 (fun iv t => clean (get_text iv) = clean t)
          (filter nonblank word_intervals)
          (filter spoken (findall_nonspace original_script)) ->
  reinject_case_and_characters word_intervals original_script
  = map (fun p => set_text (snd p) (fst p))
        (combine (filter nonblank word_intervals)
                 (filter spoken (findall_nonspace original_script)))
  /\ map get_text
         (reinject_case_and_characters word_intervals original_script)
     = filter spoken (findall_nonspace original_script).
Proof.
  intros H.
  assert (E : reinject_case_and_characters word_intervals original_script
              = map (fun p => set_text (snd p) (fst p))
                    (combine (filter nonblank word_intervals)
                       (filter spoken (findall_nonspace original_script)))).
  { unfold reinject_case_and_characters, reinject_run.
    rewrite (reinject_loop_aligned (findall_nonspace original_script)
               word_intervals (mkReinject [] 0 []) _ H eq_refl).
    reflexivity. }
  split; [exact E|]. rewrite E. clear E.
  induction H as [|iv t l m _ _ IH]; [reflexivity|].
  simpl. f_equal. exact IH.
Qed.

End ReinjectRuns.

Section ReinjectRunsExamples.

#[local] Existing Instance ascii_unicode.

Lemma reinject_blank_script_witness :
  reinject_case_and_characters sample_words [code " "; newline]
  = filter nonblank sample_words.
Proof.
  apply (reinject_blank_script sample_words [code " "; newline]).
  reflexivity.
Defined.

Lemma miss_exhausts_transcript_witness :
  script_index
    (reinject_run [word_at 0 5 "umm"; word_at 5 10 "hello"] "Hello world")
  = 2%nat
  /\ nth_error
       (reinject_case_and_characters
          [word_at 0 5 "umm"; word_at 5 10 "hello"] "Hello world") 1
     = Some (word_at 5 10 "hello").
Proof.
  assert (H : nth_error
                (matched_at
                   (reinject_run [word_at 0 5 "umm"; word_at 5 10 "hello"]
                                 "Hello world")) 0
              = Some None) by reflexivity.
  destruct (miss_exhausts_transcript
              [word_at 0 5 "umm"; word_at 5 10 "hello"] "Hello world" 0 H)
    as [Hc Hrest].
  split; [exact Hc|].
  destruct (Hrest 1%nat) as [_ Hout]; [lia | simpl; lia |].
  exact Hout.
Defined.

Lemma aligned_script_round_trip_witness :
  map get_text
      (reinject_case_and_characters
         [word_at 0 5 "hello"; word_at 5 6 ""; word_at 6 10 "world";
          word_at 10 15 "again"]
         "Hello, world - AGAIN!")
  = ["Hello," : str; "world" : str; "AGAIN!" : str].
Proof.
  refine (proj2 (aligned_script_round_trip
                   [word_at 0 5 "hello"; word_at 5 6 ""; word_at 6 10 "world";
                    word_at 10 15 "again"]
                   "Hello, world - AGAIN!" _)).
  repeat constructor.
Defined.

End ReinjectRunsExamples.

Section CuesAsAWhole.

Context {U : Unicode}.

(** ** [group_words_into_sentences]: the cues as a whole *)

Lemma join_app (sep : str) (l m : list str) :
  l <> [] -> m <> [] ->
  join sep (l ++ m) = join sep l ++ sep ++ join sep m.
Proof.
  intros Hl Hm. induction l as [|a l IH]; [congruence|].
  destruct l as [|b l].
  - destruct m as [|c m]; [congruence|]. reflexivity.
  - change ((a :: b :: l) ++ m) with (a :: (b :: l) ++ m).
    change (join sep (a :: (b :: l) ++ m))
      with (a ++ sep ++ join sep ((b :: l) ++ m)).
    rewrite IH by discriminate.
    change (join sep (a :: b :: l)) with (a ++ sep ++ join sep (b :: l)).
    rewrite <- !app_assoc. reflexivity.
Qed.

Lemma line_of_app (a b : list interval) :
  a <> [] -> b <> [] -> line_of (a ++ b) = line_of a ++ " " ++ line_of b.
Proof.
  intros Ha Hb. unfold line_of. rewrite map_app. apply join_app.
  - destruct a; [congruence | discriminate].
  - destruct b; [congruence | discriminate].
Qed.

Lemma concat_nonempty {A : Type} (gs : list (list A)) :
  gs <> [] -> Forall (fun g => g <> []) gs -> List.concat gs <> [].
Proof.
  intros Hne H. destruct gs as [|g gs]; [congruence|].
  inversion H as [|? ? Hg _]; subst. simpl.
  destruct g; [congruence | discriminate].
Qed.

(** The lines of the groups, joined, are the line of all the words. *)
Lemma join_lines (gs : list (list interval)) :
  Forall (fun g => g <> []) gs ->
  join " " (map line_of gs) = line_of (List.concat gs).
Proof.
  induction gs as [|g gs IH]; intros H; [reflexivity|].
  inversion H as [|? ? Hg Hgs]; subst.
  destruct gs as [|g' gs].
  - simpl. rewrite app_nil_r. reflexivity.
  - change (map line_of (g :: g' :: gs))
      with (line_of g :: map line_of (g' :: gs)).
    change (join " " (line_of g :: map line_of (g' :: gs)))
      with (line_of g ++ " " ++ join " " (map line_of (g' :: gs))).
    rewrite (IH Hgs).
    change (List.concat (g :: g' :: gs))
      with (g ++ List.concat (g' :: gs)).
    rewrite line_of_app; [reflexivity | exact Hg |].
    apply concat_nonempty; [discriminate | exact Hgs].
Qed.

Lemma closed_group_nonempty (max_chars : Z) (g : list interval) :
  closed_group max_chars g -> g <> [].
Proof. intros [Hc _] ->. discriminate. Qed.

Lemma rendered_groups_nonempty (max_chars : Z) (gs : list (list interval))
    (t : list interval) :
  Forall (closed_group max_chars) gs ->
  Forall (fun g => g <> []) (rendered_groups gs t).
Proof.
  intros H. unfold rendered_groups. apply Forall_app. split.
  - eapply Forall_impl; [|exact H].
    intros g. apply closed_group_nonempty.
  - destruct t; constructor; [discriminate | constructor].
Qed.

Lemma concat_rendered_groups (gs : list (list interval)) (t : list interval) :
  List.concat (rendered_groups gs t) = List.concat gs ++ t.
Proof.
  unfold rendered_groups. rewrite concat_app.
  destruct t; simpl; rewrite ?app_nil_r; reflexivity.
Qed.

(** The cues against the rendered groups: text, start and, for a closed
    group, end. *)
Lemma group_words_cues (word_intervals : list interval) (max_chars : Z)
    (cues : list subtitle) :
  group_words_into_sentences word_intervals max_chars = Ok cues ->
  exists gs t,
    segmentation max_chars (filter nonblank word_intervals) gs t
    /\ Forall2 (fun g c =>
         cue_text c = line_of g
         /\ xmin (hd empty_dict g) = Some (fst (fst c))
         /\ (xmax (last g empty_dict) = Some (snd (fst c))
             \/ g = t
                /\ xmax (last word_intervals empty_dict)
                   = Some (snd (fst c))))
         (rendered_groups gs t) cues.
Proof.
  intros H.
  destruct (group_words_result _ _ _ H)
    as (gs & t & closed & Hseg & Hren & Hfinal).
  exists gs, t. split; [exact Hseg|].
  assert (Hclosed : Forall2 (fun g c =>
            cue_text c = line_of g
            /\ xmin (hd empty_dict g) = Some (fst (fst c))
            /\ (xmax (last g empty_dict) = Some (snd (fst c))
                \/ g = t
                   /\ xmax (last word_intervals empty_dict)
                      = Some (snd (fst c)))) gs closed).
  { eapply Forall2_impl; [|exact Hren].
    intros g [[a b] c]. unfold renders, cue_text. simpl.
    intros (H1 & H2 & H3). auto. }
  unfold rendered_groups. destruct t as [|w t].
  - subst cues. rewrite app_nil_r. exact Hclosed.
  - destruct Hfinal as (start & stop & Hs & He & ->).
    apply Forall2_app; [exact Hclosed|].
    constructor; [|constructor].
    unfold cue_text. simpl. auto.
Qed.

Lemma Forall2_map_eq {A B C : Type} (f : A -> C) (g : B -> C)
    (l : list A) (m : list B) :
  Forall2 (fun a b => g b = f a) l m -> map g m = map f l.
Proof.
  intros H. induction H as [|a b l m Hab _ IH]; [reflexivity|].
  simpl. rewrite Hab, IH. reflexivity.
Qed.

Lemma Forall_concat_In {A : Type} (gs : list (list A)) (g : list A) (x : A) :
  In g gs -> In x g -> In x (List.concat gs).
Proof.
  intros Hg Hx. apply in_concat. exists g. auto.
Qed.

Lemma segmentation_words (max_chars : Z) (ws : list interval)
    (gs : list (list interval)) (t g : list interval) (w : interval) :
  segmentation max_chars (filter nonblank ws) gs t ->
  In g (rendered_groups gs t) -> In w g ->
  In w ws /\ nonblank w = true.
Proof.
  intros [E _ _] Hg Hw. apply filter_In. rewrite E.
  rewrite <- concat_rendered_groups.
  apply (Forall_concat_In _ g); assumption.
Qed.

(** X9.  No word is lost, repeated or moved, and no cue is empty.  The
    texts of the cues, joined by single spaces, are the stripped texts of
    the non-blank input words joined by single spaces, in input order; and
    every cue text is non-empty and has no blank at either end. *)
Theorem cues_keep_every_word (word_intervals : list interval)
    (max_chars : Z) (cues : list subtitle) :
  group_words_into_sentences word_intervals max_chars = Ok cues ->
  join " " (map cue_text cues)
  = join " " (map word_text (filter nonblank word_intervals))
  /\ Forall (fun c => cue_text c <> [] /\ strip (cue_text c) = cue_text c)
            cues.
Proof.
  intros H.
  destruct (group_words_cues _ _ _ H) as (gs & t & Hseg & Hcues).
  pose proof (rendered_groups_nonempty max_chars gs t (seg_closed _ _ _ _ Hseg))
    as Hne.
  split.
  - rewrite (Forall2_map_eq line_of cue_text (rendered_groups gs t) cues).
    + rewrite (join_lines _ Hne), concat_rendered_groups.
      rewrite <- (seg_concat _ _ _ _ Hseg). reflexivity.
    + eapply Forall2_impl; [|exact Hcues]. intros g c (Ht & _). exact Ht.
  - eapply Forall2_right; [|exact Hcues].
    intros g c Hin (Ht & _). rewrite Ht.
    assert (Hnb : Forall (fun w => nonblank w = true) g).
    { apply Forall_forall. intros w Hw.
      apply (segmentation_words _ _ _ _ _ _ Hseg Hin Hw). }
    destruct (line_of_tidy g Hnb) as [Htidy Hnonempty].
    rewrite Forall_forall in Hne.
    split; [apply Hnonempty, Hne, Hin | apply strip_tidy, Htidy].
Qed.

Lemma cues_keep_every_word_witness :
  join " " (map cue_text sample_cues)
  = join " " (map word_text (filter nonblank sample_words)).
Proof.
  assert (H : group_words_into_sentences sample_words 20 = Ok sample_cues)
    by (vm_compute; reflexivity).
  exact (proj1 (cues_keep_every_word sample_words 20 sample_cues H)).
Defined.

Lemma list_snoc_cases {A : Type} (l : list A) :
  l = [] \/ exists p x, l = p ++ [x].
Proof.
  destruct l as [|x l _] using rev_ind; [left; reflexivity|].
  right. exists l, x. reflexivity.
Qed.

Lemma not_closing_fits (max_chars : Z) (p : list interval) :
  p <> [] -> closes max_chars p = false ->
  (len (line_of p) <= max_chars)%Z.
Proof.
  intros Hne Hc. destruct (list_snoc_cases p) as [-> | (q & x & ->)];
    [congruence|].
  rewrite closes_snoc in Hc. apply orb_false_iff in Hc.
  destruct Hc as [Hc _]. apply Z.ltb_ge in Hc. exact Hc.
Qed.

(** X10.  How far a cue may exceed the limit.  Every cue is either a
    single word, or a line of at most [max_chars] characters followed by
    one space and one more word: the word that made the line too long, or
    that ended the sentence, is kept on the line it closes. *)
Theorem cue_exceeds_by_one_word (word_intervals : list interval)
    (max_chars : Z) (cues : list subtitle) :
  group_words_into_sentences word_intervals max_chars = Ok cues ->
  Forall (fun c =>
            exists w, In w word_intervals /\ nonblank w = true
              /\ (cue_text c = word_text w
                  \/ exists line,
                       cue_text c = line ++ " " ++ word_text w
                       /\ (len line <= max_chars)%Z))
         cues.
Proof.
  intros H.
  destruct (group_words_cues _ _ _ H) as (gs & t & Hseg & Hcues).
  pose proof (rendered_groups_nonempty max_chars gs t (seg_closed _ _ _ _ Hseg))
    as Hne.
  eapply Forall2_right; [|exact Hcues].
  intros g c Hin (Ht & _).
  rewrite Forall_forall in Hne. pose proof (Hne g Hin) as Hg.
  destruct (list_snoc_cases g) as [-> | (p & w & ->)]; [congruence|].
  exists w.
  destruct (segmentation_words _ _ _ _ _ w Hseg Hin) as [Hw Hnb];
    [apply in_or_app; right; left; reflexivity|].
  split; [exact Hw|]. split; [exact Hnb|].
  rewrite Ht, line_of_snoc. destruct p as [|a p]; [left; reflexivity|].
  right. exists (line_of (a :: p)). split; [reflexivity|].
  apply not_closing_fits; [discriminate|].
  (* the line before the last word did not close *)
  unfold rendered_groups in Hin. apply in_app_or in Hin.
  destruct Hin as [Hin | Hin].
  - pose proof (seg_closed _ _ _ _ Hseg) as Hc.
    rewrite Forall_forall in Hc. destruct (Hc _ Hin) as [_ Hmin].
    apply Hmin; [exists [w]; reflexivity|].
    intros E. apply (f_equal (@List.length interval)) in E.
    simpl in E. rewrite length_app in E. simpl in E. lia.
  - destruct t as [|x t]; [destruct Hin|].
    destruct Hin as [E | []].
    apply (seg_open _ _ _ _ Hseg). rewrite E. exists [w]. reflexivity.
Qed.

Lemma cue_exceeds_by_one_word_witness :
  Forall (fun c =>
            exists w, In w sample_words /\ nonblank w = true
              /\ (cue_text c = word_text w
                  \/ exists line,
                       cue_text c = line ++ " " ++ word_text w
                       /\ (len line <= 20)%Z))
         sample_cues.
Proof.
  apply (cue_exceeds_by_one_word sample_words 20 sample_cues).
  vm_compute. reflexivity.
Defined.

(** *** What the function can raise *)

Lemma group_step_raise (max_chars : Z) (st : group_state) (w : interval)
    (e : exn) :
  group_step max_chars st w = Raise e ->
  nonblank w = true
  /\ ((e = KeyError "xmin" /\ xmin w = None)
      \/ (e = KeyError "xmax" /\ xmax w = None)).
Proof.
  unfold group_step, nonblank.
  destruct (truthy (strip (get_text w))); simpl; [|discriminate].
  intros H. split; [reflexivity|].
  unfold getitem_xmin, getitem_xmax in H.
  destruct (sentence_start st) as [s|]; simpl in H.
  - destruct (_ || _); [|discriminate].
    destruct (xmax w); simpl in H; [discriminate|].
    injection H as <-. auto.
  - destruct (xmin w); simpl in H.
    + destruct (_ || _); [|discriminate].
      destruct (xmax w); simpl in H; [discriminate|].
      injection H as <-. auto.
    + injection H as <-. auto.
Qed.

Lemma group_loop_raise (max_chars : Z) (ws : list interval)
    (st : group_state) (e : exn) :
  group_loop max_chars ws st = Raise e ->
  exists w, In w ws /\ nonblank w = true
            /\ ((e = KeyError "xmin" /\ xmin w = None)
                \/ (e = KeyError "xmax" /\ xmax w = None)).
Proof.
  revert st; induction ws as [|w ws IH]; intros st H; [discriminate|].
  simpl in H. destruct (group_step max_chars st w) as [st'|e'] eqn:Es.
  - simpl in H. destruct (IH _ H) as (w' & Hin & Hw).
    exists w'. split; [right; exact Hin | exact Hw].
  - simpl in H. injection H as <-.
    destruct (group_step_raise _ _ _ _ Es) as [Hnb Hc].
    exists w. split; [left; reflexivity | auto].
Qed.

(** X11.  The only failure is a missing bound.  When the cue grouper
    raises, the exception is [KeyError] for ["xmin"] or for ["xmax"], some
    input interval lacks that key, and the input holds a word that is not
    blank.  It never raises [IndexError]: the lookup
    [word_intervals[-1]] is reached only after a word was read; an input
    that is empty, or made of blank intervals only, yields no cue and no
    exception even when bounds are missing. *)
Theorem group_words_raises_on_missing_bound (word_intervals : list interval)
    (max_chars : Z) (e : exn) :
  group_words_into_sentences word_intervals max_chars = Raise e ->
  (exists w, In w word_intervals /\ nonblank w = true)
  /\ exists w, In w word_intervals
               /\ ((e = KeyError "xmin" /\ xmin w = None)
                   \/ (e = KeyError "xmax" /\ xmax w = None)).
Proof.
  unfold group_words_into_sentences. intros H.
  destruct (group_loop max_chars word_intervals (mkGroup [] [] None))
    as [st|e'] eqn:Eloop.
  - simpl in H.
    destruct (group_loop_inv _ _ _ _ _ (group_inv_init max_chars) Eloop)
      as (gs & t & Hseg & _ & Hcur & _ & _).
    simpl in Hseg.
    destruct (truthy (current_sentence st)) eqn:Et; [|discriminate].
    destruct (sentence_start st) as [s|]; [|discriminate].
    assert (Hword : exists w, In w word_intervals /\ nonblank w = true).
    { destruct t as [|w t].
      - rewrite Hcur in Et. discriminate.
      - exists w. apply filter_In. rewrite (seg_concat _ _ _ _ Hseg).
        apply in_or_app. right. left. reflexivity. }
    split; [exact Hword|].
    unfold last_xmax in H.
    destruct (rev word_intervals) as [|z r] eqn:Er.
    + destruct Hword as (w & Hin & _).
      apply in_rev in Hin. rewrite Er in Hin. destruct Hin.
    + unfold getitem_xmax in H. destruct (xmax z) eqn:Ez; [discriminate|].
      simpl in H. injection H as <-.
      exists z. split; [|auto].
      apply in_rev. rewrite Er. left. reflexivity.
  - simpl in H. injection H as <-.
    destruct (group_loop_raise _ _ _ _ Eloop) as (w & Hin & Hnb & Hc).
    split; exists w; auto.
Qed.

Lemma group_words_raises_on_missing_bound_witness :
  exists w, In w [mkInterval None None (Some ("" : str));
                  mkInterval (Some fzero) None (Some ("end." : str))]
            /\ nonblank w = true.
Proof.
  refine (proj1 (group_words_raises_on_missing_bound
                   [mkInterval None None (Some ("" : str));
                    mkInterval (Some fzero) None (Some ("end." : str))]
                   50 (KeyError "xmax") _)).
  reflexivity.
Defined.

(** *** The times of the cues *)

Lemma subseq_nil_l {A : Type} (l : list A) : subseq [] l.
Proof. induction l; constructor; assumption. Qed.

Lemma subseq_refl {A : Type} (l : list A) : subseq l l.
Proof. induction l; constructor; assumption. Qed.

Lemma subseq_app {A : Type} (a a' b b' : list A) :
  subseq a a' -> subseq b b' -> subseq (a ++ b) (a' ++ b').
Proof.
  intros Ha Hb. induction Ha; simpl; [exact Hb | |]; constructor; assumption.
Qed.

Lemma subseq_In {A : Type} (x : A) (l : list A) : In x l -> subseq [x] l.
Proof.
  induction l as [|y l IH]; intros H; [destruct H|].
  destruct H as [-> | H].
  - apply subseq_keep. apply subseq_nil_l.
  - apply subseq_skip. apply IH. exact H.
Qed.

Lemma subseq_Forall {A : Type} (P : A -> Prop) (l m : list A) :
  subseq l m -> Forall P m -> Forall P l.
Proof.
  intros H. induction H; intros F; [constructor | |].
  - apply IHsubseq. inversion F; assumption.
  - inversion F; subst. constructor; auto.
Qed.

Lemma subseq_sorted {A : Type} (R : A -> A -> Prop) (l m : list A) :
  subseq l m -> StronglySorted R m -> StronglySorted R l.
Proof.
  intros H. induction H; intros S; [constructor | |].
  - apply IHsubseq. inversion S; assumption.
  - inversion S as [|? ? S' F]; subst.
    constructor; [apply IHsubseq; exact S'|].
    apply (subseq_Forall _ _ _ H F).
Qed.

Lemma bounds_of_app (a b : list interval) :
  bounds_of (a ++ b) = bounds_of a ++ bounds_of b.
Proof. unfold bounds_of. apply flat_map_app. Qed.

Lemma bounds_of_cons (w : interval) (ws : list interval) :
  bounds_of (w :: ws)
  = (opt_list (xmin w) ++ opt_list (xmax w)) ++ bounds_of ws.
Proof. reflexivity. Qed.

Lemma bounds_of_filter (f : interval -> bool) (ws : list interval) :
  subseq (bounds_of (filter f ws)) (bounds_of ws).
Proof.
  induction ws as [|w ws IH]; [constructor|].
  rewrite bounds_of_cons. simpl. destruct (f w).
  - rewrite bounds_of_cons.
    apply subseq_app; [apply subseq_refl | exact IH].
  - apply (subseq_app [] _ _ _ (subseq_nil_l _) IH).
Qed.

Lemma subseq_trans {A : Type} (a b c : list A) :
  subseq a b -> subseq b c -> subseq a c.
Proof.
  intros Hab Hbc. revert a Hab. induction Hbc; intros a Hab.
  - exact Hab.
  - apply subseq_skip. apply IHHbc. exact Hab.
  - inversion Hab; subst.
    + apply subseq_skip. apply IHHbc. assumption.
    + apply subseq_keep. apply IHHbc. assumption.
Qed.

Lemma In_xmax_bounds (w : interval) (l : list interval) (b : float) :
  In w l -> xmax w = Some b -> In b (bounds_of l).
Proof.
  intros Hin Hb. unfold bounds_of. apply in_flat_map. exists w.
  split; [exact Hin|]. apply in_or_app. right. rewrite Hb. left. reflexivity.
Qed.

Lemma last_In {A : Type} (l : list A) (d : A) : l <> [] -> In (last l d) l.
Proof.
  intros H. destruct (list_snoc_cases l) as [-> | (p & x & ->)];
    [congruence|].
  rewrite last_last. apply in_or_app. right. left. reflexivity.
Qed.

Lemma last_app_nonempty {A : Type} (l m : list A) (d : A) :
  m <> [] -> last (l ++ m) d = last m d.
Proof.
  intros H. destruct (list_snoc_cases m) as [-> | (p & x & ->)];
    [congruence|].
  rewrite app_assoc, !last_last. reflexivity.
Qed.

(** The start of a word and the end of the last interval of a list, in
    the bounds of the list. *)
Lemma start_and_last_end (pre post : list interval) (w : interval)
    (a b : float) :
  xmin w = Some a ->
  xmax (last (pre ++ w :: post) empty_dict) = Some b ->
  subseq [a; b] (bounds_of (pre ++ w :: post)).
Proof.
  intros Ha Hb. rewrite bounds_of_app.
  apply (subseq_app [] _ [a; b] _ (subseq_nil_l _)).
  rewrite last_app_nonempty in Hb by discriminate.
  rewrite bounds_of_cons, Ha. simpl.
  apply subseq_keep.
  destruct post as [|x post].
  - simpl in Hb. rewrite Hb. simpl. apply subseq_refl.
  - apply subseq_In. apply in_or_app. right.
    apply (In_xmax_bounds (last (w :: x :: post) empty_dict)); [|exact Hb].
    change (last (w :: x :: post) empty_dict)
      with (last (x :: post) empty_dict).
    apply last_In. discriminate.
Qed.

Lemma closed_cue_times (gs : list (list interval)) (closed : list subtitle) :
  Forall (fun g => g <> []) gs -> Forall2 renders gs closed ->
  subseq (cue_times closed) (bounds_of (List.concat gs)).
Proof.
  intros Hne H. induction H as [|g c gs closed Hr _ IH]; [constructor|].
  inversion Hne as [|? ? Hg Hgs]; subst.
  change (cue_times (c :: closed))
    with ([fst (fst c); snd (fst c)] ++ cue_times closed).
  cbn [List.concat]. rewrite bounds_of_app.
  apply subseq_app; [|apply IH; exact Hgs].
  destruct c as [[a b] line]. unfold renders in Hr. simpl.
  destruct Hr as (Ha & Hb & _).
  destruct g as [|w g]; [congruence|].
  apply (start_and_last_end [] g w a b); assumption.
Qed.

Lemma filter_app_split {A : Type} (f : A -> bool) (l a b : list A) :
  filter f l = a ++ b ->
  exists l1 l2, l = l1 ++ l2 /\ filter f l1 = a /\ filter f l2 = b.
Proof.
  revert a; induction l as [|x l IH]; intros a H.
  - simpl in H. symmetry in H. apply app_eq_nil in H. destruct H as [-> ->].
    exists [], []. auto.
  - simpl in H. destruct (f x) eqn:Ex.
    + destruct a as [|y a].
      * exists [], (x :: l). simpl. rewrite Ex. auto.
      * simpl in H. injection H as <- H.
        destruct (IH a H) as (l1 & l2 & -> & H1 & H2).
        exists (x :: l1), l2. simpl. rewrite Ex, H1. auto.
    + destruct (IH a H) as (l1 & l2 & -> & H1 & H2).
      exists (x :: l1), l2. simpl. rewrite Ex. auto.
Qed.

Lemma cue_times_app (a b : list subtitle) :
  cue_times (a ++ b) = cue_times a ++ cue_times b.
Proof. unfold cue_times. apply flat_map_app. Qed.

(** The times of the cues are bounds of the input, in input order. *)
Lemma cue_times_subseq (word_intervals : list interval) (max_chars : Z)
    (cues : list subtitle) :
  group_words_into_sentences word_intervals max_chars = Ok cues ->
  subseq (cue_times cues) (bounds_of word_intervals).
Proof.
  intros H.
  destruct (group_words_result _ _ _ H)
    as (gs & t & closed & Hseg & Hren & Hfinal).
  pose proof (seg_concat _ _ _ _ Hseg) as Hcat.
  assert (Hne : Forall (fun g => g <> []) gs).
  { eapply Forall_impl; [|exact (seg_closed _ _ _ _ Hseg)].
    intros g. apply closed_group_nonempty. }
  pose proof (closed_cue_times gs closed Hne Hren) as Hclosed.
  destruct t as [|w t].
  - subst cues. rewrite app_nil_r in Hcat. rewrite <- Hcat in Hclosed.
    apply (subseq_trans _ _ _ Hclosed). apply bounds_of_filter.
  - destruct Hfinal as (start & stop & Hs & He & ->).
    destruct (filter_app_split _ _ _ _ Hcat) as (l1 & l2 & El & H1 & H2).
    rewrite cue_times_app, El, bounds_of_app.
    apply subseq_app.
    + rewrite <- H1 in Hclosed.
      apply (subseq_trans _ _ _ Hclosed). apply bounds_of_filter.
    + assert (Hin : In w l2).
      { assert (Hw : In w (filter nonblank l2))
          by (rewrite H2; left; reflexivity).
        apply filter_In in Hw. apply Hw. }
      apply in_split in Hin. destruct Hin as (pre & post & ->).
      rewrite El in He. rewrite last_app_nonempty in He
        by (destruct pre; discriminate).
      simpl. apply start_and_last_end; assumption.
Qed.

(** X12.  The cues are in the order of the input times.  The start and
    end times of the cues, read cue after cue, are bounds of the input
    intervals taken in input order; hence whenever the bounds of the input
    are ordered by some relation (each interval starts no later than it
    ends and no earlier than the previous one ends), so are the times of
    the cues: no cue ends before it starts or starts before the previous
    cue has ended. *)
Theorem cue_times_in_input_order (word_intervals : list interval)
    (max_chars : Z) (cues : list subtitle) (R : float -> float -> Prop) :
  group_words_into_sentences word_intervals max_chars = Ok cues ->
  StronglySorted R (bounds_of word_intervals) ->
  subseq (cue_times cues) (bounds_of word_intervals)
  /\ StronglySorted R (cue_times cues).
Proof.
  intros H S. pose proof (cue_times_subseq _ _ _ H) as Hsub.
  split; [exact Hsub | exact (subseq_sorted R _ _ Hsub S)].
Qed.

Lemma cue_times_in_input_order_witness :
  StronglySorted (fun a b => SFleb a b = true) (cue_times sample_cues).
Proof.
  refine (proj2 (cue_times_in_input_order sample_words 20 sample_cues
                   (fun a b => SFleb a b = true) _ _)).
  - vm_compute. reflexivity.
  - repeat constructor.
Defined.

(** ** Reinjection followed by grouping *)

Lemma reinject_keeps_bounds (word_intervals : list interval)
    (original_script : str) :
  Forall has_bounds (filter nonblank word_intervals) ->
  Forall has_bounds
         (reinject_case_and_characters word_intervals original_script).
Proof.
  intros H. eapply Forall2_right; [|apply reinject_same_interval].
  intros iv iv' Hin (Hlo & Hhi & _).
  rewrite Forall_forall in H. destruct (H iv Hin) as [H1 H2].
  split; congruence.
Qed.

(** X13.  The two stages composed, as the callers run them.  When every
    non-blank interval has its bounds, grouping the reinjected intervals
    does not fail, whatever bounds the blank intervals lack; the
    reinjected intervals themselves, none left out, are cut into closed
    groups and an open line, and every cue, the trailing one included,
    starts at the start of the first word of its group, ends at the end of
    the last word of its group and carries the line of its group. *)
Theorem reinjected_words_group (word_intervals : list interval)
    (original_script : str) (max_chars : Z) :
  Forall has_bounds (filter nonblank word_intervals) ->
  exists cues gs t,
    group_words_into_sentences
      (reinject_case_and_characters word_intervals original_script) max_chars
    = Ok cues
    /\ segmentation max_chars
         (reinject_case_and_characters word_intervals original_script) gs t
    /\ Forall2 renders (rendered_groups gs t) cues.
Proof.
  intros Hb.
  set (out := reinject_case_and_characters word_intervals original_script).
  pose proof (reinject_keeps_bounds _ original_script Hb) as Hout.
  fold out in Hout.
  destruct (group_words_total out max_chars Hout) as [cues Hc].
  destruct (group_words_result _ _ _ Hc)
    as (gs & t & closed & Hseg & Hren & Hfinal).
  assert (Eout : filter nonblank out = out)
    by (apply filter_all, reinject_all_nonblank).
  rewrite Eout in Hseg.
  exists cues, gs, t. split; [exact Hc|]. split; [exact Hseg|].
  unfold rendered_groups. destruct t as [|w t].
  - subst cues. rewrite app_nil_r. exact Hren.
  - destruct Hfinal as (start & stop & Hs & He & ->).
    apply Forall2_app; [exact Hren|].
    constructor; [|constructor].
    unfold renders. split; [exact Hs|]. split; [|reflexivity].
    rewrite (seg_concat _ _ _ _ Hseg) in He.
    rewrite last_app_nonempty in He by discriminate. exact He.
Qed.

End CuesAsAWhole.

Section CuesAsAWholeExamples.

#[local] Existing Instance ascii_unicode.

Lemma reinjected_words_group_witness :
  exists cues gs t,
    group_words_into_sentences
      (reinject_case_and_characters
         [word_at 0 5 "hello"; mkInterval None None (Some (" " : str));
          word_at 6 10 "world"]
         "Hello, World!") 50
    = Ok cues
    /\ segmentation 50
         (reinject_case_and_characters
            [word_at 0 5 "hello"; mkInterval None None (Some (" " : str));
             word_at 6 10 "world"]
            "Hello, World!") gs t
    /\ Forall2 renders (rendered_groups gs t) cues.
Proof.
  apply (reinjected_words_group
           [word_at 0 5 "hello"; mkInterval None None (Some (" " : str));
            word_at 6 10 "world"]
           "Hello, World!" 50).
  repeat constructor; discriminate.
Defined.

End CuesAsAWholeExamples.

(** ** [seconds_to_timestamp]: the range of the fields *)

Local Open Scope Z_scope.

(** The mantissa and the exponent after the shift of [shr_fexp]. *)
Lemma shr_fexp_value (M e : Z) (l : location) :
  0 <= M ->
  snd (shr_fexp prec emax M e l) = Z.max e (fexp prec emax (Zdigits2 M + e))
  /\ shr_m (fst (shr_fexp prec emax M e l))
     = M / 2 ^ (snd (shr_fexp prec emax M e l) - e).
Proof.
  intros HM. unfold shr_fexp, shr.
  assert (Hrec : shr_m (shr_record_of_loc M l) = M)
    by (destruct l as [|[| |]]; reflexivity).
  destruct (fexp prec emax (Zdigits2 M + e) - e) as [|p|p] eqn:E;
    cbn [fst snd].
  - split; [lia|]. rewrite Hrec, Z.sub_diag, Z.div_1_r. reflexivity.
  - split; [lia|]. rewrite shr_m_iter by (rewrite Hrec; lia).
    rewrite Hrec. f_equal. f_equal. lia.
  - split; [lia|]. rewrite Hrec, Z.sub_diag, Z.div_1_r. reflexivity.
Qed.

(** Rounding a positive value strictly below an integer [K] gives a
    double that is at most [K]. *)
Lemma binary_round_aux_below (M e K : Z) :
  0 < M -> 0 < K -> e <= -2 -> Zdigits2 M + e <= 51 ->
  M < K * 2 ^ (- e) ->
  binary_round_aux prec emax false M e loc_Exact = S754_zero false
  \/ exists m e',
       binary_round_aux prec emax false M e loc_Exact = S754_finite false m e'
       /\ e' < 0 /\ Zpos m <= K * 2 ^ (- e').
Proof.
  intros HM HK He Hd Hlt. unfold binary_round_aux.
  pose proof (shr_fexp_value M e loc_Exact ltac:(lia)) as [He1 Hm1].
  pose proof (shr_fexp_bounds M e loc_Exact ltac:(lia)) as (H0 & _ & Hsz).
  destruct (shr_fexp prec emax M e loc_Exact) as [mrs1 e1] eqn:E1.
  cbn [fst snd] in *.
  set (M1 := round_nearest_even (shr_m mrs1) (loc_of_shr_record mrs1)).
  pose proof (round_nearest_even_bounds (shr_m mrs1)
                (loc_of_shr_record mrs1)) as HM1. fold M1 in HM1.
  pose proof (shr_fexp_value M1 e1 loc_Exact ltac:(lia)) as [He2 Hm2].
  destruct (shr_fexp prec emax M1 e1 loc_Exact) as [mrs2 e2] eqn:E2.
  cbn [fst snd] in *.
  rewrite fexp_eq in He1, He2.
  assert (He1' : e <= e1 <= -2) by lia.
  (* the mantissa after the first shift is below K * 2^(-e1) *)
  assert (Hsplit : 2 ^ (- e) = 2 ^ (- e1) * 2 ^ (e1 - e)).
  { rewrite <- Z.pow_add_r by lia. f_equal. lia. }
  pose proof (pow2_pos (e1 - e) ltac:(lia)) as Hp1.
  pose proof (pow2_pos (- e1) ltac:(lia)) as Hq1.
  assert (Hm1lt : shr_m mrs1 < K * 2 ^ (- e1)).
  { rewrite Hm1. apply Z.div_lt_upper_bound; [lia|].
    rewrite Hsplit in Hlt. lia. }
  assert (HM1le : M1 <= K * 2 ^ (- e1)) by lia.
  (* the exponent after the second shift is still negative *)
  assert (He2' : e1 <= e2 <= -1).
  { split; [lia|].
    destruct (Z.eq_dec M1 0) as [EM | EM].
    - rewrite EM in He2. simpl in He2. lia.
    - destruct (Hsz HM) as [Hlt53 | Hle].
      + assert (M1 < 2 ^ 54).
        { change (2 ^ 54) with (2 ^ 53 + 2 ^ 53). lia. }
        pose proof (digits_lt_pow2 M1 54 ltac:(lia) ltac:(assumption)). lia.
      + assert (Emrs : mrs1 = Build_shr_record M false false /\ e1 = e).
        { rewrite shr_fexp_none in E1 by exact Hle.
          injection E1 as <- <-. auto. }
        destruct Emrs as [Emrs Ee]. unfold M1 in He2. rewrite Emrs in He2.
        simpl in He2. rewrite fexp_eq in Hle. lia. }
  assert (Hsplit2 : 2 ^ (- e1) = 2 ^ (- e2) * 2 ^ (e2 - e1)).
  { rewrite <- Z.pow_add_r by lia. f_equal. lia. }
  pose proof (pow2_pos (e2 - e1) ltac:(lia)) as Hp2.
  pose proof (pow2_pos (- e2) ltac:(lia)) as Hq2.
  assert (Hm2le : shr_m mrs2 <= K * 2 ^ (- e2)).
  { rewrite Hm2.
    apply Z.div_le_upper_bound; [lia|].
    rewrite Hsplit2 in HM1le. lia. }
  destruct (shr_m mrs2) as [|m|m] eqn:Em.
  - left. reflexivity.
  - right. exists m, e2.
    replace (e2 <=? emax - prec) with true
      by (symmetry; apply Z.leb_le; unfold emax, prec; lia).
    split; [reflexivity|]. split; [lia | exact Hm2le].
  - exfalso.
    assert (0 <= M1 / 2 ^ (e2 - e1)) by (apply Z.div_pos; lia).
    lia.
Qed.

(** [round] of a non-negative double that is at most an integer [K]. *)
Lemma py_round_below (m : positive) (e K r : Z) :
  e < 0 -> Zpos m <= K * 2 ^ (- e) ->
  py_round (S754_finite false m e) = Ok r -> 0 <= r <= K.
Proof.
  intros He Hle. unfold py_round.
  replace (0 <=? e) with false by (symmetry; apply Z.leb_gt; exact He).
  rewrite (Z.shiftr_div_pow2 (Zpos m) (- e)) by lia.
  rewrite (Z.land_ones (Zpos m) (- e)) by lia.
  rewrite (Z.shiftl_mul_pow2 1 (- e - 1)) by lia.
  rewrite Z.mul_1_l. cbn [cond_Zopp].
  intros H. apply Ok_inj in H. subst r.
  pose proof (pow2_pos (- e) ltac:(lia)) as Hp.
  pose proof (pow2_pos (- e - 1) ltac:(lia)) as Hh.
  pose proof (Z.div_mod (Zpos m) (2 ^ (- e)) ltac:(lia)) as Hdm.
  pose proof (Z.mod_pos_bound (Zpos m) (2 ^ (- e)) Hp) as Hb.
  set (q := Zpos m / 2 ^ (- e)) in *.
  set (rm := Zpos m mod 2 ^ (- e)) in *.
  assert (Hq0 : 0 <= q) by (apply Z.div_pos; lia).
  assert (HqK : q <= K).
  { apply Z.div_le_upper_bound; lia. }
  destruct (rm ?= 2 ^ (- e - 1)) eqn:E.
  - apply Z.compare_eq in E.
    destruct (Z.even q); [lia|].
    assert (q <> K) by (intros ->; nia). lia.
  - lia.
  - rewrite Z.compare_gt_iff in E.
    assert (q <> K) by (intros ->; nia). lia.
Qed.

(** The milliseconds of a fractional part. *)
Lemma milliseconds_bound (W r : Z) :
  representable W -> 0 <= W < 2 ^ 1074 ->
  py_round (fmul (the_float W) (float_of_Z 1000)) = Ok r ->
  0 <= r <= 1000.
Proof.
  intros HR HW. rewrite float_1000.
  destruct (Z.eq_dec W 0) as [-> | HW0].
  { intros H. vm_compute in H. apply Ok_inj in H. subst r. lia. }
  destruct (the_float_finite W HR ltac:(lia)) as (mw & Emw & _ & _).
  pose proof (valid_the_float W HR) as Hvw.
  pose proof (scaled_the_float W HR) as Hsw.
  rewrite Emw in Hvw, Hsw |- *.
  destruct (valid_bounds _ _ _ Hvw) as [Hmw Hcw].
  assert (Hlog : Z.log2 W < 1074) by (apply Z.log2_lt_pow2; lia).
  assert (Hc : -1074 <= canon_exp W <= -53) by (unfold canon_exp; lia).
  set (c := canon_exp W) in *.
  cbn [scaled cond_Zopp] in Hsw.
  (* the mantissa is below 2^(-c) *)
  assert (Hmlt : Zpos mw < 2 ^ (- c)).
  { pose proof (pow2_pos (c + 1074) ltac:(lia)) as Hp.
    assert (Hs : 2 ^ 1074 = 2 ^ (- c) * 2 ^ (c + 1074)).
    { rewrite <- Z.pow_add_r by lia. f_equal. lia. }
    rewrite Hs in HW. nia. }
  unfold fmul. cbn [SFmul xorb]. rewrite Pos2Z.inj_mul.
  set (M := Zpos mw * 8796093022208000).
  set (e := c + -43).
  assert (HM : 0 < M) by (unfold M; lia).
  assert (Hlt : M < 1000 * 2 ^ (- e)).
  { unfold M, e. replace (- (c + -43)) with (- c + 43) by lia.
    rewrite Z.pow_add_r by lia.
    change (2 ^ 43) with 8796093022208.
    pose proof (pow2_pos (- c) ltac:(lia)). nia. }
  assert (Hd : Zdigits2 M + e <= 51).
  { assert (M < 2 ^ (10 - e)).
    { eapply Z.lt_le_trans; [exact Hlt|].
      replace (10 - e) with (10 + - e) by lia.
      rewrite Z.pow_add_r by (unfold e; lia).
      pose proof (pow2_pos (- e) ltac:(unfold e; lia)).
      change (2 ^ 10) with 1024. nia. }
    pose proof (digits_lt_pow2 M (10 - e) HM ltac:(assumption)). lia. }
  destruct (binary_round_aux_below M e 1000 HM ltac:(lia)
              ltac:(unfold e; lia) Hd Hlt)
    as [E | (m & e' & E & He' & Hm)]; rewrite E.
  - intros H. apply Ok_inj in H. subst r. lia.
  - apply py_round_below; assumption.
Qed.

(** The fields, as quotients and remainders of the whole seconds. *)
Lemma fields_recombine (V U : Z) :
  0 < U -> 0 <= V ->
  V / (3600 * U) = V / U / 3600
  /\ (V mod (3600 * U)) / (60 * U) = ((V / U) mod 3600) / 60
  /\ (V mod (60 * U)) / U = (V / U) mod 60.
Proof.
  intros HU HV.
  pose proof (Z.mod_pos_bound V U HU) as Hr.
  assert (Hsmall : forall X, (V mod U + U * X) / U = X).
  { intros X. rewrite (Z.mul_comm U X), Z.div_add by lia.
    rewrite Z.div_small by lia. reflexivity. }
  split; [|split].
  - rewrite (Z.mul_comm 3600 U), Z.div_div by lia. reflexivity.
  - rewrite (Z.mul_comm 3600 U), (Z.mul_comm 60 U).
    rewrite Z.rem_mul_r by lia.
    rewrite <- Z.div_div by lia. rewrite Hsmall. reflexivity.
  - rewrite (Z.mul_comm 60 U), Z.rem_mul_r by lia. apply Hsmall.
Qed.

Lemma in_range_scaled (x : float) :
  in_range x ->
  valid x /\ finite_nonneg x /\ 0 <= scaled x < 2 ^ 53 * 2 ^ 1074
  /\ Qfloor (F2Q x) = scaled x / 2 ^ 1074.
Proof.
  intros (Hv & Hx & Hlt).
  pose proof (F2Q_scaled x Hx Hv) as E.
  split; [exact Hv|]. split; [exact Hx|]. split.
  - split; [apply scaled_nonneg; exact Hx|].
    assert (H : (scaled x # unit_den < inject_Z (2 ^ 53))%Q).
    { eapply Qle_lt_trans; [|exact Hlt].
      apply Qle_lteq. right. symmetry. exact E. }
    unfold Qlt in H. cbn [Qnum Qden inject_Z] in H.
    rewrite unit_den_eq in H. lia.
  - rewrite (Qfloor_comp _ _ E), Qfloor_frac, unit_den_eq. reflexivity.
Qed.

Lemma float_eq_dec_zero (x : float) :
  x = S754_zero true \/ x <> S754_zero true.
Proof.
  destruct x as [[|] | | |]; try (right; discriminate). left. reflexivity.
Qed.

(** The fields of a time in range, with their ranges. *)
Lemma timestamp_fields_ranges (seconds : float) :
  in_range seconds ->
  exists t,
    timestamp_fields seconds = Ok t
    /\ 0 <= hours t
    /\ 0 <= minutes t < 60
    /\ 0 <= secs t < 60
    /\ 0 <= milliseconds t <= 1000
    /\ 3600 * hours t + 60 * minutes t + secs t = Qfloor (F2Q seconds).
Proof.
  intros Hr.
  destruct (in_range_scaled _ Hr) as (Hv & Hx & [HV0 HVlt] & Hfloor).
  rewrite Hfloor.
  pose proof (pow2_pos 1074 ltac:(lia)) as HU.
  destruct (timestamp_fields_scaled seconds Hx Hv HVlt) as (ms & Ems & Et).
  exists (mkStamp (scaled seconds / (3600 * 2 ^ 1074))
            ((scaled seconds mod (3600 * 2 ^ 1074)) / (60 * 2 ^ 1074))
            ((scaled seconds mod (60 * 2 ^ 1074)) / 2 ^ 1074) ms).
  split; [exact Et|]. cbn [hours minutes secs milliseconds].
  destruct (fields_recombine (scaled seconds) (2 ^ 1074) HU HV0)
    as (Eh & Em & Es).
  rewrite Eh, Em, Es.
  set (W := scaled seconds / 2 ^ 1074).
  assert (HW : 0 <= W) by (apply Z.div_pos; lia).
  assert (Hms : 0 <= ms <= 1000).
  { destruct (float_eq_dec_zero seconds) as [Ez | Hnz].
    - rewrite Ez in Ems. vm_compute in Ems. apply Ok_inj in Ems. lia.
    - destruct (fractional_part_exact seconds Hx Hv HVlt Hnz)
        as (_ & _ & HRw & Ew).
      rewrite Ew in Ems.
      apply (milliseconds_bound _ _ HRw); [|exact Ems].
      apply Z.mod_pos_bound. exact HU. }
  clearbody W. clear - HW Hms.
  repeat split; try lia; Z.div_mod_to_equations; lia.
Qed.

(** X14.  The fields of a time in range.  For every non-negative double
    below [2^53] the four fields are computed without failing; the hours
    are not negative, the minutes and the seconds lie in [0, 60), the
    three of them recombine to the whole seconds of the input,
    [3600 * hours + 60 * minutes + secs = floor(seconds)], and the
    milliseconds lie in [0, 1000], the bound 1000 included. *)
Theorem timestamp_fields_in_range (seconds : float) :
  in_range seconds ->
  exists t,
    timestamp_fields seconds = Ok t
    /\ 0 <= hours t
    /\ 0 <= minutes t < 60
    /\ 0 <= secs t < 60
    /\ 0 <= milliseconds t <= 1000
    /\ 3600 * hours t + 60 * minutes t + secs t = Qfloor (F2Q seconds).
Proof. exact (timestamp_fields_ranges seconds). Qed.

Lemma timestamp_fields_in_range_witness :
  exists t,
    timestamp_fields (decimal 36619996 4) = Ok t
    /\ 0 <= milliseconds t <= 1000
    /\ 3600 * hours t + 60 * minutes t + secs t
       = Qfloor (F2Q (decimal 36619996 4)).
Proof.
  assert (Hr : in_range (decimal 36619996 4)).
  { repeat split; vm_compute; reflexivity. }
  destruct (timestamp_fields_in_range (decimal 36619996 4) Hr)
    as (t & Et & _ & _ & _ & Hms & Hsum).
  exists t. auto.
Defined.

(** *** The shape of the result *)

Lemma Z_range_In (n : Z) (k : nat) :
  0 <= n < Z.of_nat k -> In (Z.to_nat n) (seq 0 k) /\ Z.of_nat (Z.to_nat n) = n.
Proof. intros H. split; [apply in_seq; lia | lia]. Qed.

Lemma format_two_digits (n : Z) :
  0 <= n < 100 -> digit_string 2 (format_0 2 n) = true.
Proof.
  intros H.
  assert (Hall : forallb (fun k => digit_string 2 (format_0 2 (Z.of_nat k)))
                         (seq 0 100) = true) by (vm_compute; reflexivity).
  rewrite forallb_forall in Hall.
  destruct (Z_range_In n 100 ltac:(lia)) as [Hin En].
  specialize (Hall _ Hin). rewrite En in Hall. exact Hall.
Qed.

Lemma format_three_digits (n : Z) :
  0 <= n < 1000 -> digit_string 3 (format_0 3 n) = true.
Proof.
  intros H.
  assert (Hall : forallb (fun k => digit_string 3 (format_0 3 (Z.of_nat k)))
                         (seq 0 1000) = true) by (vm_compute; reflexivity).
  rewrite forallb_forall in Hall.
  destruct (Z_range_In n 1000 ltac:(lia)) as [Hin En].
  specialize (Hall _ Hin). rewrite En in Hall. exact Hall.
Qed.

Lemma digit_string_2 (s : str) :
  digit_string 2 s = true ->
  exists a b, s = [a; b] /\ is_digit a = true /\ is_digit b = true.
Proof.
  unfold digit_string. destruct s as [|a [|b [|c s]]]; try discriminate.
  simpl. rewrite andb_true_r. intros H. apply andb_prop in H.
  exists a, b. tauto.
Qed.

Lemma digit_string_3 (s : str) :
  digit_string 3 s = true ->
  exists a b c, s = [a; b; c]
                /\ is_digit a = true /\ is_digit b = true /\ is_digit c = true.
Proof.
  unfold digit_string.
  destruct s as [|a [|b [|c [|d s]]]]; try discriminate.
  simpl. rewrite andb_true_r. intros H.
  apply andb_prop in H. destruct H as [Ha H]. apply andb_prop in H.
  exists a, b, c. tauto.
Qed.

(** X15.  The shape of a timestamp.  For a non-negative time below one
    hundred hours the result has the shape [HH:MM:SS,mmm], twelve
    characters with two digits for each of the first three fields and
    three for the last, exactly when the rounded milliseconds are below
    1000; when they are 1000 the last field is [1000] and the result has
    thirteen characters. *)
Theorem timestamp_shape (seconds : float) :
  in_range seconds -> (F2Q seconds < 360000)%Q ->
  exists t,
    timestamp_fields seconds = Ok t
    /\ seconds_to_timestamp seconds = Ok (format_stamp t)
    /\ (milliseconds t < 1000 -> stamp_shape (format_stamp t) = true)
    /\ (milliseconds t = 1000 ->
        List.length (format_stamp t) = 13%nat
        /\ stamp_shape (format_stamp t) = false).
Proof.
  intros Hr Hlt.
  destruct (timestamp_fields_ranges seconds Hr)
    as (t & Et & Hh & Hm & Hs & Hms & Hsum).
  exists t. split; [exact Et|].
  split; [unfold seconds_to_timestamp; rewrite Et; reflexivity|].
  assert (Hh100 : hours t < 100).
  { assert (Hf : Qfloor (F2Q seconds) < 360000).
    { pose proof (Qfloor_le (F2Q seconds)) as Hle.
      assert (Hq : (inject_Z (Qfloor (F2Q seconds)) < inject_Z 360000)%Q)
        by (eapply Qle_lt_trans; [exact Hle | exact Hlt]).
      rewrite <- Zlt_Qlt in Hq. exact Hq. }
    lia. }
  destruct (digit_string_2 _ (format_two_digits (hours t) ltac:(lia)))
    as (h1 & h2 & Eh & Hh1 & Hh2).
  destruct (digit_string_2 _ (format_two_digits (minutes t) ltac:(lia)))
    as (m1 & m2 & Em & Hm1 & Hm2).
  destruct (digit_string_2 _ (format_two_digits (secs t) ltac:(lia)))
    as (s1 & s2 & Es & Hs1 & Hs2).
  unfold format_stamp. rewrite Eh, Em, Es.
  split.
  - intros Hlt1000.
    destruct (digit_string_3 _ (format_three_digits (milliseconds t)
                                  ltac:(lia)))
      as (d1 & d2 & d3 & Ed & Hd1 & Hd2 & Hd3).
    rewrite Ed. simpl.
    rewrite Hh1, Hh2, Hm1, Hm2, Hs1, Hs2, Hd1, Hd2, Hd3. reflexivity.
  - intros ->. split; reflexivity.
Qed.

Lemma timestamp_shape_witness :
  exists t,
    seconds_to_timestamp (decimal 1254 1) = Ok (format_stamp t)
    /\ (milliseconds t < 1000 -> stamp_shape (format_stamp t) = true).
Proof.
  assert (Hr : in_range (decimal 1254 1)).
  { repeat split; vm_compute; reflexivity. }
  assert (Hlt : (F2Q (decimal 1254 1) < 360000)%Q)
    by (vm_compute; reflexivity).
  destruct (timestamp_shape (decimal 1254 1) Hr Hlt)
    as (t & _ & Es & Hshape & _).
  exists t. auto.
Defined.

(** X16.  A time that is not finite.  On a NaN and on either infinity
    the formatter raises [ValueError]: the floor division of an infinity
    by 3600 is a NaN, so that [int] fails on a NaN in both cases and never
    with [OverflowError]. *)
Theorem timestamp_of_non_finite (seconds : float) :
  ~ finite_or_zero seconds ->
  seconds_to_timestamp seconds = Raise ValueError.
Proof.
  destruct seconds as [s | [|] | | s m e]; simpl; intros H;
    try (exfalso; apply H; exact I); vm_compute; reflexivity.
Qed.

Lemma timestamp_of_non_finite_witness :
  seconds_to_timestamp (S754_infinity false) = Raise ValueError.
Proof.
  apply (timestamp_of_non_finite (S754_infinity false)).
  intros H. exact H.
Defined.

Local Close Scope Z_scope.

(** ** [create_srt] *)

Lemma create_srt_step_ok (written : str) (idx : Z) (c : subtitle)
    (e : str * str * str) :
  formats_as c e ->
  create_srt_step written idx c
  = (written ++ srt_block idx (fst (fst e)) (snd (fst e)) (snd e), Ok tt).
Proof.
  destruct c as [[start stop] text]. destruct e as [[a b] line].
  unfold formats_as. simpl. intros (Ha & Hb & ->).
  rewrite Ha, Hb. unfold srt_block.
  repeat rewrite <- app_assoc. simpl. repeat rewrite <- app_assoc.
  reflexivity.
Qed.

(** The loop on cues that all format. *)
Lemma create_srt_loop_ok (subs : list subtitle)
    (entries : list (str * str * str)) (written : str) (idx : Z) :
  Forall2 formats_as subs entries ->
  create_srt_loop written idx subs
  = (written ++ srt_blocks idx entries, Ok tt).
Proof.
  intros H. revert written idx.
  induction H as [|c e subs entries Hce _ IH]; intros written idx.
  - simpl. rewrite app_nil_r. reflexivity.
  - simpl. rewrite (create_srt_step_ok _ _ _ _ Hce).
    rewrite IH. destruct e as [[a b] line]. simpl.
    rewrite <- app_assoc. reflexivity.
Qed.

Lemma in_range_formats (x : float) :
  in_range x -> exists s, seconds_to_timestamp x = Ok s.
Proof.
  intros H. destruct (timestamp_fields_ranges x H) as (t & Et & _).
  exists (format_stamp t). unfold seconds_to_timestamp. rewrite Et.
  reflexivity.
Qed.

(** X17.  What a successful call writes.  When the start and the end of
    every cue format (as they do for all times that are non-negative
    doubles below [2^53]), [create_srt] does not fail and the output file
    holds, and holds only, one block per cue in cue order: the number of
    the cue counted from 1, a line with the two timestamps around
    [ --> ], the text, and an empty line. *)
Theorem create_srt_writes_blocks (d : disk) (subs : list subtitle)
    (output_file : str) :
  (forall entries,
     Forall2 formats_as subs entries ->
     create_srt d subs output_file
     = (write_file d output_file (srt_blocks 1 entries), Ok tt))
  /\ (Forall (fun c => in_range (fst (fst c)) /\ in_range (snd (fst c))) subs ->
      exists entries, Forall2 formats_as subs entries).
Proof.
  split.
  - intros entries H. unfold create_srt.
    rewrite (create_srt_loop_ok _ _ _ _ H). reflexivity.
  - intros H. induction H as [|c subs [Hs He] _ [entries IH]].
    + exists []. constructor.
    + destruct (in_range_formats _ Hs) as [a Ea].
      destruct (in_range_formats _ He) as [b Eb].
      exists ((a, b, snd c) :: entries). constructor; [|exact IH].
      unfold formats_as. simpl. auto.
Qed.

Lemma create_srt_writes_blocks_witness :
  exists entries,
    Forall2 formats_as sample_cues entries
    /\ create_srt (fun _ => None) sample_cues "out.srt"
       = (write_file (fun _ => None) "out.srt" (srt_blocks 1 entries), Ok tt).
Proof.
  destruct (create_srt_writes_blocks (fun _ => None) sample_cues "out.srt")
    as [Hwrite Htotal].
  destruct Htotal as [entries He].
  { repeat constructor; vm_compute; reflexivity. }
  exists entries. split; [exact He | exact (Hwrite entries He)].
Defined.

(** The first cue of [c :: rest] does not format. *)
Lemma create_srt_step_raise (written : str) (idx : Z) (c : subtitle)
    (e : exn) :
  (seconds_to_timestamp (fst (fst c)) = Raise e
   \/ (exists a, seconds_to_timestamp (fst (fst c)) = Ok a)
      /\ seconds_to_timestamp (snd (fst c)) = Raise e) ->
  create_srt_step written idx c
  = (written ++ str_of_int idx ++ [newline], Raise e).
Proof.
  destruct c as [[start stop] text]. simpl.
  intros [Ha | [[a Ha] Hb]]; rewrite Ha; [reflexivity|].
  rewrite Hb. reflexivity.
Qed.

Lemma create_srt_loop_raise (done : list subtitle)
    (entries : list (str * str * str)) (c : subtitle) (rest : list subtitle)
    (e : exn) (written : str) (idx : Z) :
  Forall2 formats_as done entries ->
  (seconds_to_timestamp (fst (fst c)) = Raise e
   \/ (exists a, seconds_to_timestamp (fst (fst c)) = Ok a)
      /\ seconds_to_timestamp (snd (fst c)) = Raise e) ->
  create_srt_loop written idx (done ++ c :: rest)
  = (written ++ srt_blocks idx entries
             ++ str_of_int (idx + Z.of_nat (List.length done)) ++ [newline],
     Raise e).
Proof.
  intros H Hc. revert written idx.
  induction H as [|c0 e0 done entries Hce _ IH]; intros written idx.
  - simpl. rewrite (create_srt_step_raise _ _ _ _ Hc).
    rewrite Z.add_0_r. reflexivity.
  - cbn [app create_srt_loop]. rewrite (create_srt_step_ok _ _ _ _ Hce).
    rewrite IH. destruct e0 as [[a b] line].
    cbn [srt_blocks fst snd List.length].
    replace (idx + Z.of_nat (S (List.length done)))%Z
      with (idx + 1 + Z.of_nat (List.length done))%Z by lia.
    rewrite <- !app_assoc. reflexivity.
Qed.

(** X18.  What a failed call leaves behind.  When the cues before cue
    number [k] format and the start of cue [k], or its end after its
    start, raises an exception, [create_srt] leaves with that exception;
    the output file has been emptied and rewritten and holds the complete
    blocks of the cues before, followed by the number line of cue [k]
    alone; the cues after [k] are not looked at. *)
Theorem create_srt_failure_leaves_partial_file (d : disk)
    (done : list subtitle) (entries : list (str * str * str))
    (c : subtitle) (rest : list subtitle) (e : exn) (output_file : str) :
  Forall2 formats_as done entries ->
  (seconds_to_timestamp (fst (fst c)) = Raise e
   \/ (exists a, seconds_to_timestamp (fst (fst c)) = Ok a)
      /\ seconds_to_timestamp (snd (fst c)) = Raise e) ->
  create_srt d (done ++ c :: rest) output_file
  = (write_file d output_file
       (srt_blocks 1 entries
        ++ str_of_int (1 + Z.of_nat (List.length done)) ++ [newline]),
     Raise e).
Proof.
  intros H Hc. unfold create_srt.
  rewrite (create_srt_loop_raise _ _ _ _ _ _ _ H Hc). reflexivity.
Qed.

Lemma create_srt_failure_leaves_partial_file_witness :
  create_srt (fun _ => None)
             [(decimal 0 0, decimal 15 1, "Hello." : str);
              (decimal 15 1, S754_nan, "Bye." : str);
              (decimal 2 0, decimal 3 0, "Never." : str)]
             "out.srt"
  = (write_file (fun _ => None) "out.srt"
       (srt_block 1 "00:00:00,000" "00:00:01,500" "Hello."
        ++ "2" ++ [newline]),
     Raise ValueError).
Proof.
  refine (eq_trans
            (create_srt_failure_leaves_partial_file (fun _ => None)
               [(decimal 0 0, decimal 15 1, "Hello." : str)]
               [("00:00:00,000" : str, "00:00:01,500" : str, "Hello." : str)]
               (decimal 15 1, S754_nan, "Bye." : str)
               [(decimal 2 0, decimal 3 0, "Never." : str)]
               ValueError "out.srt" _ _) _).
  - repeat constructor; vm_compute; reflexivity.
  - right. split; [eexists; vm_compute; reflexivity | vm_compute; reflexivity].
  - cbn [srt_blocks]. rewrite app_nil_r. reflexivity.
Defined.
